(** * ChatGPT Timeline: position-synchronisation and active-index engine

    A shallow embedding of the geometry, scroll-synchronisation, tooltip
    placement and drag-persistence code of [extension/content.js]
    (class [TimelineManager]), with the properties of the design
    document stated over it.

    Numbers.  JavaScript numbers are modelled as exact rationals [Q]:
    every finite double is a rational, and the arithmetic of the source
    ([+], [-], [*], [Math.max], [Math.min], [Math.floor], comparisons)
    is taken without rounding.  The one place where exactness matters
    for a property, division by a denominator that may be zero, is
    modelled by [js_div], which yields the non-finite values JavaScript
    produces there. *)

From Stdlib Require Import String Bool.
From Stdlib Require Import QArith Qminmax Qround Qabs ZArith List Lia Lqa.
From Stdlib Require Import DecimalString.
From Stdlib Require DecimalNat DecimalFacts.
Import ListNotations.
Open Scope Q_scope.

(** ** JavaScript numbers *)

(** Result of a division: a finite number, [NaN] (0/0) or a signed
    infinity (x/0, x <> 0). *)
Inductive jsnum : Type :=
| Num (q : Q)
| NaN
| Inf (positive : bool).

(** [a / b] on finite operands. *)
Definition js_div (a b : Q) : jsnum :=
  if Qeq_bool b 0 then
    (if Qeq_bool a 0 then NaN else Inf (if Qlt_le_dec 0 a then true else false))
  else Num (a / b).

(** [Math.max(0, Math.min(1, x))]: [NaN] propagates through both calls,
    the infinities are clamped. *)
Definition clamp01 (x : jsnum) : jsnum :=
  match x with
  | Num q => Num (Qmax 0 (Qmin 1 q))
  | NaN => NaN
  | Inf true => Num 1
  | Inf false => Num 0
  end.

(** [x || d] on a number: zero is falsy. *)
Definition or_default (x d : Q) : Q := if Qeq_bool x 0 then d else x.

(** Array index as a number. *)
Definition of_nat (n : nat) : Q := inject_Z (Z.of_nat n).

(** ** CSS custom properties *)

(** The numeric custom properties visible on an element: [None] where
    the property is unset or does not parse as a finite number. *)
Definition css_env : Type := string -> option Q.

(** [getCSSVarNumber(el, name, fallback)]. *)
Definition getCSSVarNumber (css : css_env) (name : string) (fallback : Q) : Q :=
  match css name with
  | Some n => n
  | None => fallback
  end.

(** No stylesheet: every property takes its fallback. *)
Definition no_stylesheet : css_env := fun _ => None.

(** [getTrackPadding()] and [getMinGap()], with the timeline bar present. *)
Definition getTrackPadding (css : css_env) : Q :=
  getCSSVarNumber css "--timeline-track-padding" 12.

Definition getMinGap (css : css_env) : Q :=
  getCSSVarNumber css "--timeline-min-gap" 12.

(** ** GeometryEngine *)

(** [getEffectiveMinGap(usableHeight, count)]; [raw] is the value of
    [getMinGap()]. *)
Definition effective_gap_denominator (count : nat) : Q :=
  Qmax 1 (of_nat count - 1).

Definition getEffectiveMinGap (raw usableHeight : Q) (count : nat) : Q :=
  if (count <=? 1)%nat then 0
  else if Qlt_le_dec 0 usableHeight then
    let maxGap := usableHeight / effective_gap_denominator count in
    Qmax 0 (Qmin raw maxGap)
  else Qmax 0 raw.

(** Forward pass of [applyMinGap]: [out[i] = max(cur[i], out[i-1] + gap)]
    for the entries after one whose final value is [prev]. *)
Fixpoint forward_pass (prev : Q) (rest : list Q) (gap : Q) : list Q :=
  match rest with
  | [] => []
  | p :: rest' =>
      let o := Qmax p (prev + gap) in
      o :: forward_pass o rest' gap
  end.

(** Backward pass: the last entry becomes [maxTop], then from the end
    [out[i] = min(out[i], out[i+1] - gap)]. *)
Fixpoint backward_pass (out : list Q) (maxTop gap : Q) : list Q :=
  match out with
  | [] => []
  | x :: tl =>
      match tl with
      | [] => [maxTop]
      | _ :: _ =>
          let tl' := backward_pass tl maxTop gap in
          Qmin x (hd 0 tl' - gap) :: tl'
      end
  end.

(** The final loop: [if (out[i] < minTop) out[i] = minTop;
    if (out[i] > maxTop) out[i] = maxTop]. *)
Definition final_clamp (minTop maxTop x : Q) : Q :=
  let x1 := if Qlt_le_dec x minTop then minTop else x in
  if Qlt_le_dec maxTop x1 then maxTop else x1.

Definition applyMinGap (positions : list Q) (minTop maxTop gap : Q) : list Q :=
  match positions with
  | [] => positions
  | p0 :: rest =>
      let out0 := Qmax minTop (Qmin p0 maxTop) in
      let out := out0 :: forward_pass out0 rest gap in
      let out :=
        if Qlt_le_dec maxTop (last out 0) then
          let out := backward_pass out maxTop gap in
          if Qlt_le_dec (hd 0 out) minTop then
            minTop :: forward_pass minTop (tl out) gap
          else out
        else out in
      map (final_clamp minTop maxTop) out
  end.

(** Adjacent entries of a list are at least [g] apart. *)
Fixpoint gapped (g : Q) (l : list Q) : Prop :=
  match l with
  | [] => True
  | x :: tl =>
      match tl with
      | [] => True
      | y :: _ => x + g <= y /\ gapped g tl
      end
  end.

(** Every entry leaves room for the entries after it below [hi]:
    the entry with [k] successors is at most [hi - g * k]. *)
Fixpoint leaves_room (g hi : Q) (l : list Q) : Prop :=
  match l with
  | [] => True
  | x :: tl => x + g * of_nat (length tl) <= hi /\ leaves_room g hi tl
  end.

Definition within (lo hi : Q) (l : list Q) : Prop :=
  Forall (fun y => lo <= y <= hi) l.

(** [updateTimelineGeometry()]: the pixel positions [yPositions] and the
    normalized positions written to [markers[i].n], for [N] markers, a
    bar of client height [barHeight] and the track padding [pad] that
    [getTrackPadding()] returns. *)
Record geometry : Type := mkGeometry {
  yPositions : list Q;
  marker_n : list jsnum
}.

Definition usable_height (barHeight pad : Q) : Q :=
  Qmax 0 (barHeight - 2 * pad).

(** [clampedTop] of marker [i] in the branch [N > 1]. *)
Definition clampedTop (N : nat) (barHeight pad : Q) (i : nat) : Q :=
  let usable := usable_height barHeight pad in
  let step := usable / Qmax 1 (of_nat N - 1) in
  let top := pad + step * of_nat i in
  Qmax pad (Qmin (pad + usable) top).

Definition updateTimelineGeometry (N : nat) (barHeight pad : Q) : geometry :=
  let usable := usable_height barHeight pad in
  match N with
  | O => mkGeometry [] []
  | S O =>
      let mid := pad + usable / 2 in
      mkGeometry [mid] [Num (1 # 2)]
  | _ =>
      let tops := map (clampedTop N barHeight pad) (seq 0 N) in
      mkGeometry tops
        (map (fun c => clamp01 (js_div (c - pad) usable)) tops)
  end.

(** [reapplyMinGapAfterResize()]: from the cached normalized positions
    (finite numbers; a missing one reads as 0) to the ones written back. *)
Definition reapply_denominator (minTop maxTop : Q) : Q :=
  Qmax 1 (maxTop - minTop).

Definition reapplyMinGapAfterResize
    (css : css_env) (barHeight : Q) (cached : list Q) : list jsnum :=
  let trackPadding := getTrackPadding css in
  let usable := Qmax 0 (barHeight - 2 * trackPadding) in
  let minTop := trackPadding in
  let maxTop := trackPadding + usable in
  let minGap := getEffectiveMinGap (getMinGap css) usable (length cached) in
  let desired := map (fun n => minTop + Qmax 0 (Qmin 1 n) * usable) cached in
  let adjusted := applyMinGap desired minTop maxTop minGap in
  map (fun top =>
         clamp01 (js_div (top - minTop) (reapply_denominator minTop maxTop)))
      adjusted.

(** ** ScrollSyncController *)

(** [Math.round]. *)
Definition js_round (x : Q) : Q := inject_Z (Qfloor (x + (1 # 2))).

(** The reference line [scrollTop + clientHeight * 0.45]. *)
Definition reference_line (scrollTop clientHeight : Q) : Q :=
  scrollTop + clientHeight * (45 # 100).

Definition scroll_span (contentSpanPx : Q) : Q :=
  Qmax 1 (or_default contentSpanPx 1).

(** The ratio [r] of [syncTimelineTrackToMain]. *)
Definition scroll_ratio
    (scrollTop clientHeight firstUserTurnOffset contentSpanPx : Q) : jsnum :=
  let ref := reference_line scrollTop clientHeight in
  let span := scroll_span contentSpanPx in
  clamp01 (js_div (ref - or_default firstUserTurnOffset 0) span).

(** [syncTimelineTrackToMain()]: the track's new [scrollTop]. *)
Definition syncTimelineTrackToMain
    (contentHeight trackClientHeight trackScrollTop : Q) (sliderDragging : bool)
    (scrollTop clientHeight firstUserTurnOffset contentSpanPx : Q) : Q :=
  if Qeq_bool contentHeight 0 then trackScrollTop
  else if Qlt_le_dec 0 trackClientHeight then
    if Qlt_le_dec (trackClientHeight + 1) contentHeight then
      if sliderDragging then trackScrollTop
      else
        match scroll_ratio scrollTop clientHeight
                firstUserTurnOffset contentSpanPx with
        | Num r =>
            let maxScroll := Qmax 0 (contentHeight - trackClientHeight) in
            let target := js_round (r * maxScroll) in
            if Qlt_le_dec 1 (Qabs (trackScrollTop - target)) then target
            else trackScrollTop
        | _ => trackScrollTop
        end
    else 0
  else trackScrollTop.

(** A marker: the turn id and the document offset of its element
    ([element.getBoundingClientRect().top - containerRect.top + scrollTop]). *)
Record Marker : Type := mkMarker {
  marker_id : string;
  marker_top : Q
}.

(** The scan of [computeActiveByScroll]: [sel] is the marker whose id
    [activeId] currently holds; the loop stops at the first marker below
    the reference line. *)
Fixpoint scan_active (ms : list Marker) (ref : Q) (sel : Marker) : Marker :=
  match ms with
  | [] => sel
  | m :: ms' =>
      if Qlt_le_dec ref (marker_top m) then sel
      else scan_active ms' ref m
  end.

Definition select_active (ms : list Marker) (ref : Q) : option Marker :=
  match ms with
  | [] => None
  | m0 :: _ => Some (scan_active ms ref m0)
  end.

(** The selection in the words of the design document: the last marker,
    in list order, whose offset is at or above the reference line, and
    the first marker when there is none. *)
Definition scrolled_past (ref : Q) (m : Marker) : bool :=
  Qle_bool (marker_top m) ref.

Definition last_scrolled_past (ms : list Marker) (ref : Q) : option Marker :=
  match find (scrolled_past ref) (rev ms) with
  | Some m => Some m
  | None => hd_error ms
  end.

(** Offsets do not decrease along the list. *)
Definition ascending_offsets (ms : list Marker) : Prop :=
  gapped 0 (map marker_top ms).

(** Truthiness of an id that may be [null], and of a timer handle. *)
Definition truthy_id (x : option string) : bool :=
  match x with
  | Some s => negb (String.eqb s EmptyString)
  | None => false
  end.

Definition truthy_handle (x : option nat) : bool :=
  match x with
  | Some h => negb (Nat.eqb h 0)
  | None => false
  end.

Definition same_id (x y : option string) : bool :=
  match x, y with
  | Some a, Some b => String.eqb a b
  | None, None => true
  | _, _ => false
  end.

(** The fields of the manager that the active-marker decision reads and
    writes.  [timers] is the browser's table of scheduled, not yet run
    commit callbacks (handle and due time); [committed] records, in
    order, the ids that [computeActiveByScroll] and its timer callback
    assigned to [activeTurnId]. *)
Record state : Type := mkState {
  markers : list Marker;
  activeTurnId : option string;
  pendingActiveId : option string;
  lastActiveChangeTime : Q;
  activeChangeTimer : option nat;
  timers : list (nat * Q);
  nextTimerHandle : nat;
  committed : list string
}.

Definition minActiveChangeInterval : Q := 120.

(** State after the constructor. *)
Definition initial_state : state :=
  mkState [] None None 0 None [] 1 [].

Definition commit (id : string) (now : Q) (s : state) : state :=
  mkState (markers s) (Some id) (pendingActiveId s) now
          (activeChangeTimer s) (timers s) (nextTimerHandle s)
          (committed s ++ [id]).

Definition set_pending (p : option string) (s : state) : state :=
  mkState (markers s) (activeTurnId s) p (lastActiveChangeTime s)
          (activeChangeTimer s) (timers s) (nextTimerHandle s) (committed s).

(** [this.activeChangeTimer = setTimeout(callback, delay)] at time [now]. *)
Definition arm_timer (now delay : Q) (s : state) : state :=
  mkState (markers s) (activeTurnId s) (pendingActiveId s)
          (lastActiveChangeTime s) (Some (nextTimerHandle s))
          ((nextTimerHandle s, now + delay) :: timers s)
          (S (nextTimerHandle s)) (committed s).

(** Second half of [computeActiveByScroll]: what happens to the candidate
    [activeId] computed at time [now]. *)
Definition consider_candidate (now : Q) (activeId : string) (s : state)
  : state :=
  if same_id (activeTurnId s) (Some activeId) then s
  else
    let since := now - lastActiveChangeTime s in
    if Qlt_le_dec since minActiveChangeInterval then
      let s1 := set_pending (Some activeId) s in
      if truthy_handle (activeChangeTimer s1) then s1
      else arm_timer now (Qmax (minActiveChangeInterval - since) 0) s1
    else commit activeId now s.

Definition computeActiveByScroll (now scrollTop clientHeight : Q) (s : state)
  : state :=
  match select_active (markers s) (reference_line scrollTop clientHeight) with
  | None => s
  | Some m => consider_candidate now (marker_id m) s
  end.

(** Body of the timer callback, run at time [now]. *)
Definition activeChangeTimer_callback (now : Q) (s : state) : state :=
  let s1 := mkState (markers s) (activeTurnId s) (pendingActiveId s)
                    (lastActiveChangeTime s) None (timers s)
                    (nextTimerHandle s) (committed s) in
  let s2 :=
    match pendingActiveId s1 with
    | Some p =>
        if truthy_id (Some p) && negb (same_id (Some p) (activeTurnId s1))
        then commit p now s1 else s1
    | None => s1
    end in
  set_pending None s2.

Definition remove_timer (h : nat) (ts : list (nat * Q)) : list (nat * Q) :=
  filter (fun t => negb (Nat.eqb (fst t) h)) ts.

Definition timer_due (h : nat) (now : Q) (ts : list (nat * Q)) : bool :=
  existsb (fun t => Nat.eqb (fst t) h && Qle_bool (snd t) now) ts.

(** The browser runs the scheduled callback [h] at time [now], if it is
    scheduled and due. *)
Definition fire_timer (h : nat) (now : Q) (s : state) : state :=
  if timer_due h now (timers s) then
    activeChangeTimer_callback now
      (mkState (markers s) (activeTurnId s) (pendingActiveId s)
               (lastActiveChangeTime s) (activeChangeTimer s)
               (remove_timer h (timers s)) (nextTimerHandle s) (committed s))
  else s.

(** [recalculateAndRenderMarkers()], with [turns] the user turns found in
    the document: an empty list leaves the state as it is (the rebuild is
    retried later); otherwise the markers are replaced and an unset
    [activeTurnId] defaults to the last marker. *)
Definition recalculateAndRenderMarkers (turns : list Marker) (s : state)
  : state :=
  match turns with
  | [] => s
  | t0 :: _ =>
      let active :=
        if negb (truthy_id (activeTurnId s))
        then Some (marker_id (last turns t0))
        else activeTurnId s in
      mkState turns active (pendingActiveId s) (lastActiveChangeTime s)
              (activeChangeTimer s) (timers s) (nextTimerHandle s)
              (committed s)
  end.

(** The part of [destroy()] on these fields. *)
Definition destroy (s : state) : state :=
  let cleared := truthy_handle (activeChangeTimer s) in
  mkState [] None None (lastActiveChangeTime s)
          (if cleared then None else activeChangeTimer s)
          (match activeChangeTimer s with
           | Some h => if cleared then remove_timer h (timers s) else timers s
           | None => timers s
           end)
          (nextTimerHandle s) (committed s).

Inductive event : Type :=
| Rebuild (turns : list Marker)
| Scroll (now scrollTop clientHeight : Q)
| Fire (h : nat) (now : Q)
| Destroy.

Definition run_event (s : state) (e : event) : state :=
  match e with
  | Rebuild turns => recalculateAndRenderMarkers turns s
  | Scroll now scrollTop clientHeight =>
      computeActiveByScroll now scrollTop clientHeight s
  | Fire h now => fire_timer h now s
  | Destroy => destroy s
  end.

Definition run (s : state) (es : list event) : state :=
  fold_left run_event es s.

Definition reachable (s : state) : Prop :=
  exists es, s = run initial_state es.

Definition marker_ids (ms : list Marker) : list string := map marker_id ms.

(** A burst of candidates: [computeActiveByScroll] reaches its second
    half with candidate [snd e] at time [fst e], for each [e] in turn. *)
Definition consider_all (burst : list (Q * string)) (s : state) : state :=
  fold_left (fun st e => consider_candidate (fst e) (snd e) st) burst s.

(** A candidate of a burst: it arrives less than the interval after the
    last committed change and differs from the active id. *)
Definition deferrable (s : state) (e : Q * string) : Prop :=
  fst e - lastActiveChangeTime s < minActiveChangeInterval /\
  same_id (activeTurnId s) (Some (snd e)) = false.

(** No marker, no active id and no pending id; markers, an active id. *)
Definition coherent (s : state) : Prop :=
  (markers s = [] <-> activeTurnId s = None) /\
  (markers s = [] -> pendingActiveId s = None).

(** The ids of all markers that the rebuilds among [es] installed. *)
Definition rebuilt_ids (es : list event) : list string :=
  flat_map (fun e => match e with
                     | Rebuild turns => marker_ids turns
                     | _ => []
                     end) es.

(** Every id the state holds was installed by a rebuild of the history. *)
Definition known_ids (es : list event) (s : state) : Prop :=
  (forall a, activeTurnId s = Some a -> In a (rebuilt_ids es)) /\
  (forall p, pendingActiveId s = Some p -> In p (rebuilt_ids es)) /\
  (forall m, In m (markers s) -> In (marker_id m) (rebuilt_ids es)).

(** The handle field and the browser's timer table agree: a handle is
    stored exactly while its callback is scheduled, and nothing else is. *)
Definition timer_consistent (s : state) : Prop :=
  (0 < nextTimerHandle s)%nat /\
  match activeChangeTimer s with
  | Some h => (0 < h)%nat /\ exists due, timers s = [(h, due)]
  | None => timers s = []
  end.

(** The invariant of the design document on the active state. *)
Definition active_state_invariant (s : state) : Prop :=
  (length (timers s) <= 1)%nat /\
  match markers s with
  | [] => activeTurnId s = None
  | _ :: _ => exists a, activeTurnId s = Some a /\ In a (marker_ids (markers s))
  end.

(** ** TooltipLayoutEngine *)

Inductive side : Type := SideLeft | SideRight.

Record placement_info : Type := mkPlacement {
  placement : side;
  width : Q
}.

Definition tiers : list Q := [280; 240; 200; 160].

Definition floorQ (x : Q) : Q := inject_Z (Qfloor x).

(** [tiers.find(t => t <= hardMax)]. *)
Definition find_tier (hardMax : Q) : option Q :=
  find (fun t => Qle_bool t hardMax) tiers.

(** [tiers.find(...) || fallback]: no result, or a zero one, gives the
    fallback. *)
Definition tier_or (hardMax fallback : Q) : Q :=
  match find_tier hardMax with
  | Some t => or_default t fallback
  | None => fallback
  end.

Definition side_eqb (a b : side) : bool :=
  match a, b with
  | SideLeft, SideLeft | SideRight, SideRight => true
  | _, _ => false
  end.

Definition Qlt_bool (a b : Q) : bool := if Qlt_le_dec a b then true else false.

(** Room on each side of the anchor: [leftAvail] and [rightAvail]. *)
Definition tooltip_gap (arrowOut baseGap boxGap : Q) : Q :=
  baseGap + Qmax 0 arrowOut + Qmax 0 boxGap.

Definition viewportPad : Q := 8.
Definition minW : Q := 160.

Definition leftAvail (gap dotLeft : Q) : Q :=
  Qmax 0 (dotLeft - gap - viewportPad).

Definition rightAvail (gap dotRight vw : Q) : Q :=
  Qmax 0 (vw - dotRight - gap - viewportPad).

(** [Math.max(minW, Math.min(maxW, Math.floor(avail)))]. *)
Definition hardMaxOf (maxW avail : Q) : Q :=
  Qmax minW (Qmin maxW (floorQ avail)).

(** The body of [computePlacementInfo(dot)] once the custom properties
    are read: [arrowOut], [baseGap], [boxGap] and [maxW] are the values
    of [--timeline-tooltip-arrow-outside], [--timeline-tooltip-gap-visual],
    [--timeline-tooltip-gap-box] and [--timeline-tooltip-max]; [dotLeft]
    and [dotRight] are the edges of the anchor's bounding rectangle and
    [vw] is [window.innerWidth]. *)
Definition placement_with
    (arrowOut baseGap boxGap maxW : Q) (dotLeft dotRight vw : Q)
  : placement_info :=
  let gap := tooltip_gap arrowOut baseGap boxGap in
  let la := leftAvail gap dotLeft in
  let ra := rightAvail gap dotRight vw in
  let placement0 := if Qlt_bool la ra then SideRight else SideLeft in
  let avail := match placement0 with SideRight => ra | SideLeft => la end in
  let hardMax := hardMaxOf maxW avail in
  let width0 := tier_or hardMax (Qmax minW (Qmin hardMax 160)) in
  let '(placement1, width1) :=
    if Qlt_bool width0 minW && side_eqb placement0 SideLeft && Qlt_bool la ra
    then
      let hardMax2 := hardMaxOf maxW ra in
      (SideRight, tier_or hardMax2 (Qmax 120 (Qmin hardMax2 minW)))
    else if Qlt_bool width0 minW && side_eqb placement0 SideRight
            && Qle_bool ra la
    then
      let hardMax2 := hardMaxOf maxW la in
      (SideLeft, tier_or hardMax2 (Qmax 120 (Qmin hardMax2 minW)))
    else (placement0, width0) in
  mkPlacement placement1 (Qmax 120 (Qmin width1 maxW)).

(** [computePlacementInfo(dot)]. *)
Definition tooltip_max (css : css_env) : Q :=
  getCSSVarNumber css "--timeline-tooltip-max" 288.

Definition tooltip_gap_of (css : css_env) : Q :=
  tooltip_gap (getCSSVarNumber css "--timeline-tooltip-arrow-outside" 6)
              (getCSSVarNumber css "--timeline-tooltip-gap-visual" 12)
              (getCSSVarNumber css "--timeline-tooltip-gap-box" 8).

Definition computePlacementInfo (css : css_env) (dotLeft dotRight vw : Q)
  : placement_info :=
  placement_with (getCSSVarNumber css "--timeline-tooltip-arrow-outside" 6)
                 (getCSSVarNumber css "--timeline-tooltip-gap-visual" 12)
                 (getCSSVarNumber css "--timeline-tooltip-gap-box" 8)
                 (tooltip_max css)
                 dotLeft dotRight vw.

(** The placement rule in the words of the design document: take the
    side with more room; take the largest tier that fits it; if none
    fits, look for a tier on the other side; otherwise fall back to the
    minimum width. *)
Definition fits (avail t : Q) : bool := Qle_bool t avail.

Definition largest_fitting_tier (avail : Q) : option Q :=
  find (fits avail) tiers.


(** ** DragConstraintEngine: position persistence *)

(** A bounding rectangle; [right = left + width]. *)
Record rect : Type := mkRect {
  rect_left : Q;
  rect_top : Q;
  rect_width : Q;
  rect_height : Q
}.

Definition rect_right (r : rect) : Q := rect_left r + rect_width r.

(** The stored position: percentages of the window and the window size
    at the time of saving. *)
Record SavedPosition : Type := mkSaved {
  saved_right : Q;
  saved_top : Q;
  saved_width : Q;
  saved_height : Q;
  saved_windowWidth : Q;
  saved_windowHeight : Q
}.

(** [savePosition()]: the value written under the position key, for the
    bar's rectangle and a window of positive size. *)
Definition savePosition (r : rect) (windowWidth windowHeight : Q)
  : SavedPosition :=
  mkSaved (((windowWidth - rect_right r) / windowWidth) * 100)
          ((rect_top r / windowHeight) * 100)
          ((rect_width r / windowWidth) * 100)
          ((rect_height r / windowHeight) * 100)
          windowWidth windowHeight.

Definition drag_margin : Q := 10.

(** The pixel offsets written to [style.right] and [style.top]. *)
Record bar_style : Type := mkStyle {
  style_right : Q;
  style_top : Q
}.

(** [restorePosition()]: with nothing stored nothing happens; otherwise
    the offsets written to the bar and the value stored back. *)
Definition restorePosition
    (stored : option SavedPosition) (barRect : rect)
    (currentWindowWidth currentWindowHeight : Q)
  : option (bar_style * SavedPosition) :=
  match stored with
  | None => None
  | Some saved =>
      let right := (saved_right saved / 100) * currentWindowWidth in
      let top := (saved_top saved / 100) * currentWindowHeight in
      let maxRight := currentWindowWidth - rect_width barRect - drag_margin in
      let maxTop := currentWindowHeight - rect_height barRect - drag_margin in
      let right := Qmax drag_margin (Qmin right maxRight) in
      let top := Qmax drag_margin (Qmin top maxTop) in
      Some (mkStyle right top,
            mkSaved (saved_right saved) (saved_top saved)
                    (saved_width saved) (saved_height saved)
                    currentWindowWidth currentWindowHeight)
  end.

(** The offsets of a rectangle in a window, as the bar's style holds
    them: distance of the right edge from the window's right edge, and
    distance of the top edge from the window's top. *)
Definition offsets_of (r : rect) (windowWidth : Q) : bar_style :=
  mkStyle (windowWidth - rect_right r) (rect_top r).

(** The bounds that dragging and restoring clamp to. *)
Definition in_margin_bounds (r : rect) (windowWidth windowHeight : Q) : Prop :=
  0 <= rect_width r /\ 0 <= rect_height r /\
  drag_margin <= windowWidth - rect_right r
    <= windowWidth - rect_width r - drag_margin /\
  drag_margin <= rect_top r <= windowHeight - rect_height r - drag_margin.

(** ** Marker rebuild: normalized positions along the conversation *)

(** [contentSpan] of [recalculateAndRenderMarkers()], from the [offsetTop]
    of the user turns: 1 for fewer than two turns and for a span that is
    not positive. *)
Definition contentSpan (offsets : list Q) : Q :=
  match offsets with
  | [] => 1
  | first :: _ =>
      let span :=
        if (length offsets <? 2)%nat then 1 else last offsets first - first in
      if Qlt_le_dec 0 span then span else 1
  end.

(** The [n] (and [baseN]) given to each new marker. *)
Definition rebuild_n (offsets : list Q) : list jsnum :=
  match offsets with
  | [] => []
  | first :: _ =>
      map (fun o => clamp01 (js_div (o - first) (contentSpan offsets))) offsets
  end.

(** Number of markers that the scan of [computeActiveByScroll] passes
    before it stops: the leading markers at or above the reference line. *)
Fixpoint leading_run (ms : list Marker) (ref : Q) : nat :=
  match ms with
  | [] => O
  | m :: ms' =>
      if Qlt_le_dec ref (marker_top m) then O else S (leading_run ms' ref)
  end.

(** ** Tooltip: box placement *)

(** What [placeTooltipAt] writes to the tooltip: the [data-placement]
    attribute and the style's left, top, width and height. *)
Record tooltip_box : Type := mkBox {
  box_placement : side;
  box_left : Q;
  box_top : Q;
  box_width : Q;
  box_height : Q
}.

(** [placeTooltipAt(dot, placement, width, height)], with the tooltip
    present; [dot] is the anchor's bounding rectangle, [vw] and [vh] the
    window's inner width and height. *)
Definition placeTooltipAt
    (css : css_env) (dot : rect) (vw vh : Q)
    (placement0 : side) (width0 height : Q) : tooltip_box :=
  let gap := tooltip_gap_of css in
  let '(placement1, left1, width1) :=
    match placement0 with
    | SideLeft =>
        let left := js_round (rect_left dot - gap - width0) in
        if Qlt_le_dec left viewportPad then
          let altLeft := js_round (rect_right dot + gap) in
          if Qle_bool (altLeft + width0) (vw - viewportPad) then
            (SideRight, altLeft, width0)
          else
            (SideLeft, altLeft, Qmax 120 (vw - viewportPad - altLeft))
        else (SideLeft, left, width0)
    | SideRight =>
        let left := js_round (rect_right dot + gap) in
        if Qlt_le_dec (vw - viewportPad) (left + width0) then
          let altLeft := js_round (rect_left dot - gap - width0) in
          if Qle_bool viewportPad altLeft then (SideLeft, altLeft, width0)
          else (SideRight, left, Qmax 120 (vw - viewportPad - left))
        else (SideRight, left, width0)
    end in
  let top := js_round (rect_top dot + rect_height dot / 2 - height / 2) in
  let top := Qmax viewportPad (Qmin (vh - height - viewportPad) top) in
  mkBox placement1 left1 top (floorQ width1) (floorQ height).

(** ** Tooltip: truncation to three lines *)

(** Text is a list of code units of any type [char]; [is_space] says
    which ones [\s] and [trim] treat as white space. *)
Fixpoint drop_while {char : Type} (p : char -> bool) (l : list char)
  : list char :=
  match l with
  | [] => []
  | c :: l' => if p c then drop_while p l' else l
  end.

(** [s.trimEnd()] and [s.trim()]. *)
Definition trimEnd {char : Type} (is_space : char -> bool) (l : list char)
  : list char :=
  rev (drop_while is_space (rev l)).

Definition trim {char : Type} (is_space : char -> bool) (l : list char)
  : list char :=
  trimEnd is_space (drop_while is_space l).

(** [s.replace(/\s+/g, ' ')]: every run of white space becomes one
    [space]; [in_run] says whether the previous unit was white space. *)
Fixpoint collapse_spaces {char : Type} (is_space : char -> bool) (space : char)
    (in_run : bool) (l : list char) : list char :=
  match l with
  | [] => []
  | c :: l' =>
      if is_space c then
        if in_run then collapse_spaces is_space space true l'
        else space :: collapse_spaces is_space space true l'
      else c :: collapse_spaces is_space space false l'
  end.

Definition normalize_spaces {char : Type} (is_space : char -> bool)
    (space : char) (text : list char) : list char :=
  trim is_space (collapse_spaces is_space space false text).

(** [raw.slice(0, mid).trimEnd() + ell]. *)
Definition ellipsized {char : Type} (is_space : char -> bool) (ell : char)
    (raw : list char) (mid : nat) : list char :=
  trimEnd is_space (firstn mid raw) ++ [ell].

(** The loop [while (lo <= hi)] of the binary search; [fits mid] is the
    test [h <= maxH] on the prefix of length [mid].  [None]: the loop
    did not end within [fuel] iterations. *)
Fixpoint prefix_search (fuel : nat) (fits : Z -> bool) (lo hi ans : Z)
  : option Z :=
  if (lo <=? hi)%Z then
    match fuel with
    | O => None
    | S fuel' =>
        let mid := Z.shiftr (lo + hi) 1 in
        if fits mid then prefix_search fuel' fits (mid + 1)%Z hi mid
        else prefix_search fuel' fits lo (mid - 1)%Z ans
    end
  else Some ans.

(** [maxH]: the height of three lines, from the tooltip's metrics. *)
Definition three_line_budget (css : css_env) : Q :=
  let lineH := getCSSVarNumber css "--timeline-tooltip-lh" 18 in
  let padY := getCSSVarNumber css "--timeline-tooltip-pad-y" 10 in
  let borderW := getCSSVarNumber css "--timeline-tooltip-border-w" 1 in
  js_round (3 * lineH + 2 * padY + 2 * borderW).

Record text_layout (char : Type) : Type := mkLayout {
  layout_text : list char;
  layout_height : Q
}.
Arguments mkLayout {char} _ _.
Arguments layout_text {char} _.
Arguments layout_height {char} _.

(** [truncateToThreeLines(text, targetWidth, true)], with the measuring
    element present; [offsetHeight t] is the height that element takes
    with the text [t] at the target width. *)
Definition truncateToThreeLines {char : Type}
    (is_space : char -> bool) (space ell : char)
    (offsetHeight : list char -> Q) (css : css_env) (text : list char)
  : option (text_layout char) :=
  let maxH := three_line_budget css in
  let raw := normalize_spaces is_space space text in
  let h := offsetHeight raw in
  if Qle_bool h maxH then Some (mkLayout raw h)
  else
    let len := Z.of_nat (length raw) in
    let fits mid :=
      Qle_bool (offsetHeight (ellipsized is_space ell raw (Z.to_nat mid))) maxH in
    match prefix_search (S (length raw)) fits 0%Z len 0%Z with
    | None => None
    | Some ans =>
        let out :=
          if (len <=? ans)%Z then raw
          else ellipsized is_space ell raw (Z.to_nat ans) in
        Some (mkLayout out (Qmin (offsetHeight out) maxH))
    end.

(** ** Binary searches over the pixel positions *)

(** The loops of [lowerBound(arr, x)] and [upperBound(arr, x)];
    [below v] is the test [arr[mid] < x], resp. [arr[mid] <= x]. *)
Fixpoint bound_search (fuel : nat) (below : Q -> bool) (arr : list Q)
    (lo hi : nat) : option nat :=
  if (lo <? hi)%nat then
    match fuel with
    | O => None
    | S fuel' =>
        let mid := Nat.shiftr (lo + hi) 1 in
        if below (nth mid arr 0) then bound_search fuel' below arr (S mid) hi
        else bound_search fuel' below arr lo mid
    end
  else Some lo.

Definition lowerBound (arr : list Q) (x : Q) : option nat :=
  bound_search (length arr) (fun v => Qlt_bool v x) arr 0 (length arr).

Definition upperBound (arr : list Q) (x : Q) : option Z :=
  match bound_search (length arr) (fun v => Qle_bool v x) arr 0 (length arr) with
  | Some lo => Some (Z.of_nat lo - 1)%Z
  | None => None
  end.

(** ** Smooth scrolling *)

(** [easeInOutQuad(t, b, c, d)]; [None] stands for the non-finite result
    of a zero duration. *)
Definition easeInOutQuad (t b c d : Q) : option Q :=
  if Qeq_bool d 0 then None
  else
    let t1 := t / (d / 2) in
    if Qlt_le_dec t1 1 then Some (c / 2 * t1 * t1 + b)
    else
      let t2 := t1 - 1 in
      Some (- c / 2 * (t2 * (t2 - 2) - 1) + b).

(** One frame of the animation of [smoothScrollTo], [timeElapsed] after
    its first frame: the [scrollTop] it leaves and whether another frame
    is requested. *)
Definition animation_frame (startPosition targetPosition duration timeElapsed : Q)
  : option Q * bool :=
  let distance := targetPosition - startPosition in
  let run := easeInOutQuad timeElapsed startPosition distance duration in
  if Qlt_le_dec timeElapsed duration then (run, true)
  else (Some targetPosition, false).

(** ** Table of contents: text preview *)

(** [text.substring(0, k)]: a negative [k] counts as 0. *)
Definition substring0 {char : Type} (text : list char) (k : Z) : list char :=
  firstn (Z.to_nat k) text.

(** [truncateText(text, maxLength)]; [dot] is the full stop. *)
Definition truncateText {char : Type} (dot : char) (text : list char)
    (maxLength : Z) : list char :=
  if (Z.of_nat (length text) <=? maxLength)%Z then text
  else substring0 text (maxLength - 3) ++ [dot; dot; dot].

(** ** Dragging the bar and the table of contents *)

(** The bounce: beyond a boundary only [factor] of the overflow is kept. *)
Definition bounce (factor margin maxV v : Q) : Q :=
  if Qlt_le_dec v margin then margin - (margin - v) * factor
  else if Qlt_le_dec maxV v then maxV + (v - maxV) * factor
  else v.

Definition near_boundary (margin maxX maxY newX newY : Q) : bool :=
  Qlt_bool newX (margin + 20) || Qlt_bool (maxX - 20) newX
  || Qlt_bool newY (margin + 20) || Qlt_bool (maxY - 20) newY.

(** [startDrag(e)]: the [barStartX] and [barStartY] it records from the
    bar's rectangle. *)
Definition startDrag (r : rect) : Q * Q := (rect_right r, rect_top r).

(** [updateDrag(e)] during a drag: [barStartX], [barStartY] are the
    [rect.right] and [rect.top] taken by [startDrag], [deltaX], [deltaY]
    the pointer's movement since; the result is the bar's style and the
    [near-boundary] class. *)
Definition updateDrag
    (barStartX barStartY deltaX deltaY : Q) (barWidth barHeight : Q)
    (windowWidth windowHeight : Q) : bar_style * bool :=
  let margin := drag_margin in
  let maxX := windowWidth - barWidth - margin in
  let maxY := windowHeight - barHeight - margin in
  let newX := bounce (3 # 10) margin maxX (barStartX + deltaX) in
  let newY := bounce (3 # 10) margin maxY (barStartY + deltaY) in
  let constrainedX := Qmax margin (Qmin newX maxX) in
  (mkStyle (windowWidth - constrainedX - barWidth)
           (Qmax margin (Qmin newY maxY)),
   near_boundary margin maxX maxY newX newY).

(** The left and top offsets of the table of contents. *)
Record toc_style : Type := mkTocStyle {
  toc_left : Q;
  toc_top : Q
}.

(** [updateTOCDrag(e)] during a drag of the table of contents. *)
Definition updateTOCDrag
    (tocStartX tocStartY deltaX deltaY : Q) (containerWidth containerHeight : Q)
    (windowWidth windowHeight : Q) : toc_style * bool :=
  let margin := drag_margin in
  let maxX := windowWidth - containerWidth - margin in
  let maxY := windowHeight - containerHeight - margin in
  let bounceFactor := 4 # 10 in
  let newX := bounce bounceFactor margin maxX (tocStartX + deltaX) in
  let newY := bounce bounceFactor margin maxY (tocStartY + deltaY) in
  (mkTocStyle newX newY, near_boundary margin maxX maxY newX newY).

(** The stored position of the table of contents. *)
Record SavedTOCPosition : Type := mkSavedTOC {
  toc_saved_left : Q;
  toc_saved_top : Q;
  toc_saved_width : Q;
  toc_saved_height : Q;
  toc_saved_windowWidth : Q;
  toc_saved_windowHeight : Q
}.

(** [saveTOCPosition()], for the container's rectangle and a window of
    positive size. *)
Definition saveTOCPosition (r : rect) (windowWidth windowHeight : Q)
  : SavedTOCPosition :=
  mkSavedTOC ((rect_left r / windowWidth) * 100)
             ((rect_top r / windowHeight) * 100)
             ((rect_width r / windowWidth) * 100)
             ((rect_height r / windowHeight) * 100)
             windowWidth windowHeight.

(** [restoreTOCPosition()]: with nothing stored nothing happens;
    otherwise the offsets written and the value stored back. *)
Definition restoreTOCPosition
    (stored : option SavedTOCPosition)
    (currentWindowWidth currentWindowHeight : Q)
  : option (toc_style * SavedTOCPosition) :=
  match stored with
  | None => None
  | Some position =>
      let left := (toc_saved_left position / 100) * currentWindowWidth in
      let top := (toc_saved_top position / 100) * currentWindowHeight in
      let width := (toc_saved_width position / 100) * currentWindowWidth in
      let height := (toc_saved_height position / 100) * currentWindowHeight in
      let maxLeft := currentWindowWidth - width - drag_margin in
      let maxTop := currentWindowHeight - height - drag_margin in
      let left := Qmax drag_margin (Qmin left maxLeft) in
      let top := Qmax drag_margin (Qmin top maxTop) in
      Some (mkTocStyle left top,
            mkSavedTOC (toc_saved_left position) (toc_saved_top position)
                       (toc_saved_width position) (toc_saved_height position)
                       currentWindowWidth currentWindowHeight)
  end.

(** ** Sites and turn ids *)

Inductive site : Type := ChatGPT | Gemini | UnknownSite.

(** [host.endsWith(suffix)]. *)
Definition ends_with (host suffix : string) : bool :=
  let n := String.length host in
  let m := String.length suffix in
  (m <=? n)%nat && String.eqb (substring (n - m) m host) suffix.

(** [host === match || host.endsWith(`.${match}`)]. *)
Definition host_matches (host pattern : string) : bool :=
  String.eqb host pattern || ends_with host (String.append "." pattern).

(** [hostMatches] and [pathPrefixes] of [SITE_CONFIGS]. *)
Definition hostMatches (s : site) : list string :=
  match s with
  | ChatGPT => ["chatgpt.com"; "chat.openai.com"]%string
  | Gemini => ["gemini.google.com"]%string
  | UnknownSite => []
  end.

Definition pathPrefixes (s : site) : list string :=
  match s with
  | ChatGPT => ["/c/"; "/g/"]%string
  | Gemini => ["/app/"; "/app"]%string
  | UnknownSite => []
  end.

(** [getSiteType(hostname)]: the first configured site that matches. *)
Definition getSiteType (hostname : string) : site :=
  if existsb (host_matches hostname) (hostMatches ChatGPT) then ChatGPT
  else if existsb (host_matches hostname) (hostMatches Gemini) then Gemini
  else UnknownSite.

(** [isTimelineSupportedPath(pathname, hostname)]. *)
Definition isTimelineSupportedPath (pathname hostname : string) : bool :=
  match getSiteType hostname with
  | UnknownSite => false
  | s => existsb (fun p => String.prefix p pathname) (pathPrefixes s)
  end.

(** [getTurnId(turnElement, index)] for an element that is present:
    [turnId] is [dataset.turnId] ([None] when the attribute is missing),
    [elementId] the element's [id] and [containerId] the [id] of the
    conversation container around it ([None] when there is none). *)
Definition or_string (a : option string) (b : string) : string :=
  match a with
  | Some s => if String.eqb s EmptyString then b else s
  | None => b
  end.

Definition decimal (n : nat) : string :=
  DecimalString.NilZero.string_of_uint (Nat.to_uint n).

Definition getTurnId (s : site) (turnId containerId : option string)
    (elementId : string) (index : nat) : string :=
  match s with
  | Gemini =>
      or_string containerId
        (or_string (Some elementId) (String.append "gemini-turn-" (decimal index)))
  | _ =>
      or_string turnId
        (or_string (Some elementId) (String.append "turn-" (decimal index)))
  end.

(** ** Debounced calls *)

(** [debounce(func, delay)] of the class, for calls with arguments of
    type [A]: [deb_timeout] is the closure's [timeout], [deb_timers] the
    browser's scheduled callbacks with the arguments they will pass, and
    [deb_calls] the calls of [func] so far. *)
Record debounced (A : Type) : Type := mkDebounced {
  deb_timeout : option nat;
  deb_timers : list (nat * A);
  deb_next : nat;
  deb_calls : list A
}.
Arguments mkDebounced {A} _ _ _ _.
Arguments deb_timeout {A} _.
Arguments deb_timers {A} _.
Arguments deb_next {A} _.
Arguments deb_calls {A} _.

Definition debounce_new {A : Type} : debounced A := mkDebounced None [] 1 [].

(** [clearTimeout(h)]; clearing no handle, or one that has run, does
    nothing. *)
Definition clear_timeout {A : Type} (h : option nat) (ts : list (nat * A))
  : list (nat * A) :=
  match h with
  | Some h => filter (fun t => negb (Nat.eqb (fst t) h)) ts
  | None => ts
  end.

(** [debouncedFn(...args)]. *)
Definition debounce_call {A : Type} (args : A) (d : debounced A) : debounced A :=
  mkDebounced (Some (deb_next d))
              ((deb_next d, args) :: clear_timeout (deb_timeout d) (deb_timers d))
              (S (deb_next d)) (deb_calls d).

(** [debouncedFn.cancel()]. *)
Definition debounce_cancel {A : Type} (d : debounced A) : debounced A :=
  mkDebounced None (clear_timeout (deb_timeout d) (deb_timers d))
              (deb_next d) (deb_calls d).

(** The browser runs the scheduled callback [h], if it is scheduled. *)
Definition debounce_fire {A : Type} (h : nat) (d : debounced A) : debounced A :=
  match find (fun t => Nat.eqb (fst t) h) (deb_timers d) with
  | Some (_, args) =>
      mkDebounced (deb_timeout d)
                  (filter (fun t => negb (Nat.eqb (fst t) h)) (deb_timers d))
                  (deb_next d) (deb_calls d ++ [args])
  | None => d
  end.

Inductive debounce_event (A : Type) : Type :=
| DebCall (args : A)
| DebCancel
| DebFire (h : nat).
Arguments DebCall {A} _.
Arguments DebCancel {A}.
Arguments DebFire {A} _.

Definition debounce_step {A : Type} (d : debounced A) (e : debounce_event A)
  : debounced A :=
  match e with
  | DebCall args => debounce_call args d
  | DebCancel => debounce_cancel d
  | DebFire h => debounce_fire h d
  end.

Definition debounce_run {A : Type} (es : list (debounce_event A)) : debounced A :=
  fold_left debounce_step es debounce_new.

(** At most one callback is scheduled, and [timeout] holds its handle. *)
Definition one_pending {A : Type} (d : debounced A) : Prop :=
  deb_timers d = [] \/
  exists h a, deb_timers d = [(h, a)] /\ deb_timeout d = Some h.

(** ** Throttled calls *)

(** [throttle(func, limit)]: [thr_inThrottle] is the closure's flag,
    [thr_pending] the number of scheduled callbacks that reset it, and
    [thr_calls] the calls of [func] so far. *)
Record throttled (A : Type) : Type := mkThrottled {
  thr_inThrottle : bool;
  thr_pending : nat;
  thr_calls : list A
}.
Arguments mkThrottled {A} _ _ _.
Arguments thr_inThrottle {A} _.
Arguments thr_pending {A} _.
Arguments thr_calls {A} _.

Definition throttle_new {A : Type} : throttled A := mkThrottled false 0 [].

(** A call of the throttled function. *)
Definition throttle_call {A : Type} (args : A) (t : throttled A) : throttled A :=
  if thr_inThrottle t then t
  else mkThrottled true (S (thr_pending t)) (thr_calls t ++ [args]).

(** The browser runs a scheduled reset, if there is one. *)
Definition throttle_reset {A : Type} (t : throttled A) : throttled A :=
  match thr_pending t with
  | O => t
  | S n => mkThrottled false n (thr_calls t)
  end.

Inductive throttle_event (A : Type) : Type :=
| ThrCall (args : A)
| ThrTimer.
Arguments ThrCall {A} _.
Arguments ThrTimer {A}.

Definition throttle_step {A : Type} (t : throttled A) (e : throttle_event A)
  : throttled A :=
  match e with
  | ThrCall args => throttle_call args t
  | ThrTimer => throttle_reset t
  end.

Definition throttle_run {A : Type} (es : list (throttle_event A)) : throttled A :=
  fold_left throttle_step es throttle_new.

(** The number of timer events of a history. *)
Definition throttle_windows {A : Type} (es : list (throttle_event A)) : nat :=
  length (filter (fun e => match e with ThrTimer => true | _ => false end) es).

(* ================================================================== *)
(** * Properties *)

(** ** Arithmetic helpers *)

Ltac name_minmax :=
  repeat match goal with
  | |- context [Qmax ?a ?b] =>
      let q := fresh "q" in
      pose proof (Q.max_spec a b); set (q := Qmax a b) in *; clearbody q
  | |- context [Qmin ?a ?b] =>
      let q := fresh "q" in
      pose proof (Q.min_spec a b); set (q := Qmin a b) in *; clearbody q
  | _ : context [Qmax ?a ?b] |- _ =>
      let q := fresh "q" in
      pose proof (Q.max_spec a b); set (q := Qmax a b) in *; clearbody q
  | _ : context [Qmin ?a ?b] |- _ =>
      let q := fresh "q" in
      pose proof (Q.min_spec a b); set (q := Qmin a b) in *; clearbody q
  end.

Ltac split_minmax :=
  name_minmax;
  repeat match goal with
  | H : _ /\ _ \/ _ /\ _ |- _ => destruct H as [[? ?] | [? ?]]
  end.

Lemma of_nat_S (n : nat) : of_nat (S n) == of_nat n + 1.
Proof.
  unfold of_nat. rewrite Nat2Z.inj_succ, <- Z.add_1_r, inject_Z_plus.
  reflexivity.
Qed.

Lemma of_nat_nonneg (n : nat) : 0 <= of_nat n.
Proof.
  unfold of_nat. change 0 with (inject_Z 0). rewrite <- Zle_Qle. lia.
Qed.

Lemma of_nat_le (i j : nat) : (i <= j)%nat -> of_nat i <= of_nat j.
Proof.
  intros Hij. unfold of_nat. rewrite <- Zle_Qle. lia.
Qed.

(** ** applyMinGap: the passes *)

Lemma gapped_cons (g x y : Q) (l : list Q) :
  gapped g (x :: y :: l) <-> x + g <= y /\ gapped g (y :: l).
Proof. simpl. tauto. Qed.

Lemma gapped_weaken (g g' : Q) (l : list Q) :
  g' <= g -> gapped g l -> gapped g' l.
Proof.
  intros Hg. induction l as [|x [|y l] IH]; simpl; auto.
  intros [Hxy Hl]. split; [lra | exact (IH Hl)].
Qed.

Lemma forward_pass_length (rest : list Q) (prev g : Q) :
  length (forward_pass prev rest g) = length rest.
Proof.
  revert prev. induction rest as [|p rest IH]; intros prev; simpl; auto.
Qed.

Lemma forward_pass_gapped (rest : list Q) (prev g : Q) :
  gapped g (prev :: forward_pass prev rest g).
Proof.
  revert prev. induction rest as [|p rest IH]; intros prev.
  - exact I.
  - cbn [forward_pass]. apply gapped_cons. split.
    + split_minmax; lra.
    + apply IH.
Qed.

Lemma backward_pass_length (l : list Q) (hi g : Q) :
  length (backward_pass l hi g) = length l.
Proof.
  induction l as [|x [|y l] IH]; auto.
  change (S (length (backward_pass (y :: l) hi g)) = S (length (y :: l))).
  now rewrite IH.
Qed.

Lemma backward_pass_cons2 (x y : Q) (l : list Q) (hi g : Q) :
  backward_pass (x :: y :: l) hi g =
  Qmin x (hd 0 (backward_pass (y :: l) hi g) - g) :: backward_pass (y :: l) hi g.
Proof. reflexivity. Qed.

Lemma backward_pass_gapped (l : list Q) (hi g : Q) :
  gapped g (backward_pass l hi g).
Proof.
  induction l as [|x [|y l] IH]; try exact I.
  rewrite backward_pass_cons2.
  destruct (backward_pass (y :: l) hi g) as [|b bl] eqn:Eb.
  - exact I.
  - apply gapped_cons. split; [|exact IH].
    cbn [hd]. split_minmax; lra.
Qed.

Lemma backward_pass_last (l : list Q) (hi g d : Q) :
  l <> [] -> last (backward_pass l hi g) d = hi.
Proof.
  induction l as [|x [|y l] IH]; intros Hne.
  - contradiction.
  - reflexivity.
  - rewrite backward_pass_cons2.
    pose proof (backward_pass_length (y :: l) hi g) as Hlen.
    destruct (backward_pass (y :: l) hi g) as [|b bl] eqn:Eb; [discriminate|].
    change (last (b :: bl) d = hi). apply IH. discriminate.
Qed.

(** A gapped list with a non-negative gap lies between its first and
    its last entry. *)
Lemma gapped_lower (g lo x : Q) (l : list Q) :
  0 <= g -> lo <= x -> gapped g (x :: l) -> Forall (fun y => lo <= y) (x :: l).
Proof.
  intros Hg. revert x. induction l as [|y l IH]; intros x Hx Hgap.
  - constructor; [exact Hx | constructor].
  - apply gapped_cons in Hgap. destruct Hgap as [Hxy Hl].
    constructor; [exact Hx|]. apply IH; [lra | exact Hl].
Qed.

Lemma gapped_leaves_room (g hi d : Q) (l : list Q) :
  l <> [] -> gapped g l -> last l d <= hi -> leaves_room g hi l.
Proof.
  induction l as [|x [|y l] IH]; intros Hne Hgap Hlast.
  - contradiction.
  - split; [|exact I]. change (x + g * 0 <= hi). simpl in Hlast. lra.
  - apply gapped_cons in Hgap. destruct Hgap as [Hxy Hl].
    assert (Hr : leaves_room g hi (y :: l)).
    { apply IH; [discriminate | exact Hl | exact Hlast]. }
    split; [|exact Hr].
    destruct Hr as [Hy _].
    change (length (y :: l)) with (S (length l)). rewrite of_nat_S. lra.
Qed.

Lemma leaves_room_upper (g hi : Q) (l : list Q) :
  0 <= g -> leaves_room g hi l -> Forall (fun y => y <= hi) l.
Proof.
  intros Hg. induction l as [|x l IH]; intros Hr; constructor.
  - destruct Hr as [Hx _].
    pose proof (Qmult_le_0_compat _ _ Hg (of_nat_nonneg (length l))). lra.
  - apply IH. apply Hr.
Qed.

(** The second forward pass keeps the room the backward pass made,
    provided its starting point leaves room itself. *)
Lemma forward_pass_leaves_room (g hi : Q) (rest : list Q) (prev : Q) :
  prev + g * of_nat (length rest) <= hi ->
  leaves_room g hi rest ->
  leaves_room g hi (prev :: forward_pass prev rest g).
Proof.
  revert prev. induction rest as [|p rest IH]; intros prev Hprev Hr.
  - simpl in *. tauto.
  - split.
    + change (length (forward_pass prev (p :: rest) g))
        with (S (length (forward_pass (Qmax p (prev + g)) rest g))).
      rewrite forward_pass_length. exact Hprev.
    + cbn [forward_pass]. destruct Hr as [Hp Hr]. apply IH; [|exact Hr].
      change (length (p :: rest)) with (S (length rest)) in Hprev.
      rewrite of_nat_S in Hprev.
      split_minmax; lra.
Qed.

(** ** applyMinGap: the final clamp *)

Lemma final_clamp_within (lo hi x : Q) :
  lo <= hi -> lo <= final_clamp lo hi x <= hi.
Proof.
  intros Hb. unfold final_clamp.
  destruct (Qlt_le_dec x lo); destruct (Qlt_le_dec hi _); lra.
Qed.

Lemma final_clamp_mono (lo hi x y : Q) :
  lo <= hi -> x <= y -> final_clamp lo hi x <= final_clamp lo hi y.
Proof.
  intros Hb Hxy. unfold final_clamp.
  destruct (Qlt_le_dec x lo); destruct (Qlt_le_dec y lo);
    repeat match goal with |- context [Qlt_le_dec ?a ?b] =>
             destruct (Qlt_le_dec a b) end; lra.
Qed.

Lemma final_clamp_id (lo hi x : Q) :
  lo <= x <= hi -> final_clamp lo hi x = x.
Proof.
  intros [Hl Hh]. unfold final_clamp.
  destruct (Qlt_le_dec x lo); [lra|].
  destruct (Qlt_le_dec hi x) as [Hlt|]; [lra | reflexivity].
Qed.

Lemma map_final_clamp_id (lo hi : Q) (l : list Q) :
  within lo hi l -> map (final_clamp lo hi) l = l.
Proof.
  induction 1 as [|x l Hx _ IH]; simpl; [reflexivity|].
  now rewrite final_clamp_id, IH.
Qed.

Lemma map_final_clamp_within (lo hi : Q) (l : list Q) :
  lo <= hi -> within lo hi (map (final_clamp lo hi) l).
Proof.
  intros Hb. induction l as [|x l IH]; constructor; auto.
  now apply final_clamp_within.
Qed.

Lemma map_final_clamp_sorted (lo hi : Q) (l : list Q) :
  lo <= hi -> gapped 0 l -> gapped 0 (map (final_clamp lo hi) l).
Proof.
  intros Hb. induction l as [|x [|y l] IH]; intros Hgap; try exact I.
  apply gapped_cons in Hgap. destruct Hgap as [Hxy Hl].
  change (gapped 0 (final_clamp lo hi x :: final_clamp lo hi y
                      :: map (final_clamp lo hi) l)).
  apply gapped_cons. split; [|exact (IH Hl)].
  pose proof (final_clamp_mono lo hi x y Hb). lra.
Qed.

Lemma within_both (lo hi : Q) (l : list Q) :
  Forall (fun y => lo <= y) l -> Forall (fun y => y <= hi) l -> within lo hi l.
Proof.
  intros Hl Hh. unfold within. rewrite Forall_forall in *.
  intros y Hy. split; auto.
Qed.

(** Reading [gapped] and [within] by index. *)
Lemma gapped_nth (g : Q) (l : list Q) (i : nat) :
  gapped g l -> (S i < length l)%nat -> nth i l 0 + g <= nth (S i) l 0.
Proof.
  revert i. induction l as [|x [|y l] IH]; intros i Hgap Hi.
  - simpl in Hi; lia.
  - simpl in Hi; lia.
  - apply gapped_cons in Hgap. destruct Hgap as [Hxy Hl].
    destruct i as [|i]; [exact Hxy|].
    change (nth i (y :: l) 0 + g <= nth (S i) (y :: l) 0).
    apply IH; [exact Hl | simpl in *; lia].
Qed.

Lemma within_nth (lo hi : Q) (l : list Q) (i : nat) :
  within lo hi l -> (i < length l)%nat -> lo <= nth i l 0 <= hi.
Proof.
  intros Hw Hi. unfold within in Hw. rewrite Forall_forall in Hw.
  apply Hw. now apply nth_In.
Qed.

(** ** applyMinGap: the whole function *)

Lemma applyMinGap_length (positions : list Q) (lo hi g : Q) :
  length (applyMinGap positions lo hi g) = length positions.
Proof.
  destruct positions as [|p0 rest]; [reflexivity|].
  unfold applyMinGap. rewrite length_map.
  destruct (Qlt_le_dec hi _) as [Hover|Hfit].
  - pose proof (backward_pass_length
                  (Qmax lo (Qmin p0 hi)
                     :: forward_pass (Qmax lo (Qmin p0 hi)) rest g) hi g) as Hb.
    destruct (Qlt_le_dec _ lo) as [Hlow|Hok].
    + destruct (backward_pass _ hi g) as [|b bl]; [discriminate|].
      cbn [tl length] in *. rewrite forward_pass_length.
      rewrite forward_pass_length in Hb. exact Hb.
    + rewrite Hb. cbn [length]. now rewrite forward_pass_length.
  - cbn [length]. now rewrite forward_pass_length.
Qed.

(** Whatever the input, the list handed to the final clamp is gapped. *)
Lemma applyMinGap_sorted (positions : list Q) (lo hi g : Q) :
  0 <= g -> lo <= hi -> gapped 0 (applyMinGap positions lo hi g).
Proof.
  intros Hg Hb. destruct positions as [|p0 rest]; [exact I|].
  unfold applyMinGap. apply map_final_clamp_sorted; [exact Hb|].
  apply gapped_weaken with (g := g); [exact Hg|].
  destruct (Qlt_le_dec hi _) as [Hover|Hfit].
  - destruct (Qlt_le_dec _ lo) as [Hlow|Hok].
    + apply forward_pass_gapped.
    + apply backward_pass_gapped.
  - apply forward_pass_gapped.
Qed.

Lemma applyMinGap_within (positions : list Q) (lo hi g : Q) :
  lo <= hi -> within lo hi (applyMinGap positions lo hi g).
Proof.
  intros Hb. destruct positions as [|p0 rest]; [constructor|].
  unfold applyMinGap. now apply map_final_clamp_within.
Qed.

(** When the gap is feasible the final clamp changes nothing, so the
    full gap survives. *)
Lemma applyMinGap_feasible (positions : list Q) (lo hi g : Q) :
  0 <= g -> lo <= hi ->
  g * (of_nat (length positions) - 1) <= hi - lo ->
  gapped g (applyMinGap positions lo hi g).
Proof.
  intros Hg Hb Hfeas. destruct positions as [|p0 rest]; [exact I|].
  unfold applyMinGap.
  set (out0 := Qmax lo (Qmin p0 hi)).
  assert (Hout0 : lo <= out0 <= hi) by (unfold out0; split_minmax; lra).
  pose proof (forward_pass_gapped rest out0 g) as Hfw.
  destruct (Qlt_le_dec hi (last (out0 :: forward_pass out0 rest g) 0))
    as [Hover|Hfit].
  - pose proof (backward_pass_gapped (out0 :: forward_pass out0 rest g) hi g)
      as Hbw.
    pose proof (backward_pass_last (out0 :: forward_pass out0 rest g) hi g 0)
      as Hlast.
    pose proof (backward_pass_length (out0 :: forward_pass out0 rest g) hi g)
      as Hlen.
    destruct (backward_pass (out0 :: forward_pass out0 rest g) hi g)
      as [|b bl] eqn:Eb; [discriminate|].
    assert (Hroom : leaves_room g hi (b :: bl)).
    { apply gapped_leaves_room with (d := 0); [discriminate | exact Hbw|].
      rewrite Hlast; [lra | discriminate]. }
    cbn [hd tl]. destruct (Qlt_le_dec b lo) as [Hlow|Hok].
    + rewrite map_final_clamp_id; [apply forward_pass_gapped|].
      assert (Hroom' : leaves_room g hi (lo :: forward_pass lo bl g)).
      { apply forward_pass_leaves_room; [|apply Hroom].
        cbn [length] in Hlen, Hfeas. rewrite forward_pass_length in Hlen.
        injection Hlen as Hlen. rewrite Hlen.
        rewrite of_nat_S in Hfeas. lra. }
      apply within_both.
      * apply gapped_lower with (g := g); [exact Hg | lra|].
        apply forward_pass_gapped.
      * apply leaves_room_upper with (g := g); assumption.
    + rewrite map_final_clamp_id; [exact Hbw|].
      apply within_both.
      * apply gapped_lower with (g := g); assumption.
      * apply leaves_room_upper with (g := g); assumption.
  - rewrite map_final_clamp_id; [exact Hfw|].
    apply within_both.
    + apply gapped_lower with (g := g); [exact Hg | apply Hout0 | exact Hfw].
    + apply leaves_room_upper with (g := g); [exact Hg|].
      apply gapped_leaves_room with (d := 0);
        [discriminate | exact Hfw | exact Hfit].
Qed.

(** C10.  For every list of desired positions, sorted or not, every gap
    [g >= 0] and all bounds [minTop <= maxTop], feasible or not,
    [applyMinGap] returns a list of the same length whose entries do not
    decrease along the index and all lie within [[minTop, maxTop]]. *)
Theorem C10_applyMinGap_sorted_in_bounds
    (positions : list Q) (minTop maxTop g : Q) :
  0 <= g -> minTop <= maxTop ->
  length (applyMinGap positions minTop maxTop g) = length positions /\
  (forall i, (S i < length positions)%nat ->
     nth i (applyMinGap positions minTop maxTop g) 0
       <= nth (S i) (applyMinGap positions minTop maxTop g) 0) /\
  (forall i, (i < length positions)%nat ->
     minTop <= nth i (applyMinGap positions minTop maxTop g) 0 <= maxTop).
Proof.
  intros Hg Hb. pose proof (applyMinGap_length positions minTop maxTop g) as Hlen.
  split; [exact Hlen|]. split; intros i Hi.
  - pose proof (gapped_nth 0 (applyMinGap positions minTop maxTop g) i
                  (applyMinGap_sorted positions minTop maxTop g Hg Hb)) as Hn.
    rewrite Hlen in Hn. specialize (Hn Hi). lra.
  - apply within_nth; [now apply applyMinGap_within | now rewrite Hlen].
Qed.

Lemma C10_applyMinGap_sorted_in_bounds_witness :
  0 <= 60 /\ 12 <= 100 /\
  length (applyMinGap [50; 10; 300; 20] 12 100 60) = 4%nat /\
  (forall i, (S i < 4)%nat ->
     nth i (applyMinGap [50; 10; 300; 20] 12 100 60) 0
       <= nth (S i) (applyMinGap [50; 10; 300; 20] 12 100 60) 0) /\
  (forall i, (i < 4)%nat ->
     12 <= nth i (applyMinGap [50; 10; 300; 20] 12 100 60) 0 <= 100).
Proof.
  split; [vm_compute; discriminate|].
  split; [vm_compute; discriminate|].
  apply (C10_applyMinGap_sorted_in_bounds [50; 10; 300; 20] 12 100 60);
    vm_compute; discriminate.
Defined.

(** ** getEffectiveMinGap *)

Lemma effective_gap_denominator_ge_1 (count : nat) :
  1 <= effective_gap_denominator count.
Proof. unfold effective_gap_denominator. split_minmax; lra. Qed.

Lemma getEffectiveMinGap_nonneg (raw usable : Q) (count : nat) :
  0 <= getEffectiveMinGap raw usable count.
Proof.
  unfold getEffectiveMinGap.
  destruct (count <=? 1)%nat; [lra|].
  destruct (Qlt_le_dec 0 usable); split_minmax; lra.
Qed.

(** Three markers on a usable height of 10 with a raw gap of 12: the
    effective gap is 5. *)
Example getEffectiveMinGap_example : getEffectiveMinGap 12 10 3 == 5.
Proof. vm_compute. reflexivity. Qed.

(** On a positive usable height the effective gap never exceeds
    [usable / (count - 1)] and is therefore feasible. *)
Lemma getEffectiveMinGap_feasible (raw usable : Q) (count : nat) :
  0 < usable ->
  getEffectiveMinGap raw usable count * (of_nat count - 1) <= usable.
Proof.
  intros Hu. unfold getEffectiveMinGap.
  destruct (count <=? 1)%nat eqn:Hc; [lra|].
  apply Nat.leb_gt in Hc.
  destruct (Qlt_le_dec 0 usable) as [_|]; [|lra].
  assert (Hn : 1 <= of_nat count - 1).
  { pose proof (of_nat_le 2 count Hc) as H2. change (of_nat 2) with 2 in H2. lra. }
  unfold effective_gap_denominator.
  set (d := of_nat count - 1) in *.
  assert (Hd : Qmax 1 d == d) by (split_minmax; lra).
  rewrite Hd.
  assert (Hq : (usable / d) * d == usable) by (field; lra).
  set (m := usable / d) in *. clearbody m.
  split_minmax; nra.
Qed.

Lemma getEffectiveMinGap_capped (raw usable : Q) (count : nat) :
  0 < usable -> usable < raw * (of_nat count - 1) -> 0 <= raw ->
  getEffectiveMinGap raw usable count == usable / (of_nat count - 1).
Proof.
  intros Hu Hover Hraw. unfold getEffectiveMinGap.
  destruct (count <=? 1)%nat eqn:Hc.
  - apply Nat.leb_le in Hc. pose proof (of_nat_le count 1 Hc) as H1.
    change (of_nat 1) with 1 in H1. nra.
  - apply Nat.leb_gt in Hc.
    destruct (Qlt_le_dec 0 usable) as [_|]; [|lra].
    assert (Hn : 1 <= of_nat count - 1).
    { pose proof (of_nat_le 2 count Hc) as H2. change (of_nat 2) with 2 in H2. lra. }
    unfold effective_gap_denominator.
    set (d := of_nat count - 1) in *.
    assert (Hd : Qmax 1 d == d) by (split_minmax; lra).
    rewrite Hd.
    assert (Hq : (usable / d) * d == usable) by (field; lra).
    set (m := usable / d) in *. clearbody m.
    split_minmax; nra.
Qed.

(** C1 (amended).  For every list of desired positions of length [N],
    every gap [g >= 0] and all bounds [minTop <= maxTop], with
    [usable = maxTop - minTop]:
    - if [g * (N - 1) <= usable], adjacent entries of [applyMinGap]'s
      output are at least [g] apart and every entry lies within
      [[minTop, maxTop]];
    - if [g * (N - 1) > usable] and [usable > 0], [getEffectiveMinGap]
      returns exactly [usable / (N - 1)], and run with that gap the
      output keeps it between adjacent entries;
    - whatever the case (also on [usable = 0], where [getEffectiveMinGap]
      hands the raw gap through), the output computed with the
      effective gap lies within [[minTop, maxTop]]. *)
Theorem C1_min_gap_feasible_or_capped
    (positions : list Q) (minTop maxTop g : Q) :
  0 <= g -> minTop <= maxTop ->
  (g * (of_nat (length positions) - 1) <= maxTop - minTop ->
   (forall i, (S i < length positions)%nat ->
      nth i (applyMinGap positions minTop maxTop g) 0 + g
        <= nth (S i) (applyMinGap positions minTop maxTop g) 0) /\
   (forall i, (i < length positions)%nat ->
      minTop <= nth i (applyMinGap positions minTop maxTop g) 0 <= maxTop)) /\
  (maxTop - minTop < g * (of_nat (length positions) - 1) ->
   0 < maxTop - minTop ->
   getEffectiveMinGap g (maxTop - minTop) (length positions)
     == (maxTop - minTop) / (of_nat (length positions) - 1) /\
   (forall i, (S i < length positions)%nat ->
      nth i (applyMinGap positions minTop maxTop
               (getEffectiveMinGap g (maxTop - minTop) (length positions))) 0
        + getEffectiveMinGap g (maxTop - minTop) (length positions)
        <= nth (S i) (applyMinGap positions minTop maxTop
               (getEffectiveMinGap g (maxTop - minTop) (length positions))) 0)) /\
  (forall i, (i < length positions)%nat ->
     minTop
       <= nth i (applyMinGap positions minTop maxTop
                   (getEffectiveMinGap g (maxTop - minTop) (length positions))) 0
       <= maxTop).
Proof.
  intros Hg Hb. split; [|split].
  - intros Hfeas.
    pose proof (applyMinGap_length positions minTop maxTop g) as Hlen.
    split; intros i Hi.
    + apply gapped_nth; [now apply applyMinGap_feasible | now rewrite Hlen].
    + apply within_nth; [now apply applyMinGap_within | now rewrite Hlen].
  - intros Hover Hpos. split.
    + now apply getEffectiveMinGap_capped.
    + intros i Hi. apply gapped_nth.
      * apply applyMinGap_feasible;
          [apply getEffectiveMinGap_nonneg | exact Hb|].
        pose proof (getEffectiveMinGap_feasible g (maxTop - minTop)
                      (length positions) Hpos). lra.
      * now rewrite applyMinGap_length.
  - intros i Hi. apply within_nth;
      [now apply applyMinGap_within | now rewrite applyMinGap_length].
Qed.

Lemma C1_min_gap_feasible_or_capped_witness :
  0 <= 12 /\ 12 <= 22 /\
  22 - 12 < 12 * (of_nat (length [12; 17; 22]) - 1) /\ 0 < 22 - 12 /\
  getEffectiveMinGap 12 (22 - 12) (length [12; 17; 22])
    == (22 - 12) / (of_nat (length [12; 17; 22]) - 1).
Proof.
  split; [vm_compute; discriminate|].
  split; [vm_compute; discriminate|].
  split; [vm_compute; reflexivity|].
  split; [vm_compute; reflexivity|].
  apply (C1_min_gap_feasible_or_capped [12; 17; 22] 12 22 12);
    vm_compute; try discriminate; reflexivity.
Defined.

(** C1, as stated, fails on a bar without usable height: with
    [minTop = maxTop] (usable height 0), three markers and a raw gap of
    12 the gap is infeasible, yet [getEffectiveMinGap] returns 12 and not
    the cap [0 / (3 - 1) = 0]. *)
Lemma C1_gap_uncapped_without_usable_height :
  0 <= 12 /\ 12 <= 12 /\
  12 - 12 < 12 * (of_nat 3 - 1) /\
  ~ getEffectiveMinGap 12 (12 - 12) 3 <= (12 - 12) / (of_nat 3 - 1).
Proof.
  split; [vm_compute; discriminate|].
  split; [vm_compute; discriminate|].
  split; [vm_compute; reflexivity|].
  vm_compute. intros H. apply H. reflexivity.
Qed.

(** ** updateTimelineGeometry *)

Lemma nth_map_seq (f : nat -> Q) (N i : nat) :
  (i < N)%nat -> nth i (map f (seq 0 N)) 0 = f i.
Proof.
  intros Hi.
  rewrite (nth_indep _ 0 (f 0%nat)) by (now rewrite length_map, length_seq).
  rewrite map_nth, seq_nth by exact Hi. reflexivity.
Qed.

Lemma yPositions_many (N : nat) (barHeight pad : Q) :
  (2 <= N)%nat ->
  yPositions (updateTimelineGeometry N barHeight pad)
  = map (clampedTop N barHeight pad) (seq 0 N).
Proof.
  intros HN. destruct N as [|[|N]]; [lia | lia | reflexivity].
Qed.

(** On a bar with usable height the clamp of the even distribution is
    inactive: marker [i] sits at [pad + step * i]. *)
Lemma clampedTop_even (N : nat) (barHeight pad : Q) (i : nat) :
  (2 <= N)%nat -> 2 * pad < barHeight -> (i < N)%nat ->
  exists step,
    0 < step /\
    step * (of_nat N - 1) == barHeight - 2 * pad /\
    clampedTop N barHeight pad i == pad + step * of_nat i.
Proof.
  intros HN HH Hi. unfold clampedTop, usable_height.
  assert (Hu : Qmax 0 (barHeight - 2 * pad) == barHeight - 2 * pad)
    by (split_minmax; lra).
  assert (Hn : 1 <= of_nat N - 1).
  { pose proof (of_nat_le 2 N HN) as H2. change (of_nat 2) with 2 in H2. lra. }
  assert (Hd : Qmax 1 (of_nat N - 1) == of_nat N - 1) by (split_minmax; lra).
  assert (Hi' : of_nat i <= of_nat N - 1).
  { pose proof (of_nat_le (S i) N Hi) as H3. rewrite of_nat_S in H3. lra. }
  pose proof (of_nat_nonneg i) as Hi0.
  set (u := Qmax 0 (barHeight - 2 * pad)) in *.
  set (d := Qmax 1 (of_nat N - 1)) in *.
  assert (Hq : (u / d) * d == u) by (field; lra).
  assert (Hs : 0 < u / d).
  { apply Qlt_shift_div_l; lra. }
  exists (u / d). split; [exact Hs|]. split; [rewrite <- Hd; lra|].
  set (st := u / d) in *. clearbody st u d.
  set (k := of_nat i) in *. set (n1 := of_nat N - 1) in *. clearbody k n1.
  assert (0 <= st * k) by nra.
  assert (st * k <= u) by nra.
  split_minmax; lra.
Qed.

(** C2 (amended).  For every marker count [N >= 2] and every bar height
    [H] and padding [P] with [H > 2 * P], [updateTimelineGeometry]
    computes [N] positions that strictly increase along the index and
    all lie within [[P, H - P]]. *)
Theorem C2_positions_increasing_in_bounds (N : nat) (H P : Q) :
  (2 <= N)%nat -> 2 * P < H ->
  length (yPositions (updateTimelineGeometry N H P)) = N /\
  (forall i, (S i < N)%nat ->
     nth i (yPositions (updateTimelineGeometry N H P)) 0
       < nth (S i) (yPositions (updateTimelineGeometry N H P)) 0) /\
  (forall i, (i < N)%nat ->
     P <= nth i (yPositions (updateTimelineGeometry N H P)) 0 <= H - P).
Proof.
  intros HN HH. rewrite yPositions_many by exact HN.
  split; [now rewrite length_map, length_seq|]. split; intros i Hi.
  - rewrite !nth_map_seq by lia.
    destruct (clampedTop_even N H P i HN HH) as (s1 & Hs1 & Hd1 & E1); [lia|].
    destruct (clampedTop_even N H P (S i) HN HH) as (s2 & Hs2 & Hd2 & E2);
      [lia|].
    rewrite E1, E2, of_nat_S.
    assert (Hn : 1 <= of_nat N - 1).
    { pose proof (of_nat_le 2 N HN) as H2. change (of_nat 2) with 2 in H2. lra. }
    assert (s1 == s2) by nra.
    nra.
  - rewrite nth_map_seq by exact Hi.
    unfold clampedTop, usable_height. split_minmax; lra.
Qed.

Lemma C2_positions_increasing_in_bounds_witness :
  (2 <= 3)%nat /\ 2 * 12 < 200 /\
  length (yPositions (updateTimelineGeometry 3 200 12)) = 3%nat /\
  (forall i, (S i < 3)%nat ->
     nth i (yPositions (updateTimelineGeometry 3 200 12)) 0
       < nth (S i) (yPositions (updateTimelineGeometry 3 200 12)) 0) /\
  (forall i, (i < 3)%nat ->
     12 <= nth i (yPositions (updateTimelineGeometry 3 200 12)) 0 <= 200 - 12).
Proof.
  split; [lia|]. split; [vm_compute; reflexivity|].
  apply (C2_positions_increasing_in_bounds 3 200 12);
    [lia | vm_compute; reflexivity].
Defined.

(** C2, as stated, fails on a bar no higher than twice the padding: for
    two markers on a bar of height 0 with padding 12 both positions are
    12, so they do not increase, and they lie outside [[P, H - P]]. *)
Lemma C2_flat_bar_positions_coincide :
  (2 <= 2)%nat /\
  ~ (nth 0 (yPositions (updateTimelineGeometry 2 0 12)) 0
       < nth 1 (yPositions (updateTimelineGeometry 2 0 12)) 0) /\
  ~ (nth 0 (yPositions (updateTimelineGeometry 2 0 12)) 0 <= 0 - 12).
Proof.
  split; [lia|]. split; vm_compute; intros H.
  - discriminate H.
  - apply H. reflexivity.
Qed.

(** C3 (amended).  With exactly one marker, [updateTimelineGeometry]
    gives it the normalized position 0.5 and the pixel position in the
    middle of the usable range; for a bar height of 200 and a padding of
    12 that pixel position is 100. *)
Theorem C3_single_marker_centered (barHeight pad : Q) :
  marker_n (updateTimelineGeometry 1 barHeight pad) = [Num (1 # 2)] /\
  yPositions (updateTimelineGeometry 1 barHeight pad)
    = [pad + usable_height barHeight pad / 2] /\
  nth 0 (yPositions (updateTimelineGeometry 1 200 12)) 0 == 100.
Proof.
  split; [reflexivity|]. split; [reflexivity|]. vm_compute. reflexivity.
Qed.

(** C3, as stated, fails in its example: for one marker, a bar height of
    200 and a padding of 12 the computed pixel position is not 106. *)
Lemma C3_single_marker_not_at_106 :
  ~ nth 0 (yPositions (updateTimelineGeometry 1 200 12)) 0 == 106.
Proof.
  vm_compute. intros H. discriminate H.
Qed.

(** ** Denominators of the ratio computations *)

Lemma js_div_nonzero (a b : Q) : ~ b == 0 -> js_div a b = Num (a / b).
Proof.
  intros Hb. unfold js_div.
  destruct (Qeq_bool b 0) eqn:E; [|reflexivity].
  apply Qeq_bool_iff in E. contradiction.
Qed.

Lemma clamp01_finite (q : Q) :
  exists r, clamp01 (Num q) = Num r /\ 0 <= r <= 1.
Proof.
  exists (Qmax 0 (Qmin 1 q)). split; [reflexivity|]. split_minmax; lra.
Qed.

Lemma reapply_denominator_ge_1 (minTop maxTop : Q) :
  1 <= reapply_denominator minTop maxTop.
Proof. unfold reapply_denominator. split_minmax; lra. Qed.

Lemma scroll_span_ge_1 (contentSpanPx : Q) : 1 <= scroll_span contentSpanPx.
Proof. unfold scroll_span. split_minmax; lra. Qed.

(** The idle correction pass writes finite normalized positions in
    [[0, 1]], whatever the bar height and padding. *)
Lemma reapplyMinGapAfterResize_finite
    (css : css_env) (barHeight : Q) (cached : list Q) :
  Forall (fun x => exists r, x = Num r /\ 0 <= r <= 1)
         (reapplyMinGapAfterResize css barHeight cached).
Proof.
  unfold reapplyMinGapAfterResize. apply Forall_map.
  apply Forall_forall. intros top _.
  rewrite js_div_nonzero.
  - apply clamp01_finite.
  - pose proof (reapply_denominator_ge_1 (getTrackPadding css)
        (getTrackPadding css
         + Qmax 0 (barHeight - 2 * getTrackPadding css))). lra.
Qed.

(** So does the main-to-track scroll ratio. *)
Lemma scroll_ratio_finite
    (scrollTop clientHeight firstUserTurnOffset contentSpanPx : Q) :
  exists r,
    scroll_ratio scrollTop clientHeight firstUserTurnOffset contentSpanPx
      = Num r /\ 0 <= r <= 1.
Proof.
  unfold scroll_ratio. rewrite js_div_nonzero.
  - apply clamp01_finite.
  - pose proof (scroll_span_ge_1 contentSpanPx). lra.
Qed.

(** [updateTimelineGeometry] divides by the usable height itself: with a
    usable height it writes finite positions... *)
Lemma updateTimelineGeometry_finite (N : nat) (barHeight pad : Q) :
  2 * pad < barHeight ->
  Forall (fun x => exists r, x = Num r /\ 0 <= r <= 1)
         (marker_n (updateTimelineGeometry N barHeight pad)).
Proof.
  intros HH. destruct N as [|[|N]].
  - constructor.
  - constructor; [|constructor]. exists (1 # 2). split; [reflexivity | lra].
  - cbn [updateTimelineGeometry marker_n]. apply Forall_map.
    apply Forall_forall. intros c _. rewrite js_div_nonzero.
    + apply clamp01_finite.
    + unfold usable_height. split_minmax; lra.
Qed.

(** ... and without one, every position of two or more markers is the
    result of 0 / 0. *)
Lemma updateTimelineGeometry_flat_bar (N : nat) (barHeight pad : Q) :
  (2 <= N)%nat -> barHeight <= 2 * pad ->
  Forall (fun x => x = NaN) (marker_n (updateTimelineGeometry N barHeight pad)).
Proof.
  intros HN HH. destruct N as [|[|N]]; [lia | lia |].
  cbn [updateTimelineGeometry marker_n]. apply Forall_map.
  apply Forall_map. apply Forall_forall. intros i _.
  assert (Hu : usable_height barHeight pad == 0)
    by (unfold usable_height; split_minmax; lra).
  assert (Hc : clampedTop (S (S N)) barHeight pad i - pad == 0).
  { unfold clampedTop. revert Hu. generalize (usable_height barHeight pad).
    intros u Hu. split_minmax; lra. }
  unfold js_div.
  apply Qeq_bool_iff in Hu, Hc. now rewrite Hu, Hc.
Qed.

(** C8 (the code departs from it).  On a bar of height 0 with padding 12
    and two markers, the usable height is 0 and [updateTimelineGeometry]
    divides by it: both normalized positions are [NaN]. *)
Theorem C8_flat_bar_divides_by_zero :
  usable_height 0 12 == 0 /\
  marker_n (updateTimelineGeometry 2 0 12) = [NaN; NaN].
Proof.
  split; vm_compute; reflexivity.
Qed.

(** ** Active-marker selection *)

Lemma find_app_one {A : Type} (p : A -> bool) (l : list A) (x : A) :
  find p (l ++ [x]) =
  match find p l with
  | Some y => Some y
  | None => if p x then Some x else None
  end.
Proof.
  induction l as [|a l IH]; simpl; [reflexivity|].
  destruct (p a); [reflexivity | exact IH].
Qed.

Lemma find_none_all {A : Type} (p : A -> bool) (l : list A) :
  Forall (fun x => p x = false) l -> find p l = None.
Proof.
  induction 1 as [|a l Ha _ IH]; simpl; [reflexivity|]. now rewrite Ha.
Qed.

Lemma scrolled_past_true (ref : Q) (m : Marker) :
  scrolled_past ref m = true <-> marker_top m <= ref.
Proof. unfold scrolled_past. apply Qle_bool_iff. Qed.

Lemma scrolled_past_false (ref : Q) (m : Marker) :
  scrolled_past ref m = false <-> ref < marker_top m.
Proof.
  destruct (scrolled_past ref m) eqn:E.
  - apply scrolled_past_true in E. split; [discriminate | lra].
  - split; [intros _ | reflexivity].
    destruct (Qlt_le_dec ref (marker_top m)) as [Hlt|Hle]; [exact Hlt|].
    apply scrolled_past_true in Hle. congruence.
Qed.

Lemma last_nonempty_indep {A : Type} (x : A) (l : list A) (d d' : A) :
  last (x :: l) d = last (x :: l) d'.
Proof.
  revert x. induction l as [|y l IH]; intros x; [reflexivity|].
  change (last (y :: l) d = last (y :: l) d'). apply IH.
Qed.

(** Whatever the offsets, the scan returns the last marker of the
    leading run of markers at or above the reference line. *)
Lemma scan_active_prefix (ms : list Marker) (ref : Q) (sel : Marker) :
  exists pre post,
    ms = pre ++ post /\
    Forall (fun m => marker_top m <= ref) pre /\
    (match post with [] => True | m :: _ => ref < marker_top m end) /\
    scan_active ms ref sel = last pre sel.
Proof.
  revert sel. induction ms as [|m ms IH]; intros sel.
  - exists [], []. repeat split; constructor.
  - cbn [scan_active]. destruct (Qlt_le_dec ref (marker_top m)) as [Hlt|Hle].
    + exists [], (m :: ms). repeat split; [constructor | exact Hlt].
    + destruct (IH m) as (pre & post & E & Hpre & Hpost & Hscan).
      exists (m :: pre), post. repeat split.
      * now rewrite E.
      * constructor; assumption.
      * exact Hpost.
      * rewrite Hscan. destruct pre as [|p pre]; [reflexivity|].
        change (last (p :: pre) m = last (p :: pre) sel).
        apply last_nonempty_indep.
Qed.

Lemma scan_active_ascending (ms : list Marker) (ref : Q) (sel : Marker) :
  ascending_offsets ms ->
  scan_active ms ref sel =
  match find (scrolled_past ref) (rev ms) with
  | Some m => m
  | None => sel
  end.
Proof.
  revert sel. induction ms as [|m ms IH]; intros sel Hasc; [reflexivity|].
  cbn [scan_active rev]. rewrite find_app_one.
  destruct (Qlt_le_dec ref (marker_top m)) as [Hlt|Hle].
  - assert (Hall : Forall (fun y => marker_top m <= y) (map marker_top (m :: ms))).
    { apply gapped_lower with (g := 0); [lra | lra | exact Hasc]. }
    rewrite find_none_all.
    + apply scrolled_past_false in Hlt. now rewrite Hlt.
    + apply Forall_forall. intros x Hx. apply scrolled_past_false.
      rewrite Forall_forall in Hall.
      assert (marker_top m <= marker_top x).
      { apply Hall. right. apply in_map. now apply in_rev. }
      lra.
  - rewrite IH.
    + apply scrolled_past_true in Hle. rewrite Hle.
      destruct (find (scrolled_past ref) (rev ms)); reflexivity.
    + unfold ascending_offsets in *. destruct ms as [|m' ms]; [exact I|].
      apply (proj1 (gapped_cons 0 _ _ _)) in Hasc. apply Hasc.
Qed.

(** With ascending offsets, the selected marker splits the list: it is
    at or above the reference line and everything after it is below. *)
Lemma ascending_all_below (ref : Q) (m : Marker) (l : list Marker) :
  ascending_offsets (m :: l) -> ref < marker_top m ->
  Forall (fun x => ref < marker_top x) (m :: l).
Proof.
  intros Hasc Hm.
  assert (Hall : Forall (fun y => marker_top m <= y) (map marker_top (m :: l))).
  { apply gapped_lower with (g := 0); [lra | lra | exact Hasc]. }
  apply Forall_forall. intros x Hx. rewrite Forall_forall in Hall.
  assert (marker_top m <= marker_top x) by (apply Hall; now apply in_map).
  lra.
Qed.

Lemma ascending_suffix (pre post : list Marker) :
  ascending_offsets (pre ++ post) -> ascending_offsets post.
Proof.
  induction pre as [|p pre IH]; intros Hasc; [exact Hasc|].
  apply IH. unfold ascending_offsets in *.
  change ((p :: pre) ++ post) with (p :: (pre ++ post)) in Hasc.
  destruct (pre ++ post) as [|x l]; [exact I|].
  apply (proj1 (gapped_cons 0 _ _ _)) in Hasc. apply Hasc.
Qed.

Lemma select_active_split (ms : list Marker) (ref : Q) (m : Marker) :
  ascending_offsets ms -> In m ms -> marker_top m <= ref ->
  exists pre sel post,
    ms = pre ++ sel :: post /\
    select_active ms ref = Some sel /\
    marker_top sel <= ref /\
    Forall (fun x => ref < marker_top x) post.
Proof.
  intros Hasc Hin Hm. destruct ms as [|m0 rest]; [contradiction|].
  unfold select_active.
  destruct (scan_active_prefix (m0 :: rest) ref m0)
    as (pre & post & Eq & Hpre & Hpost & Hscan).
  assert (Hpost' : Forall (fun x => ref < marker_top x) post).
  { destruct post as [|q post]; [constructor|].
    apply ascending_all_below; [|exact Hpost].
    apply ascending_suffix with (pre := pre). now rewrite <- Eq. }
  destruct pre as [|p pre].
  - simpl in Eq. subst post. rewrite Forall_forall in Hpost'.
    specialize (Hpost' m Hin). lra.
  - destruct (@exists_last _ (p :: pre)) as (l' & a & El); [discriminate|].
    exists l', a, post. rewrite Hscan, El, last_last.
    split; [now rewrite Eq, El, <- app_assoc|]. split; [reflexivity|].
    split; [|exact Hpost'].
    rewrite El in Hpre. rewrite Forall_forall in Hpre.
    apply Hpre. apply in_or_app. right. now left.
Qed.

(** C4 (amended).  For every non-empty marker list whose offsets do not
    decrease in document order, [computeActiveByScroll] selects the last
    marker whose offset is at most the reference line (every marker after
    it is below the line), and the first marker when no offset is; for
    the offsets 0, 100, 250 and the reference line 120 it selects the
    marker at offset 100. *)
Theorem C4_active_is_last_scrolled_past (ms : list Marker) (ref : Q) :
  ms <> [] -> ascending_offsets ms ->
  select_active ms ref = last_scrolled_past ms ref /\
  (forall m, In m ms -> marker_top m <= ref ->
     exists pre sel post,
       ms = pre ++ sel :: post /\
       select_active ms ref = Some sel /\
       marker_top sel <= ref /\
       Forall (fun x => ref < marker_top x) post) /\
  (Forall (fun m => ref < marker_top m) ms ->
   select_active ms ref = hd_error ms) /\
  (forall a b c : string,
     select_active [mkMarker a 0; mkMarker b 100; mkMarker c 250] 120
     = Some (mkMarker b 100)).
Proof.
  intros Hne Hasc. destruct ms as [|m0 rest]; [contradiction|].
  assert (E : select_active (m0 :: rest) ref = last_scrolled_past (m0 :: rest) ref).
  { unfold select_active, last_scrolled_past.
    rewrite scan_active_ascending by exact Hasc.
    destruct (find _ _); reflexivity. }
  split; [exact E|]. split; [|split].
  - intros m Hin Hm. now apply select_active_split with (m := m).
  - intros Hall. rewrite E. unfold last_scrolled_past.
    rewrite find_none_all; [reflexivity|].
    apply Forall_forall. intros x Hx. apply scrolled_past_false.
    rewrite Forall_forall in Hall. apply Hall. now apply in_rev.
  - intros a b c. reflexivity.
Qed.

Lemma C4_active_is_last_scrolled_past_witness :
  [mkMarker "t1" 0; mkMarker "t2" 100; mkMarker "t3" 250] <> [] /\
  ascending_offsets [mkMarker "t1" 0; mkMarker "t2" 100; mkMarker "t3" 250] /\
  select_active [mkMarker "t1" 0; mkMarker "t2" 100; mkMarker "t3" 250] 120
  = last_scrolled_past
      [mkMarker "t1" 0; mkMarker "t2" 100; mkMarker "t3" 250] 120.
Proof.
  split; [discriminate|].
  split; [vm_compute; repeat split; discriminate|].
  apply (C4_active_is_last_scrolled_past
           [mkMarker "t1" 0; mkMarker "t2" 100; mkMarker "t3" 250] 120).
  - discriminate.
  - vm_compute; repeat split; discriminate.
Defined.

(** C4, as stated for every marker list, fails when an offset decreases:
    with the offsets 0, 200, 100 and the reference line 120 the last
    marker at or above the line is the third, but the scan stops at the
    second and the first marker is selected. *)
Lemma C4_scan_stops_at_first_marker_below :
  [mkMarker "t1" 0; mkMarker "t2" 200; mkMarker "t3" 100] <> [] /\
  last_scrolled_past [mkMarker "t1" 0; mkMarker "t2" 200; mkMarker "t3" 100] 120
    = Some (mkMarker "t3" 100) /\
  select_active [mkMarker "t1" 0; mkMarker "t2" 200; mkMarker "t3" 100] 120
    = Some (mkMarker "t1" 0) /\
  select_active [mkMarker "t1" 0; mkMarker "t2" 200; mkMarker "t3" 100] 120
    <> last_scrolled_past
         [mkMarker "t1" 0; mkMarker "t2" 200; mkMarker "t3" 100] 120.
Proof.
  split; [discriminate|]. split; [reflexivity|]. split; [reflexivity|].
  vm_compute. discriminate.
Qed.

(** ** The commit timer *)

Lemma truthy_handle_consistent (s : state) :
  timer_consistent s ->
  truthy_handle (activeChangeTimer s) = false ->
  activeChangeTimer s = None /\ timers s = [].
Proof.
  intros [_ Hc] Hf. destruct (activeChangeTimer s) as [h|]; [|now split].
  destruct Hc as [Hh _]. simpl in Hf.
  destruct h; [lia | discriminate].
Qed.

Lemma consider_candidate_consistent (now : Q) (c : string) (s : state) :
  timer_consistent s -> timer_consistent (consider_candidate now c s).
Proof.
  intros Hc. unfold consider_candidate.
  destruct (same_id _ _); [exact Hc|].
  destruct (Qlt_le_dec _ _); [|exact Hc].
  destruct (truthy_handle (activeChangeTimer (set_pending (Some c) s))) eqn:Et;
    [exact Hc|].
  destruct Hc as [Hn Hc]. split; cbn; [lia|]. split; [exact Hn|].
  destruct (truthy_handle_consistent s (conj Hn Hc) Et) as [_ Ht].
  rewrite Ht. eauto.
Qed.

Lemma remove_timer_self (h : nat) (due : Q) : remove_timer h [(h, due)] = [].
Proof. unfold remove_timer. simpl. now rewrite Nat.eqb_refl. Qed.

Lemma activeChangeTimer_callback_timer (now : Q) (s : state) :
  activeChangeTimer (activeChangeTimer_callback now s) = None /\
  timers (activeChangeTimer_callback now s) = timers s /\
  nextTimerHandle (activeChangeTimer_callback now s) = nextTimerHandle s.
Proof.
  unfold activeChangeTimer_callback. cbn [pendingActiveId activeTurnId].
  destruct (pendingActiveId s) as [p|]; [|now cbn].
  destruct (truthy_id (Some p) && _); now cbn.
Qed.

Lemma timer_due_in (h : nat) (now : Q) (ts : list (nat * Q)) :
  timer_due h now ts = true -> exists due, In (h, due) ts /\ due <= now.
Proof.
  unfold timer_due. rewrite existsb_exists. intros ([h' due] & Hin & Ht).
  apply andb_true_iff in Ht. destruct Ht as [Hh Hd]. cbn in Hh, Hd.
  apply Nat.eqb_eq in Hh. subst h'. apply Qle_bool_iff in Hd. eauto.
Qed.

Lemma fire_timer_consistent (h : nat) (now : Q) (s : state) :
  timer_consistent s -> timer_consistent (fire_timer h now s).
Proof.
  intros Hc. unfold fire_timer. destruct (timer_due h now (timers s)) eqn:Ed;
    [|exact Hc].
  apply timer_due_in in Ed. destruct Ed as (due & Hin & _).
  destruct Hc as [Hn Hc].
  match goal with |- timer_consistent (activeChangeTimer_callback now ?s0) =>
    destruct (activeChangeTimer_callback_timer now s0) as (E1 & E2 & E3)
  end.
  split; [rewrite E3; exact Hn|]. rewrite E1, E2. cbn [timers].
  destruct (activeChangeTimer s) as [h'|].
  - destruct Hc as (_ & due' & Ht). rewrite Ht in *.
    destruct Hin as [Hin|[]]. injection Hin as -> ->.
    apply remove_timer_self.
  - rewrite Hc in Hin. contradiction.
Qed.

Lemma destroy_consistent (s : state) :
  timer_consistent s -> timer_consistent (destroy s).
Proof.
  intros [Hn Hc]. unfold destroy. split; [exact Hn|]. cbn.
  destruct (activeChangeTimer s) as [h|]; [|exact Hc].
  destruct Hc as (Hh & due & Ht). cbn.
  destruct h; [lia|]. cbn. rewrite Ht. apply remove_timer_self.
Qed.

Lemma recalculate_consistent (turns : list Marker) (s : state) :
  timer_consistent s -> timer_consistent (recalculateAndRenderMarkers turns s).
Proof. intros Hc. destruct turns; exact Hc. Qed.

Lemma run_event_consistent (e : event) (s : state) :
  timer_consistent s -> timer_consistent (run_event s e).
Proof.
  intros Hc. destruct e; cbn [run_event].
  - now apply recalculate_consistent.
  - unfold computeActiveByScroll. destruct (select_active _ _); [|exact Hc].
    now apply consider_candidate_consistent.
  - now apply fire_timer_consistent.
  - now apply destroy_consistent.
Qed.

Lemma run_snoc (s : state) (es : list event) (e : event) :
  run s (es ++ [e]) = run_event (run s es) e.
Proof. unfold run. now rewrite fold_left_app. Qed.

Lemma run_consistent (es : list event) :
  timer_consistent (run initial_state es).
Proof.
  induction es as [|e es IH] using rev_ind.
  - split; cbn; [lia | reflexivity].
  - rewrite run_snoc. now apply run_event_consistent.
Qed.

Lemma timer_consistent_at_most_one (s : state) :
  timer_consistent s -> (length (timers s) <= 1)%nat.
Proof.
  intros [_ Hc]. destruct (activeChangeTimer s).
  - destruct Hc as (_ & due & ->). cbn. lia.
  - rewrite Hc. cbn. lia.
Qed.

(** ** Coalescing of candidate changes *)

Lemma same_id_sym (x y : option string) : same_id x y = same_id y x.
Proof.
  destruct x as [a|], y as [b|]; try reflexivity. cbn. apply String.eqb_sym.
Qed.

(** A candidate that differs from the active id and arrives inside the
    interval is only recorded: nothing is committed, and a timer is
    scheduled afterwards. *)
Lemma consider_candidate_deferred (now : Q) (c : string) (s : state) :
  timer_consistent s ->
  now - lastActiveChangeTime s < minActiveChangeInterval ->
  same_id (activeTurnId s) (Some c) = false ->
  markers (consider_candidate now c s) = markers s /\
  activeTurnId (consider_candidate now c s) = activeTurnId s /\
  lastActiveChangeTime (consider_candidate now c s) = lastActiveChangeTime s /\
  committed (consider_candidate now c s) = committed s /\
  pendingActiveId (consider_candidate now c s) = Some c /\
  exists h, activeChangeTimer (consider_candidate now c s) = Some h.
Proof.
  intros Hc Hsince Hdiff. unfold consider_candidate. rewrite Hdiff.
  destruct (Qlt_le_dec _ _) as [_|Hge]; [|lra].
  destruct (truthy_handle (activeChangeTimer (set_pending (Some c) s))) eqn:Et.
  - cbn. repeat split; try reflexivity.
    cbn in Et. destruct (activeChangeTimer s) as [h|]; [eauto | discriminate].
  - cbn. repeat split; try reflexivity. eauto.
Qed.

Lemma deferrable_ext (s s' : state) (e : Q * string) :
  lastActiveChangeTime s' = lastActiveChangeTime s ->
  activeTurnId s' = activeTurnId s ->
  deferrable s e -> deferrable s' e.
Proof. unfold deferrable. intros -> ->. tauto. Qed.

Lemma consider_all_deferred (earlier : list (Q * string)) (e : Q * string)
    (s : state) :
  timer_consistent s ->
  Forall (deferrable s) (earlier ++ [e]) ->
  timer_consistent (consider_all (earlier ++ [e]) s) /\
  markers (consider_all (earlier ++ [e]) s) = markers s /\
  activeTurnId (consider_all (earlier ++ [e]) s) = activeTurnId s /\
  lastActiveChangeTime (consider_all (earlier ++ [e]) s)
    = lastActiveChangeTime s /\
  committed (consider_all (earlier ++ [e]) s) = committed s /\
  pendingActiveId (consider_all (earlier ++ [e]) s) = Some (snd e) /\
  exists h, activeChangeTimer (consider_all (earlier ++ [e]) s) = Some h.
Proof.
  revert s. induction earlier as [|e0 earlier IH]; intros s Hc Hall.
  - cbn [app consider_all fold_left].
    apply Forall_inv in Hall. destruct Hall as [Hs Hd].
    split; [now apply consider_candidate_consistent|].
    now apply consider_candidate_deferred.
  - change (consider_all ((e0 :: earlier) ++ [e]) s)
      with (consider_all (earlier ++ [e])
              (consider_candidate (fst e0) (snd e0) s)).
    change ((e0 :: earlier) ++ [e]) with (e0 :: (earlier ++ [e])) in Hall.
    pose proof (Forall_inv Hall) as [Hs Hd].
    pose proof (Forall_inv_tail Hall) as Htl.
    destruct (consider_candidate_deferred (fst e0) (snd e0) s Hc Hs Hd)
      as (Em & Ea & El & Ec & _ & _).
    destruct (IH (consider_candidate (fst e0) (snd e0) s)) as
      (Hc' & Em' & Ea' & El' & Ec' & Ep' & Hh').
    + now apply consider_candidate_consistent.
    + eapply Forall_impl; [|exact Htl]. intros x. now apply deferrable_ext.
    + split; [exact Hc'|]. split; [congruence|]. split; [congruence|].
      split; [congruence|]. split; [congruence|]. split; [exact Ep' | exact Hh'].
Qed.

Lemma fire_timer_commits_pending (h : nat) (due now : Q) (c : string)
    (s : state) :
  timers s = [(h, due)] -> due <= now ->
  pendingActiveId s = Some c ->
  truthy_id (Some c) = true ->
  same_id (activeTurnId s) (Some c) = false ->
  committed (fire_timer h now s) = committed s ++ [c] /\
  activeTurnId (fire_timer h now s) = Some c /\
  lastActiveChangeTime (fire_timer h now s) = now /\
  pendingActiveId (fire_timer h now s) = None /\
  activeChangeTimer (fire_timer h now s) = None /\
  timers (fire_timer h now s) = [].
Proof.
  intros Ht Hdue Hp Htr Hdiff. unfold fire_timer.
  assert (Ed : timer_due h now (timers s) = true).
  { rewrite Ht. unfold timer_due. cbn. rewrite Nat.eqb_refl.
    apply Qle_bool_iff in Hdue. now rewrite Hdue. }
  rewrite Ed. unfold activeChangeTimer_callback.
  cbn [pendingActiveId activeTurnId]. rewrite Hp, Htr.
  rewrite same_id_sym, Hdiff. cbn. rewrite Ht, remove_timer_self.
  repeat split; reflexivity.
Qed.

(** C5 (amended).  From every reachable state, let [K >= 1] candidate
    changes (ids that differ from the active id) arrive less than
    [minActiveChangeInterval] after the last committed change, the last
    of them with a non-empty id [c].  Then nothing is committed while
    they arrive, exactly one timer is scheduled, and when it fires
    exactly one change is committed, with id [c]. *)
Theorem C5_burst_commits_last_candidate_once
    (es : list event) (earlier : list (Q * string)) (now : Q) (c : string) :
  Forall (deferrable (run initial_state es)) (earlier ++ [(now, c)]) ->
  truthy_id (Some c) = true ->
  committed (consider_all (earlier ++ [(now, c)]) (run initial_state es))
    = committed (run initial_state es) /\
  exists h due,
    timers (consider_all (earlier ++ [(now, c)]) (run initial_state es))
      = [(h, due)] /\
    forall fired, due <= fired ->
      committed (fire_timer h fired
                   (consider_all (earlier ++ [(now, c)])
                      (run initial_state es)))
        = committed (run initial_state es) ++ [c] /\
      activeTurnId (fire_timer h fired
                      (consider_all (earlier ++ [(now, c)])
                         (run initial_state es)))
        = Some c /\
      timers (fire_timer h fired
                (consider_all (earlier ++ [(now, c)])
                   (run initial_state es)))
        = [].
Proof.
  intros Hall Htr.
  set (s := run initial_state es) in *.
  destruct (consider_all_deferred earlier (now, c) s (run_consistent es) Hall)
    as (Hc & _ & Ea & _ & Ec & Ep & h & Eh).
  split; [exact Ec|].
  destruct Hc as [_ Hc]. rewrite Eh in Hc. destruct Hc as (_ & due & Ht).
  exists h, due. split; [exact Ht|]. intros fired Hdue.
  assert (Hd : same_id (activeTurnId (consider_all (earlier ++ [(now, c)]) s))
                 (Some c) = false).
  { rewrite Ea. apply Forall_app in Hall. destruct Hall as [_ Hl].
    apply Forall_inv in Hl. apply Hl. }
  destruct (fire_timer_commits_pending h due fired c _ Ht Hdue Ep Htr Hd)
    as (E1 & E2 & _ & _ & _ & E6).
  rewrite Ec in E1. auto.
Qed.

Lemma C5_burst_commits_last_candidate_once_witness :
  Forall (deferrable
            (run initial_state
               [Rebuild [mkMarker "t1" 0; mkMarker "t2" 100; mkMarker "t3" 250]]))
         ([(10, "t1"%string)] ++ [(20, "t2"%string)]) /\
  truthy_id (Some "t2"%string) = true /\
  committed
    (consider_all ([(10, "t1"%string)] ++ [(20, "t2"%string)])
       (run initial_state
          [Rebuild [mkMarker "t1" 0; mkMarker "t2" 100; mkMarker "t3" 250]]))
  = committed
      (run initial_state
         [Rebuild [mkMarker "t1" 0; mkMarker "t2" 100; mkMarker "t3" 250]]).
Proof.
  assert (H : Forall (deferrable
            (run initial_state
               [Rebuild [mkMarker "t1" 0; mkMarker "t2" 100; mkMarker "t3" 250]]))
         ([(10, "t1"%string)] ++ [(20, "t2"%string)])).
  { repeat constructor. }
  split; [exact H|]. split; [reflexivity|].
  apply (C5_burst_commits_last_candidate_once
           [Rebuild [mkMarker "t1" 0; mkMarker "t2" 100; mkMarker "t3" 250]]
           [(10, "t1"%string)] 20 "t2" H eq_refl).
Defined.

(** C5, as stated for every candidate, fails for a marker with an empty
    id: with active id "t1", one candidate change to the marker whose id
    is the empty string arrives 10 ms after the last change; the timer is
    scheduled and fires, and nothing is committed. *)
Lemma C5_empty_id_is_never_committed :
  deferrable
    (run initial_state
       [Rebuild [mkMarker "t1" 0];
        Rebuild [mkMarker "t1" 0; mkMarker "" 100]])
    (10, ""%string) /\
  run initial_state
    [Rebuild [mkMarker "t1" 0];
     Rebuild [mkMarker "t1" 0; mkMarker "" 100];
     Scroll 10 100 0]
  = consider_all [(10, ""%string)]
      (run initial_state
         [Rebuild [mkMarker "t1" 0];
          Rebuild [mkMarker "t1" 0; mkMarker "" 100]]) /\
  length (timers (run initial_state
            [Rebuild [mkMarker "t1" 0];
             Rebuild [mkMarker "t1" 0; mkMarker "" 100];
             Scroll 10 100 0])) = 1%nat /\
  timers (run initial_state
            [Rebuild [mkMarker "t1" 0];
             Rebuild [mkMarker "t1" 0; mkMarker "" 100];
             Scroll 10 100 0; Fire 1 120]) = [] /\
  committed (run initial_state
               [Rebuild [mkMarker "t1" 0];
                Rebuild [mkMarker "t1" 0; mkMarker "" 100];
                Scroll 10 100 0; Fire 1 120]) = [] /\
  activeTurnId (run initial_state
                  [Rebuild [mkMarker "t1" 0];
                   Rebuild [mkMarker "t1" 0; mkMarker "" 100];
                   Scroll 10 100 0; Fire 1 120]) = Some "t1"%string.
Proof.
  repeat split; reflexivity.
Qed.

(** A computation whose candidate is the active id itself leaves a
    pending id in place: with "t3" active, the candidate "t2" is recorded,
    the next computation finds "t3" again, and the timer then commits
    "t2" although the last candidate computed was "t3". *)
Lemma scroll_back_commits_earlier_candidate :
  activeTurnId
    (run initial_state
       [Rebuild [mkMarker "t1" 0; mkMarker "t2" 100; mkMarker "t3" 250]])
    = Some "t3"%string /\
  select_active [mkMarker "t1" 0; mkMarker "t2" 100; mkMarker "t3" 250]
                (reference_line 120 0) = Some (mkMarker "t2" 100) /\
  select_active [mkMarker "t1" 0; mkMarker "t2" 100; mkMarker "t3" 250]
                (reference_line 300 0) = Some (mkMarker "t3" 250) /\
  committed
    (run initial_state
       [Rebuild [mkMarker "t1" 0; mkMarker "t2" 100; mkMarker "t3" 250];
        Scroll 10 120 0; Scroll 20 300 0; Fire 1 120])
    = ["t2"%string] /\
  activeTurnId
    (run initial_state
       [Rebuild [mkMarker "t1" 0; mkMarker "t2" 100; mkMarker "t3" 250];
        Scroll 10 120 0; Scroll 20 300 0; Fire 1 120])
    = Some "t2"%string.
Proof.
  repeat split; reflexivity.
Qed.

(** ** The active id across rebuilds and recomputations *)

Lemma scan_active_in (ms : list Marker) (ref : Q) (sel : Marker) :
  scan_active ms ref sel = sel \/ In (scan_active ms ref sel) ms.
Proof.
  revert sel. induction ms as [|m ms IH]; intros sel; [now left|].
  cbn [scan_active]. destruct (Qlt_le_dec ref (marker_top m)); [now left|].
  right. destruct (IH m) as [-> | Hin]; [now left | now right].
Qed.

Lemma select_active_in (ms : list Marker) (ref : Q) (m : Marker) :
  select_active ms ref = Some m -> In m ms.
Proof.
  destruct ms as [|m0 rest]; [discriminate|]. unfold select_active.
  intros E.
  assert (Em : m = scan_active (m0 :: rest) ref m0) by congruence.
  destruct (scan_active_in (m0 :: rest) ref m0) as [E0 | Hin].
  - left. congruence.
  - now rewrite Em.
Qed.

Lemma consider_candidate_fields (now : Q) (c : string) (s : state) :
  markers (consider_candidate now c s) = markers s /\
  (activeTurnId (consider_candidate now c s) = activeTurnId s /\
   committed (consider_candidate now c s) = committed s
   \/ activeTurnId (consider_candidate now c s) = Some c) /\
  (pendingActiveId (consider_candidate now c s) = pendingActiveId s
   \/ pendingActiveId (consider_candidate now c s) = Some c).
Proof.
  unfold consider_candidate. destruct (same_id _ _); [now auto|].
  destruct (Qlt_le_dec _ _).
  - destruct (truthy_handle _); cbn; auto.
  - cbn. auto.
Qed.

Lemma callback_fields (now : Q) (s : state) :
  markers (activeChangeTimer_callback now s) = markers s /\
  (activeTurnId (activeChangeTimer_callback now s) = activeTurnId s
   \/ exists p, pendingActiveId s = Some p /\
                activeTurnId (activeChangeTimer_callback now s) = Some p) /\
  pendingActiveId (activeChangeTimer_callback now s) = None.
Proof.
  unfold activeChangeTimer_callback. cbn [pendingActiveId activeTurnId].
  destruct (pendingActiveId s) as [p|]; [|cbn; auto].
  destruct (truthy_id (Some p) && _); cbn.
  - split; [reflexivity|]. split; [right; exists p; now split | reflexivity].
  - auto.
Qed.

Lemma truthy_id_some (x : option string) :
  truthy_id x = true -> x <> None.
Proof. destruct x; [discriminate | discriminate]. Qed.

Lemma run_event_coherent (e : event) (s : state) :
  coherent s -> coherent (run_event s e).
Proof.
  intros [Hm Hp]. destruct e as [turns | now st ch | h now |]; cbn [run_event].
  - destruct turns as [|t0 ts]; [now split|].
    unfold recalculateAndRenderMarkers, coherent. cbn.
    split; [|discriminate]. split; [discriminate|].
    destruct (truthy_id (activeTurnId s)) eqn:Et; cbn; [|discriminate].
    intros E. now apply truthy_id_some in Et.
  - unfold computeActiveByScroll.
    destruct (select_active (markers s) _) as [m|] eqn:Es; [|now split].
    apply select_active_in in Es.
    destruct (consider_candidate_fields now (marker_id m) s)
      as (Em & Ha & _).
    assert (Hne : markers s <> []) by (intros E; rewrite E in Es; contradiction).
    unfold coherent. rewrite Em. split; [|intros E; contradiction].
    split; [intros E; contradiction|].
    destruct Ha as [[Ea _] | Ea]; rewrite Ea; [|discriminate].
    intros E. apply Hm in E. contradiction.
  - unfold fire_timer. destruct (timer_due h now (timers s)); [|now split].
    match goal with |- coherent (activeChangeTimer_callback now ?s0) =>
      destruct (callback_fields now s0) as (Em & Ha & Ep)
    end.
    cbn [markers activeTurnId pendingActiveId] in Em, Ha.
    unfold coherent. rewrite Em, Ep. split; [|reflexivity].
    destruct Ha as [Ea | (p & Epend & Ea)]; rewrite Ea; [exact Hm|].
    split; [|discriminate]. intros E. apply Hp in E. congruence.
  - now split.
Qed.

Lemma run_coherent (es : list event) : coherent (run initial_state es).
Proof.
  induction es as [|e es IH] using rev_ind.
  - now split.
  - rewrite run_snoc. now apply run_event_coherent.
Qed.

Lemma rebuilt_ids_snoc (es : list event) (e : event) :
  rebuilt_ids (es ++ [e]) = rebuilt_ids es ++ rebuilt_ids [e].
Proof. unfold rebuilt_ids. apply flat_map_app. Qed.

Lemma last_in {A : Type} (x : A) (l : list A) : In (last (x :: l) x) (x :: l).
Proof.
  destruct (@exists_last _ (x :: l)) as (l' & a & E); [discriminate|].
  rewrite E, last_last. apply in_or_app. right. now left.
Qed.

Lemma run_event_known (es : list event) (e : event) (s : state) :
  known_ids es s -> known_ids (es ++ [e]) (run_event s e).
Proof.
  intros (Ha & Hp & Hm). unfold known_ids. rewrite rebuilt_ids_snoc.
  assert (Hold : forall x, In x (rebuilt_ids es) ->
                           In x (rebuilt_ids es ++ rebuilt_ids [e]))
    by (intros x Hx; apply in_or_app; now left).
  destruct e as [turns | now st ch | h now |]; cbn [run_event].
  - destruct turns as [|t0 ts]; [now auto|].
    assert (Hnew : forall m, In m (t0 :: ts) ->
              In (marker_id m) (rebuilt_ids es ++ rebuilt_ids [Rebuild (t0 :: ts)])).
    { intros m Hin. apply in_or_app. right. cbn. rewrite app_nil_r.
      now apply (in_map marker_id) in Hin. }
    unfold recalculateAndRenderMarkers. cbn [activeTurnId pendingActiveId markers].
    split; [|split; [now auto | exact Hnew]].
    intros a. destruct (negb (truthy_id (activeTurnId s))); [|now auto].
    intros [= <-]. apply Hnew. apply last_in.
  - unfold computeActiveByScroll.
    destruct (select_active (markers s) _) as [m|] eqn:Es; [|now auto].
    apply select_active_in in Es.
    destruct (consider_candidate_fields now (marker_id m) s)
      as (Em & Hact & Hpend).
    rewrite Em. split; [|split; [|now auto]].
    + intros a. destruct Hact as [[Ea _] | Ea]; rewrite Ea; [now auto|].
      intros [= <-]. auto.
    + intros p. destruct Hpend as [Ep | Ep]; rewrite Ep; [now auto|].
      intros [= <-]. auto.
  - unfold fire_timer. destruct (timer_due h now (timers s)); [|now auto].
    match goal with |- context [activeChangeTimer_callback now ?s0] =>
      destruct (callback_fields now s0) as (Em & Hact & Ep)
    end.
    cbn [markers activeTurnId pendingActiveId] in Em, Hact.
    rewrite Em, Ep. split; [|split; [discriminate | now auto]].
    intros a. destruct Hact as [Ea | (p & Epend & Ea)]; rewrite Ea; [now auto|].
    intros [= <-]. auto.
  - cbn. split; [discriminate|]. split; [discriminate | contradiction].
Qed.

Lemma run_known (es : list event) : known_ids es (run initial_state es).
Proof.
  induction es as [|e es IH] using rev_ind.
  - cbn. split; [discriminate|]. split; [discriminate | contradiction].
  - rewrite run_snoc. now apply run_event_known.
Qed.

(** C6 (amended).  In every reachable state at most one commit timer is
    pending; the active id is null exactly when the marker list is empty;
    and a non-null active id is the id of a marker of the current list
    or of a list that an earlier rebuild installed.  It is the id of a
    current marker right after a rebuild that found no active id and
    right after [computeActiveByScroll] committed a change itself. *)
Theorem C6_active_state_invariant (es : list event) :
  (length (timers (run initial_state es)) <= 1)%nat /\
  (markers (run initial_state es) = []
   <-> activeTurnId (run initial_state es) = None) /\
  (forall a, activeTurnId (run initial_state es) = Some a ->
             In a (rebuilt_ids es)) /\
  (forall turns,
     turns <> [] -> truthy_id (activeTurnId (run initial_state es)) = false ->
     exists a,
       activeTurnId (run initial_state (es ++ [Rebuild turns])) = Some a /\
       In a (marker_ids (markers (run initial_state (es ++ [Rebuild turns]))))) /\
  (forall now scrollTop clientHeight,
     committed (run initial_state (es ++ [Scroll now scrollTop clientHeight]))
       <> committed (run initial_state es) ->
     exists a,
       activeTurnId (run initial_state (es ++ [Scroll now scrollTop clientHeight]))
         = Some a /\
       In a (marker_ids
               (markers (run initial_state
                           (es ++ [Scroll now scrollTop clientHeight]))))).
Proof.
  split; [apply timer_consistent_at_most_one, run_consistent|].
  split; [apply run_coherent|].
  split; [apply run_known|].
  split.
  - intros turns Hne Hf. rewrite run_snoc. cbn [run_event].
    destruct turns as [|t0 ts]; [contradiction|].
    unfold recalculateAndRenderMarkers. rewrite Hf. cbn.
    eexists. split; [reflexivity|].
    change (In (marker_id (last (t0 :: ts) t0)) (map marker_id (t0 :: ts))).
    apply in_map, last_in.
  - intros now scrollTop clientHeight. rewrite run_snoc. cbn [run_event].
    set (s := run initial_state es).
    unfold computeActiveByScroll.
    destruct (select_active (markers s) _) as [m|] eqn:Es;
      [|intros H; now contradiction H].
    apply select_active_in in Es.
    destruct (consider_candidate_fields now (marker_id m) s)
      as (Em & Hact & _).
    intros Hc. destruct Hact as [[_ Ec] | Ea]; [contradiction|].
    exists (marker_id m). split; [exact Ea|].
    rewrite Em. now apply in_map.
Qed.

Lemma C6_active_state_invariant_witness :
  [mkMarker "t1" 0; mkMarker "t2" 100] <> [] /\
  truthy_id (activeTurnId (run initial_state [])) = false /\
  exists a,
    activeTurnId
      (run initial_state
         ([] ++ [Rebuild [mkMarker "t1" 0; mkMarker "t2" 100]])) = Some a /\
    In a (marker_ids
            (markers
               (run initial_state
                  ([] ++ [Rebuild [mkMarker "t1" 0; mkMarker "t2" 100]])))).
Proof.
  split; [discriminate|]. split; [reflexivity|].
  apply (C6_active_state_invariant []); [discriminate | reflexivity].
Defined.

(** C6, as stated, fails across a rebuild: after the markers "t1" are
    replaced by the markers "t2", the active id is still "t1", which no
    current marker carries. *)
Lemma C6_rebuild_keeps_stale_active_id :
  reachable (run initial_state
               [Rebuild [mkMarker "t1" 0]; Rebuild [mkMarker "t2" 0]]) /\
  activeTurnId (run initial_state
                  [Rebuild [mkMarker "t1" 0]; Rebuild [mkMarker "t2" 0]])
    = Some "t1"%string /\
  marker_ids (markers (run initial_state
                         [Rebuild [mkMarker "t1" 0]; Rebuild [mkMarker "t2" 0]]))
    = ["t2"%string] /\
  ~ active_state_invariant
      (run initial_state
         [Rebuild [mkMarker "t1" 0]; Rebuild [mkMarker "t2" 0]]).
Proof.
  split; [eexists; reflexivity|]. split; [reflexivity|]. split; [reflexivity|].
  intros [_ H]. cbn in H. destruct H as (a & Ea & Hin).
  injection Ea as <-. destruct Hin as [Hin | []]. discriminate Hin.
Qed.

(** ** Tooltip placement *)

Lemma le_floorQ (z : Z) (x : Q) : inject_Z z <= floorQ x <-> inject_Z z <= x.
Proof.
  unfold floorQ. split; intros H.
  - pose proof (Qfloor_le x). lra.
  - rewrite <- Zle_Qle. rewrite <- (Qfloor_Z z). now apply Qfloor_resp_le.
Qed.

Lemma Qle_bool_eq (a b c d : Q) :
  (a <= b <-> c <= d) -> Qle_bool a b = Qle_bool c d.
Proof.
  intros H. destruct (Qle_bool a b) eqn:E1, (Qle_bool c d) eqn:E2;
    try reflexivity.
  - apply Qle_bool_iff in E1. apply H in E1. apply Qle_bool_iff in E1. congruence.
  - apply Qle_bool_iff in E2. apply H in E2. apply Qle_bool_iff in E2. congruence.
Qed.

Section Placement.

Variables arrowOut baseGap boxGap maxW : Q.
Hypothesis tiers_admitted : 280 <= maxW.

(** A tier above the minimum width passes the cap exactly when it fits
    the available room; the minimum width always passes. *)
Lemma tier_under_cap (z : Z) (avail : Q) :
  (160 < z <= 280)%Z ->
  Qle_bool (inject_Z z) (hardMaxOf maxW avail) = Qle_bool (inject_Z z) avail.
Proof.
  intros Hz. apply Qle_bool_eq. rewrite <- (le_floorQ z avail).
  assert (H1 : 160 < inject_Z z).
  { change 160 with (inject_Z 160). rewrite <- Zlt_Qlt. lia. }
  assert (H2 : inject_Z z <= 280).
  { change 280 with (inject_Z 280). rewrite <- Zle_Qle. lia. }
  unfold hardMaxOf, minW. revert H1 H2. generalize (inject_Z z) (floorQ avail).
  intros t f H1 H2. split_minmax; split; intros; lra.
Qed.

Lemma min_under_cap (avail : Q) : Qle_bool 160 (hardMaxOf maxW avail) = true.
Proof.
  apply Qle_bool_iff. unfold hardMaxOf, minW. split_minmax; lra.
Qed.

Lemma find_tier_capped (avail : Q) :
  find_tier (hardMaxOf maxW avail) =
  match largest_fitting_tier avail with
  | Some t => Some t
  | None => Some 160
  end.
Proof.
  unfold find_tier, largest_fitting_tier, fits, tiers. cbn [find].
  change 280 with (inject_Z 280). change 240 with (inject_Z 240).
  change 200 with (inject_Z 200).
  rewrite !tier_under_cap by lia. rewrite min_under_cap.
  destruct (Qle_bool (inject_Z 280) avail); [reflexivity|].
  destruct (Qle_bool (inject_Z 240) avail); [reflexivity|].
  destruct (Qle_bool (inject_Z 200) avail); [reflexivity|].
  destruct (Qle_bool 160 avail); reflexivity.
Qed.

(** What [largest_fitting_tier] returns. *)
Lemma largest_fitting_tier_some (avail t : Q) :
  largest_fitting_tier avail = Some t ->
  In t tiers /\ t <= avail /\
  (forall t', In t' tiers -> t' <= avail -> t' <= t).
Proof.
  unfold largest_fitting_tier. intros Hf.
  pose proof (find_some _ _ Hf) as [Hin Hfit].
  apply Qle_bool_iff in Hfit. split; [exact Hin|]. split; [exact Hfit|].
  intros t' Hin' Hfit'. apply Qle_bool_iff in Hfit'.
  unfold tiers, fits in *. cbn [find] in Hf.
  repeat match type of Hf with
  | (if Qle_bool ?a ?b then _ else _) = _ =>
      let E := fresh "E" in destruct (Qle_bool a b) eqn:E
  end; try discriminate; injection Hf as <-;
  cbn [In] in Hin'; repeat (destruct Hin' as [<- | Hin']);
    try contradiction; try congruence; lra.
Qed.

Lemma largest_fitting_tier_none (avail : Q) :
  largest_fitting_tier avail = None <-> avail < 160.
Proof.
  unfold largest_fitting_tier, fits, tiers. cbn [find]. split.
  - intros Hf.
    repeat match type of Hf with
    | (if Qle_bool ?a ?b then _ else _) = _ =>
        let E := fresh "E" in destruct (Qle_bool a b) eqn:E
    end; try discriminate.
    destruct (Qlt_le_dec avail 160) as [Hlt|Hle]; [exact Hlt|].
    apply Qle_bool_iff in Hle. congruence.
  - intros Hlt.
    assert (H : forall t, 160 <= t -> Qle_bool t avail = false).
    { intros t Ht. destruct (Qle_bool t avail) eqn:E; [|reflexivity].
      apply Qle_bool_iff in E. lra. }
    rewrite !H by lra. reflexivity.
Qed.

Lemma tiers_bounds (t : Q) : In t tiers -> 160 <= t <= 280 /\ ~ t == 0.
Proof.
  unfold tiers. cbn [In]. intros H.
  repeat (destruct H as [<- | H]); try contradiction; split; lra.
Qed.

(** The first choice of [computePlacementInfo] is never below the
    minimum width, so the branches that switch sides are never taken. *)
Lemma first_width_spec (avail : Q) (fallback : Q) :
  let w := tier_or (hardMaxOf maxW avail) fallback in
  (160 <= w <= 280) /\
  w = match largest_fitting_tier avail with Some t => t | None => 160 end.
Proof.
  unfold tier_or. rewrite find_tier_capped.
  destruct (largest_fitting_tier avail) as [t|] eqn:Ef.
  - apply largest_fitting_tier_some in Ef. destruct Ef as (Hin & _ & _).
    apply tiers_bounds in Hin. destruct Hin as [Hb Hnz].
    unfold or_default. destruct (Qeq_bool t 0) eqn:E.
    + apply Qeq_bool_iff in E. contradiction.
    + cbn. split; [exact Hb | reflexivity].
  - cbn. split; [lra | reflexivity].
Qed.

Lemma placement_with_unfold (dotLeft dotRight vw : Q) :
  let gap := tooltip_gap arrowOut baseGap boxGap in
  let la := leftAvail gap dotLeft in
  let ra := rightAvail gap dotRight vw in
  let chosen := if Qlt_bool la ra then SideRight else SideLeft in
  let avail := match chosen with SideRight => ra | SideLeft => la end in
  placement (placement_with arrowOut baseGap boxGap maxW
               dotLeft dotRight vw) = chosen /\
  width (placement_with arrowOut baseGap boxGap maxW
           dotLeft dotRight vw)
    == match largest_fitting_tier avail with Some t => t | None => 160 end.
Proof.
  intros gap la ra chosen avail. unfold placement_with.
  fold gap. fold la. fold ra. fold chosen. fold avail.
  fold (hardMaxOf maxW avail).
  destruct (first_width_spec avail (Qmax minW (Qmin (hardMaxOf maxW avail) 160)))
    as [Hb Ew].
  set (w := tier_or (hardMaxOf maxW avail) _) in *.
  assert (Hlt : Qlt_bool w minW = false).
  { unfold Qlt_bool, minW. destruct (Qlt_le_dec w 160); [lra | reflexivity]. }
  rewrite Hlt. cbn [andb placement width].
  split; [reflexivity|]. rewrite <- Ew.
  split_minmax; lra.
Qed.

End Placement.




(** ** Position persistence *)

(** The bar's rectangle at restore time is read for its size only: for
    a bar of the saved size, wherever it sits, the offsets written are
    those of the saved rectangle. *)
Lemma restore_after_save (r barRect : rect) (W H : Q) :
  in_margin_bounds r W H ->
  rect_width barRect == rect_width r ->
  rect_height barRect == rect_height r ->
  exists st saved,
    restorePosition (Some (savePosition r W H)) barRect W H
    = Some (st, saved) /\
    style_right st == W - rect_right r /\
    style_top st == rect_top r.
Proof.
  intros (Hw & Hh & [Hr1 Hr2] & [Ht1 Ht2]) Ew Eh. unfold drag_margin in *.
  unfold restorePosition, savePosition.
  cbn [saved_right saved_top saved_width saved_height].
  eexists. eexists. split; [reflexivity|].
  cbn [style_right style_top]. unfold drag_margin.
  assert (HW : 0 < W) by lra. assert (HH : 0 < H) by lra.
  assert (E1 : (W - rect_right r) / W * 100 / 100 * W == W - rect_right r)
    by (field; lra).
  assert (E2 : rect_top r / H * 100 / 100 * H == rect_top r)
    by (field; lra).
  revert E1 E2.
  generalize ((W - rect_right r) / W * 100 / 100 * W)
             (rect_top r / H * 100 / 100 * H).
  intros a b E1 E2. split; split_minmax; lra.
Qed.

(** C9.  For every bar rectangle [r] whose position lies within the
    margin-clamped bounds of a window of size [(W, H)], saving the
    position with [savePosition] and restoring it with [restorePosition]
    in a window of the same size writes a right and a top offset within
    1px of those of [r].  At restore time the bar may sit anywhere (its
    default place, say): [barRect] is any rectangle of the size of [r],
    so the offsets come from the stored value, not from where the bar
    is. *)
Theorem C9_position_round_trip (r barRect : rect) (W H : Q) :
  in_margin_bounds r W H ->
  rect_width barRect == rect_width r ->
  rect_height barRect == rect_height r ->
  exists st saved,
    restorePosition (Some (savePosition r W H)) barRect W H
    = Some (st, saved) /\
    Qabs (style_right st - style_right (offsets_of r W)) <= 1 /\
    Qabs (style_top st - style_top (offsets_of r W)) <= 1.
Proof.
  intros Hb Ew Eh.
  destruct (restore_after_save r barRect W H Hb Ew Eh)
    as (st & saved & E & Er & Et).
  exists st, saved. split; [exact E|]. cbn [offsets_of style_right style_top].
  split; apply Qabs_case; intros; lra.
Qed.

Lemma C9_position_round_trip_witness :
  in_margin_bounds (mkRect 1220 100 24 400) 1280 720 /\
  rect_width (mkRect 1246 60 24 400) == rect_width (mkRect 1220 100 24 400) /\
  rect_height (mkRect 1246 60 24 400) == rect_height (mkRect 1220 100 24 400) /\
  exists st saved,
    restorePosition (Some (savePosition (mkRect 1220 100 24 400) 1280 720))
                    (mkRect 1246 60 24 400) 1280 720 = Some (st, saved) /\
    Qabs (style_right st - style_right (offsets_of (mkRect 1220 100 24 400) 1280))
      <= 1 /\
    Qabs (style_top st - style_top (offsets_of (mkRect 1220 100 24 400) 1280))
      <= 1.
Proof.
  assert (Hb : in_margin_bounds (mkRect 1220 100 24 400) 1280 720).
  { unfold in_margin_bounds. vm_compute. repeat split; discriminate. }
  assert (Ew : rect_width (mkRect 1246 60 24 400)
               == rect_width (mkRect 1220 100 24 400)) by reflexivity.
  assert (Eh : rect_height (mkRect 1246 60 24 400)
               == rect_height (mkRect 1220 100 24 400)) by reflexivity.
  split; [exact Hb|]. split; [exact Ew|]. split; [exact Eh|].
  apply (C9_position_round_trip (mkRect 1220 100 24 400)
           (mkRect 1246 60 24 400) 1280 720 Hb Ew Eh).
Defined.

(* ================================================================== *)
(** * Further properties of the engine *)

(** ** applyMinGap on positions that need no correction *)

Lemma forward_pass_spaced (g : Q) (rest : list Q) (prev x : Q) :
  prev == x -> gapped g (x :: rest) ->
  Forall2 Qeq (forward_pass prev rest g) rest.
Proof.
  revert prev x. induction rest as [|p rest IH]; intros prev x Hx Hgap.
  - constructor.
  - apply gapped_cons in Hgap. destruct Hgap as [Hxp Hrest].
    cbn [forward_pass].
    assert (E : Qmax p (prev + g) == p) by (split_minmax; lra).
    constructor; [exact E|]. now apply IH with (x := p).
Qed.

Lemma Forall2_Qeq_last (l l' : list Q) (d : Q) :
  Forall2 Qeq l l' -> last l d == last l' d.
Proof.
  induction 1 as [|x y l l' Hxy Hl IH]; [reflexivity|].
  destruct Hl as [|x' y' l l' Hxy' Hl]; [exact Hxy|]. exact IH.
Qed.

Lemma Forall2_Qeq_within (lo hi : Q) (l l' : list Q) :
  Forall2 Qeq l l' -> within lo hi l' -> within lo hi l.
Proof.
  induction 1 as [|x y l l' Hxy Hl IH]; intros Hw; [constructor|].
  inversion Hw as [|? ? Hy Hw']; subst. constructor; [lra | now apply IH].
Qed.

(** Positions that already lie within the bounds and keep the gap come
    back unchanged (as numbers). *)
Lemma applyMinGap_spaced (positions : list Q) (lo hi g : Q) :
  within lo hi positions -> gapped g positions ->
  Forall2 Qeq (applyMinGap positions lo hi g) positions.
Proof.
  intros Hw Hgap. destruct positions as [|p0 rest]; [constructor|].
  unfold applyMinGap.
  set (out0 := Qmax lo (Qmin p0 hi)).
  assert (Hp0 : lo <= p0 <= hi) by (inversion Hw; assumption).
  assert (E0 : out0 == p0) by (unfold out0; split_minmax; lra).
  assert (Hout : Forall2 Qeq (out0 :: forward_pass out0 rest g) (p0 :: rest)).
  { constructor; [exact E0|]. now apply forward_pass_spaced with (x := p0). }
  assert (Hin : within lo hi (out0 :: forward_pass out0 rest g))
    by (now apply Forall2_Qeq_within with (l' := p0 :: rest)).
  destruct (Qlt_le_dec hi (last (out0 :: forward_pass out0 rest g) 0))
    as [Hover|Hfit].
  - exfalso.
    assert (Hl : lo <= last (out0 :: forward_pass out0 rest g) 0 <= hi).
    { unfold within in Hin. rewrite Forall_forall in Hin. apply Hin.
      destruct (@exists_last _ (out0 :: forward_pass out0 rest g))
        as (l' & a & El); [discriminate|].
      rewrite El, last_last. apply in_or_app. right. now left. }
    lra.
  - now rewrite map_final_clamp_id.
Qed.

Lemma Forall2_Qeq_nth (l l' : list Q) (i : nat) :
  Forall2 Qeq l l' -> nth i l 0 == nth i l' 0.
Proof.
  intros H. revert i. induction H as [|x y l l' Hxy Hl IH]; intros i.
  - reflexivity.
  - destruct i as [|i]; [exact Hxy | apply IH].
Qed.

(** X1.  When the desired positions already lie within
    [[minTop, maxTop]] and adjacent ones are at least [gap] apart,
    [applyMinGap] moves nothing: every output entry equals the desired
    position at the same index. *)
Theorem X1_applyMinGap_keeps_spaced_positions
    (positions : list Q) (minTop maxTop gap : Q) :
  (forall i, (i < length positions)%nat ->
     minTop <= nth i positions 0 <= maxTop) ->
  (forall i, (S i < length positions)%nat ->
     nth i positions 0 + gap <= nth (S i) positions 0) ->
  length (applyMinGap positions minTop maxTop gap) = length positions /\
  forall i, nth i (applyMinGap positions minTop maxTop gap) 0
            == nth i positions 0.
Proof.
  intros Hin Hgap. split; [apply applyMinGap_length|].
  intros i. apply Forall2_Qeq_nth. apply applyMinGap_spaced.
  - unfold within. apply Forall_forall. intros y Hy.
    destruct (In_nth _ _ 0 Hy) as (k & Hk & <-). now apply Hin.
  - clear Hin. induction positions as [|x [|y l] IH]; try exact I.
    apply gapped_cons. split.
    + apply (Hgap 0%nat). simpl. lia.
    + apply IH. intros k Hk. apply (Hgap (S k)). simpl in *. lia.
Qed.

Lemma X1_applyMinGap_keeps_spaced_positions_witness :
  (forall i, (i < length [20; 40; 75])%nat ->
     12 <= nth i [20; 40; 75] 0 <= 100) /\
  (forall i, (S i < length [20; 40; 75])%nat ->
     nth i [20; 40; 75] 0 + 15 <= nth (S i) [20; 40; 75] 0) /\
  forall i, nth i (applyMinGap [20; 40; 75] 12 100 15) 0
            == nth i [20; 40; 75] 0.
Proof.
  assert (H1 : forall i, (i < length [20; 40; 75])%nat ->
                 12 <= nth i [20; 40; 75] 0 <= 100).
  { intros [|[|[|i]]] Hi; simpl in Hi; try lia; vm_compute; split; discriminate. }
  assert (H2 : forall i, (S i < length [20; 40; 75])%nat ->
                 nth i [20; 40; 75] 0 + 15 <= nth (S i) [20; 40; 75] 0).
  { intros [|[|i]] Hi; simpl in Hi; try lia; vm_compute; discriminate. }
  split; [exact H1|]. split; [exact H2|].
  apply (X1_applyMinGap_keeps_spaced_positions [20; 40; 75] 12 100 15 H1 H2).
Defined.

(** ** Effective gap and normalized positions *)

(** X2.  Whatever the configured gap, the usable height and the marker
    count, the effective minimum gap is never negative and never larger
    than the configured gap floored at 0; it is 0 for at most one
    marker, and on a positive usable height [count] markers spaced by
    it fit: [gap * (count - 1) <= usableHeight]. *)
Theorem X2_effective_gap_bounds (raw usableHeight : Q) (count : nat) :
  0 <= getEffectiveMinGap raw usableHeight count <= Qmax 0 raw /\
  ((count <= 1)%nat -> getEffectiveMinGap raw usableHeight count = 0) /\
  (0 < usableHeight ->
   getEffectiveMinGap raw usableHeight count * (of_nat count - 1)
     <= usableHeight).
Proof.
  split; [split|split].
  - apply getEffectiveMinGap_nonneg.
  - unfold getEffectiveMinGap. destruct (count <=? 1)%nat.
    + split_minmax; lra.
    + destruct (Qlt_le_dec 0 usableHeight); [|lra].
      generalize (usableHeight / effective_gap_denominator count). intros m.
      split_minmax; lra.
  - intros Hc. unfold getEffectiveMinGap.
    apply Nat.leb_le in Hc. now rewrite Hc.
  - apply getEffectiveMinGap_feasible.
Qed.

Lemma Qdiv_le_mono (a b d : Q) : 0 < d -> a <= b -> a / d <= b / d.
Proof.
  intros Hd Hab. apply Qle_shift_div_l; [exact Hd|].
  assert (E : a / d * d == a) by (field; lra). lra.
Qed.

Lemma nth_map_jsnum (f : Q -> jsnum) (l : list Q) (i : nat) :
  (i < length l)%nat -> nth i (map f l) NaN = f (nth i l 0).
Proof.
  intros Hi. rewrite (nth_indep _ NaN (f 0)) by (now rewrite length_map).
  apply map_nth.
Qed.

(** X3.  On a bar with usable height ([barHeight > 2 * pad]) and
    [N >= 2] markers, [updateTimelineGeometry] spreads the markers
    evenly: marker [i] gets the finite normalized position
    [i / (N - 1)], the first pixel position is [pad] and the last is
    [barHeight - pad]. *)
Theorem X3_even_distribution (N : nat) (barHeight pad : Q) :
  (2 <= N)%nat -> 2 * pad < barHeight ->
  length (marker_n (updateTimelineGeometry N barHeight pad)) = N /\
  (forall i, (i < N)%nat ->
     exists r,
       nth i (marker_n (updateTimelineGeometry N barHeight pad)) NaN = Num r /\
       r == of_nat i / (of_nat N - 1)) /\
  nth 0 (yPositions (updateTimelineGeometry N barHeight pad)) 0 == pad /\
  nth (N - 1) (yPositions (updateTimelineGeometry N barHeight pad)) 0
    == barHeight - pad.
Proof.
  intros HN HH.
  assert (Hn : 1 <= of_nat N - 1).
  { pose proof (of_nat_le 2 N HN) as H2. change (of_nat 2) with 2 in H2. lra. }
  assert (Hu : usable_height barHeight pad == barHeight - 2 * pad)
    by (unfold usable_height; split_minmax; lra).
  split; [|split; [|split]].
  - destruct N as [|[|N]]; [lia | lia |].
    cbn [updateTimelineGeometry marker_n]. now rewrite !length_map, length_seq.
  - intros i Hi.
    destruct (clampedTop_even N barHeight pad i HN HH Hi) as (st & Hst & Hd & Ec).
    destruct N as [|[|N]]; [lia | lia |].
    cbn [updateTimelineGeometry marker_n].
    rewrite nth_map_jsnum by (now rewrite length_map, length_seq).
    rewrite nth_map_seq by exact Hi.
    rewrite js_div_nonzero by lra.
    eexists. split; [reflexivity|].
    set (c := clampedTop (S (S N)) barHeight pad i) in *.
    set (n1 := of_nat (S (S N)) - 1) in *.
    assert (Hi' : of_nat i <= n1).
    { unfold n1. pose proof (of_nat_le (S i) (S (S N)) Hi) as H3.
      rewrite of_nat_S in H3. lra. }
    pose proof (of_nat_nonneg i) as Hi0.
    assert (Eq : (c - pad) / usable_height barHeight pad == of_nat i / n1).
    { rewrite Hu, Ec, <- Hd. field. split; lra. }
    assert (Hr : 0 <= of_nat i / n1 <= 1).
    { split.
      - apply Qle_shift_div_l; lra.
      - apply Qle_shift_div_r; lra. }
    revert Eq Hr. generalize ((c - pad) / usable_height barHeight pad)
                             (of_nat i / n1).
    intros a b Eq Hr. split_minmax; lra.
  - rewrite yPositions_many, nth_map_seq by lia.
    destruct (clampedTop_even N barHeight pad 0 HN HH) as (st & _ & _ & Ec);
      [lia|].
    rewrite Ec. change (of_nat 0) with 0. lra.
  - rewrite yPositions_many, nth_map_seq by lia.
    destruct (clampedTop_even N barHeight pad (N - 1) HN HH)
      as (st & _ & Hd & Ec); [lia|].
    rewrite Ec.
    assert (E : of_nat (N - 1) == of_nat N - 1).
    { replace N with (S (N - 1)) at 2 by lia. rewrite of_nat_S. lra. }
    rewrite E, Hd. lra.
Qed.

Lemma X3_even_distribution_witness :
  (2 <= 5)%nat /\ 2 * 12 < 200 /\
  nth 0 (yPositions (updateTimelineGeometry 5 200 12)) 0 == 12 /\
  nth (5 - 1) (yPositions (updateTimelineGeometry 5 200 12)) 0 == 200 - 12.
Proof.
  assert (H1 : (2 <= 5)%nat) by lia.
  assert (H2 : 2 * 12 < 200) by (vm_compute; reflexivity).
  split; [exact H1|]. split; [exact H2|].
  split; apply (X3_even_distribution 5 200 12 H1 H2).
Defined.

(** ** The idle correction pass *)

(** X4.  For every stylesheet, bar height and list of cached normalized
    positions, [reapplyMinGapAfterResize] writes back as many positions
    as it read, each a finite number within [[0, 1]], and they do not
    decrease along the marker order. *)
Theorem X4_correction_pass_sorted_unit
    (css : css_env) (barHeight : Q) (cached : list Q) :
  length (reapplyMinGapAfterResize css barHeight cached) = length cached /\
  (forall i, (i < length cached)%nat ->
     exists r,
       nth i (reapplyMinGapAfterResize css barHeight cached) NaN = Num r /\
       0 <= r <= 1) /\
  (forall i, (S i < length cached)%nat ->
     exists a b,
       nth i (reapplyMinGapAfterResize css barHeight cached) NaN = Num a /\
       nth (S i) (reapplyMinGapAfterResize css barHeight cached) NaN = Num b /\
       a <= b).
Proof.
  unfold reapplyMinGapAfterResize.
  set (pad := getTrackPadding css).
  set (usable := Qmax 0 (barHeight - 2 * pad)).
  set (g := getEffectiveMinGap (getMinGap css) usable (length cached)).
  set (desired := map (fun n => pad + Qmax 0 (Qmin 1 n) * usable) cached).
  set (adj := applyMinGap desired pad (pad + usable) g).
  assert (Hlen : length adj = length cached).
  { unfold adj. rewrite applyMinGap_length. unfold desired.
    now rewrite length_map. }
  assert (Hu : 0 <= usable) by (unfold usable; split_minmax; lra).
  pose proof (reapply_denominator_ge_1 pad (pad + usable)) as HD.
  set (D := reapply_denominator pad (pad + usable)) in *.
  assert (Hf : forall top,
            clamp01 (js_div (top - pad) D)
            = Num (Qmax 0 (Qmin 1 ((top - pad) / D)))).
  { intros top. rewrite js_div_nonzero by lra. reflexivity. }
  split; [now rewrite length_map|]. split.
  - intros i Hi. rewrite nth_map_jsnum by lia. rewrite Hf.
    eexists. split; [reflexivity|]. split_minmax; lra.
  - intros i Hi. rewrite !nth_map_jsnum by lia. rewrite !Hf.
    eexists. eexists. split; [reflexivity|]. split; [reflexivity|].
    assert (Hs : nth i adj 0 <= nth (S i) adj 0).
    { pose proof (gapped_nth 0 adj i) as Hn.
      assert (gapped 0 adj).
      { unfold adj. apply applyMinGap_sorted; [|lra].
        apply getEffectiveMinGap_nonneg. }
      specialize (Hn H). rewrite Hlen in Hn. specialize (Hn Hi). lra. }
    assert (Hq : (nth i adj 0 - pad) / D <= (nth (S i) adj 0 - pad) / D)
      by (apply Qdiv_le_mono; lra).
    revert Hq. generalize ((nth i adj 0 - pad) / D)
                          ((nth (S i) adj 0 - pad) / D).
    intros a b Hq. split_minmax; lra.
Qed.

Lemma gapped_of_nth (g : Q) (l : list Q) :
  (forall i, (S i < length l)%nat -> nth i l 0 + g <= nth (S i) l 0) ->
  gapped g l.
Proof.
  induction l as [|x [|y l] IH]; intros H; try exact I.
  apply gapped_cons. split.
  - apply (H 0%nat). simpl. lia.
  - apply IH. intros k Hk. apply (H (S k)). simpl in *. lia.
Qed.

Lemma within_of_nth (lo hi : Q) (l : list Q) :
  (forall i, (i < length l)%nat -> lo <= nth i l 0 <= hi) -> within lo hi l.
Proof.
  intros H. unfold within. apply Forall_forall. intros y Hy.
  destruct (In_nth _ _ 0 Hy) as (k & Hk & <-). now apply H.
Qed.

Lemma nth_map_Q (f : Q -> Q) (l : list Q) (i : nat) :
  (i < length l)%nat -> nth i (map f l) 0 = f (nth i l 0).
Proof.
  intros Hi. rewrite (nth_indep _ 0 (f 0)) by (now rewrite length_map).
  apply map_nth.
Qed.

(** The evenly distributed normalized positions of [N] markers. *)
Lemma even_fraction_bounds (N i : nat) :
  (2 <= N)%nat -> (i < N)%nat ->
  0 <= of_nat i / (of_nat N - 1) <= 1.
Proof.
  intros HN Hi.
  assert (Hn : 1 <= of_nat N - 1).
  { pose proof (of_nat_le 2 N HN) as H2. change (of_nat 2) with 2 in H2. lra. }
  pose proof (of_nat_nonneg i) as Hi0.
  assert (Hi' : of_nat i <= of_nat N - 1).
  { pose proof (of_nat_le (S i) N Hi) as H3. rewrite of_nat_S in H3. lra. }
  split; [apply Qle_shift_div_l | apply Qle_shift_div_r]; lra.
Qed.

(** X5.  The idle correction pass leaves an even distribution alone:
    on a bar whose usable height is at least 1px, with the cached
    normalized positions [i / (N - 1)] that [updateTimelineGeometry]
    assigns to [N >= 2] markers, [reapplyMinGapAfterResize] writes back
    the same positions, whatever the configured minimum gap. *)
Theorem X5_correction_pass_keeps_even_distribution
    (css : css_env) (barHeight : Q) (N : nat) :
  (2 <= N)%nat -> 1 <= barHeight - 2 * getTrackPadding css ->
  forall i, (i < N)%nat ->
    exists r,
      nth i (reapplyMinGapAfterResize css barHeight
               (map (fun k => of_nat k / (of_nat N - 1)) (seq 0 N))) NaN
        = Num r /\
      r == of_nat i / (of_nat N - 1).
Proof.
  intros HN HH i Hi. unfold reapplyMinGapAfterResize.
  set (pad := getTrackPadding css) in *.
  set (cached := map (fun k => of_nat k / (of_nat N - 1)) (seq 0 N)).
  assert (Hlc : length cached = N) by (unfold cached; now rewrite length_map, length_seq).
  rewrite Hlc.
  set (usable := Qmax 0 (barHeight - 2 * pad)).
  assert (Hu : usable == barHeight - 2 * pad) by (unfold usable; split_minmax; lra).
  set (g := getEffectiveMinGap (getMinGap css) usable N).
  assert (Hg : g * (of_nat N - 1) <= usable)
    by (apply getEffectiveMinGap_feasible; lra).
  assert (Hn : 1 <= of_nat N - 1).
  { pose proof (of_nat_le 2 N HN) as H2. change (of_nat 2) with 2 in H2. lra. }
  set (desired := map (fun n => pad + Qmax 0 (Qmin 1 n) * usable) cached).
  assert (Hld : length desired = N) by (unfold desired; now rewrite length_map).
  assert (Hd : forall k, (k < N)%nat ->
            nth k desired 0 == pad + of_nat k / (of_nat N - 1) * usable).
  { intros k Hk. unfold desired.
    rewrite nth_map_Q by lia. unfold cached. rewrite nth_map_seq by exact Hk.
    pose proof (even_fraction_bounds N k HN Hk) as Hb.
    revert Hb. generalize (of_nat k / (of_nat N - 1)). intros f Hb.
    assert (E : Qmax 0 (Qmin 1 f) == f) by (split_minmax; lra).
    rewrite E. reflexivity. }
  assert (Hadj : Forall2 Qeq (applyMinGap desired pad (pad + usable) g) desired).
  { apply applyMinGap_spaced.
    - apply within_of_nth. intros k Hk. rewrite Hld in Hk.
      rewrite (Hd k Hk).
      pose proof (even_fraction_bounds N k HN Hk) as Hb.
      revert Hb. generalize (of_nat k / (of_nat N - 1)). intros f Hb. nra.
    - apply gapped_of_nth. intros k Hk. rewrite Hld in Hk.
      rewrite (Hd k), (Hd (S k)) by lia. rewrite of_nat_S.
      assert (E : (of_nat k + 1) / (of_nat N - 1)
                  == of_nat k / (of_nat N - 1) + 1 / (of_nat N - 1))
        by (field; lra).
      rewrite E.
      assert (Es : 1 / (of_nat N - 1) * (of_nat N - 1) == 1) by (field; lra).
      revert Es. generalize (of_nat k / (of_nat N - 1)) (1 / (of_nat N - 1)).
      intros f s Es.
      assert (Hs : 0 < s) by nra.
      assert (g <= s * usable); [|nra].
      assert (g * (of_nat N - 1) <= s * usable * (of_nat N - 1)) by nra.
      nra. }
  rewrite nth_map_jsnum by (rewrite applyMinGap_length; lia).
  pose proof (Forall2_Qeq_nth _ _ i Hadj) as Ei.
  rewrite (Hd i Hi) in Ei.
  pose proof (reapply_denominator_ge_1 pad (pad + usable)) as HD.
  rewrite js_div_nonzero by lra.
  eexists. split; [reflexivity|].
  assert (ED : reapply_denominator pad (pad + usable) == usable).
  { unfold reapply_denominator. split_minmax; lra. }
  rewrite ED, Ei.
  pose proof (even_fraction_bounds N i HN Hi) as Hb.
  assert (Eq : (pad + of_nat i / (of_nat N - 1) * usable - pad) / usable
               == of_nat i / (of_nat N - 1)) by (field; lra).
  rewrite Eq. revert Hb. generalize (of_nat i / (of_nat N - 1)).
  intros f Hb. split_minmax; lra.
Qed.

Lemma X5_correction_pass_keeps_even_distribution_witness :
  (2 <= 3)%nat /\ 1 <= 200 - 2 * getTrackPadding no_stylesheet /\
  exists r,
    nth 1 (reapplyMinGapAfterResize no_stylesheet 200
             (map (fun k => of_nat k / (of_nat 3 - 1)) (seq 0 3))) NaN
      = Num r /\
    r == of_nat 1 / (of_nat 3 - 1).
Proof.
  assert (H1 : (2 <= 3)%nat) by lia.
  assert (H2 : 1 <= 200 - 2 * getTrackPadding no_stylesheet)
    by (vm_compute; discriminate).
  split; [exact H1|]. split; [exact H2|].
  apply (X5_correction_pass_keeps_even_distribution
           no_stylesheet 200 3 H1 H2 1%nat). lia.
Defined.

(** ** Normalized positions at a rebuild *)

Lemma contentSpan_pos (offsets : list Q) : 0 < contentSpan offsets.
Proof.
  unfold contentSpan. destruct offsets as [|first rest]; [lra|].
  destruct (Qlt_le_dec 0 _); lra.
Qed.

Lemma rebuild_n_nth (first : Q) (rest : list Q) (i : nat) :
  (i < length (first :: rest))%nat ->
  nth i (rebuild_n (first :: rest)) NaN
  = Num (Qmax 0 (Qmin 1 ((nth i (first :: rest) 0 - first)
                         / contentSpan (first :: rest)))).
Proof.
  intros Hi. unfold rebuild_n. rewrite nth_map_jsnum by exact Hi.
  pose proof (contentSpan_pos (first :: rest)).
  rewrite js_div_nonzero by lra. reflexivity.
Qed.

(** X6.  The normalized positions that [recalculateAndRenderMarkers]
    gives to new markers are finite numbers within [[0, 1]] for every
    list of turn offsets (the span is never zero); the first marker
    gets 0; the last gets 1 when it lies below the first; and a marker
    that lies no higher than its predecessor gets no smaller a
    position. *)
Theorem X6_rebuild_positions (offsets : list Q) :
  length (rebuild_n offsets) = length offsets /\
  (forall i, (i < length offsets)%nat ->
     exists r, nth i (rebuild_n offsets) NaN = Num r /\ 0 <= r <= 1) /\
  (offsets <> [] ->
     exists r, nth 0 (rebuild_n offsets) NaN = Num r /\ r == 0) /\
  (nth 0 offsets 0 < last offsets 0 ->
     exists r, nth (length offsets - 1) (rebuild_n offsets) NaN = Num r /\
               r == 1) /\
  (forall i, (S i < length offsets)%nat ->
     nth i offsets 0 <= nth (S i) offsets 0 ->
     exists a b,
       nth i (rebuild_n offsets) NaN = Num a /\
       nth (S i) (rebuild_n offsets) NaN = Num b /\ a <= b).
Proof.
  destruct offsets as [|first rest].
  - split; [reflexivity|]. split; [intros i Hi; simpl in Hi; lia|].
    split; [intros H; contradiction|]. split; [cbn; intros H; lra|].
    intros i Hi; simpl in Hi; lia.
  - pose proof (contentSpan_pos (first :: rest)) as Hpos.
    split; [unfold rebuild_n; now rewrite length_map|].
    split; [|split; [|split]].
    + intros i Hi. rewrite rebuild_n_nth by exact Hi.
      eexists. split; [reflexivity|]. split_minmax; lra.
    + intros _. rewrite rebuild_n_nth by (simpl; lia).
      eexists. split; [reflexivity|]. cbn [nth].
      assert (E : (first - first) / contentSpan (first :: rest) == 0)
        by (field; lra).
      rewrite E. split_minmax; lra.
    + cbn [nth]. intros Hlast.
      rewrite rebuild_n_nth by (simpl; lia).
      eexists. split; [reflexivity|].
      assert (El : nth (length (first :: rest) - 1) (first :: rest) 0
                   = last (first :: rest) 0).
      { destruct (@exists_last _ (first :: rest)) as (l' & a & E);
          [discriminate|].
        rewrite E, last_last, length_app, app_nth2 by (simpl; lia).
        replace (length l' + length [a] - 1 - length l')%nat with 0%nat
          by (simpl; lia).
        reflexivity. }
      rewrite El.
      assert (Es : contentSpan (first :: rest) == last (first :: rest) 0 - first).
      { unfold contentSpan. destruct rest as [|x rest]; [simpl in Hlast; lra|].
        cbn [length Nat.ltb Nat.leb].
        rewrite (last_nonempty_indep first (x :: rest) first 0).
        destruct (Qlt_le_dec 0 _); lra. }
      assert (E : (last (first :: rest) 0 - first) / contentSpan (first :: rest)
                  == 1) by (rewrite Es; field; lra).
      rewrite E. split_minmax; lra.
    + intros i Hi Hle. rewrite !rebuild_n_nth by (simpl in *; lia).
      eexists. eexists. split; [reflexivity|]. split; [reflexivity|].
      assert (Hq : (nth i (first :: rest) 0 - first) / contentSpan (first :: rest)
                   <= (nth (S i) (first :: rest) 0 - first)
                      / contentSpan (first :: rest))
        by (apply Qdiv_le_mono; lra).
      revert Hq.
      generalize ((nth i (first :: rest) 0 - first) / contentSpan (first :: rest))
                 ((nth (S i) (first :: rest) 0 - first)
                  / contentSpan (first :: rest)).
      intros a b Hq. split_minmax; lra.
Qed.

(** ** Main-to-track synchronisation *)

Lemma js_round_bounds (x : Q) : x - (1 # 2) < js_round x <= x + (1 # 2).
Proof.
  unfold js_round. pose proof (Qfloor_le (x + (1 # 2))) as Hl.
  pose proof (Qlt_floor (x + (1 # 2))) as Hu.
  rewrite inject_Z_plus in Hu. change (inject_Z 1) with 1 in Hu. lra.
Qed.

Lemma Qabs_self_small (t : Q) : Qabs (t - t) <= 1.
Proof. apply Qabs_case; intros; lra. Qed.

(** X7.  [syncTimelineTrackToMain] pins the track to 0 when its content
    fits the viewport (within 1px); when the content overflows and no
    slider drag is in progress, the track ends within 1px of the target
    [round(r * maxScroll)], which lies between 0 and [maxScroll + 1/2];
    and running it a second time on its own result changes nothing. *)
Theorem X7_track_sync
    (contentHeight trackClientHeight trackScrollTop : Q) (sliderDragging : bool)
    (scrollTop clientHeight firstUserTurnOffset contentSpanPx : Q) :
  (~ contentHeight == 0 -> 0 < trackClientHeight ->
   contentHeight <= trackClientHeight + 1 ->
   syncTimelineTrackToMain contentHeight trackClientHeight trackScrollTop
     sliderDragging scrollTop clientHeight firstUserTurnOffset contentSpanPx
   = 0) /\
  (0 < trackClientHeight -> trackClientHeight + 1 < contentHeight ->
   sliderDragging = false ->
   exists r,
     scroll_ratio scrollTop clientHeight firstUserTurnOffset contentSpanPx
       = Num r /\
     0 <= js_round (r * (contentHeight - trackClientHeight))
       <= contentHeight - trackClientHeight + (1 # 2) /\
     Qabs (syncTimelineTrackToMain contentHeight trackClientHeight
             trackScrollTop sliderDragging scrollTop clientHeight
             firstUserTurnOffset contentSpanPx
           - js_round (r * (contentHeight - trackClientHeight))) <= 1) /\
  syncTimelineTrackToMain contentHeight trackClientHeight
    (syncTimelineTrackToMain contentHeight trackClientHeight trackScrollTop
       sliderDragging scrollTop clientHeight firstUserTurnOffset contentSpanPx)
    sliderDragging scrollTop clientHeight firstUserTurnOffset contentSpanPx
  = syncTimelineTrackToMain contentHeight trackClientHeight trackScrollTop
      sliderDragging scrollTop clientHeight firstUserTurnOffset contentSpanPx.
Proof.
  split; [|split].
  - intros Hc Ht Hfit. unfold syncTimelineTrackToMain.
    destruct (Qeq_bool contentHeight 0) eqn:E;
      [apply Qeq_bool_iff in E; contradiction|].
    destruct (Qlt_le_dec 0 trackClientHeight); [|lra].
    destruct (Qlt_le_dec (trackClientHeight + 1) contentHeight); [lra|].
    reflexivity.
  - intros Ht Hover Hdrag. subst sliderDragging.
    destruct (scroll_ratio_finite scrollTop clientHeight
                firstUserTurnOffset contentSpanPx) as (r & Er & Hr).
    exists r. split; [exact Er|].
    assert (Em : Qmax 0 (contentHeight - trackClientHeight)
                 = contentHeight - trackClientHeight).
    { unfold Qmax, GenericMinMax.gmax.
      destruct (0 ?= contentHeight - trackClientHeight) eqn:Ec; try reflexivity.
      - apply Qeq_alt in Ec. lra.
      - apply Qgt_alt in Ec. lra. }
    set (M := contentHeight - trackClientHeight) in *.
    assert (HM : 0 < M) by (unfold M; lra).
    pose proof (js_round_bounds (r * M)) as Hb.
    split.
    + split.
      * unfold js_round. change 0 with (inject_Z 0). rewrite <- Zle_Qle.
        rewrite <- (Qfloor_Z 0). apply Qfloor_resp_le.
        change (inject_Z 0) with 0. nra.
      * nra.
    + unfold syncTimelineTrackToMain.
      assert (Hc : Qeq_bool contentHeight 0 = false).
      { destruct (Qeq_bool contentHeight 0) eqn:E; [|reflexivity].
        apply Qeq_bool_iff in E. lra. }
      rewrite Hc.
      destruct (Qlt_le_dec 0 trackClientHeight); [|lra].
      destruct (Qlt_le_dec (trackClientHeight + 1) contentHeight); [|lra].
      rewrite Er. fold M. rewrite Em.
      destruct (Qlt_le_dec 1 (Qabs (trackScrollTop - js_round (r * M))))
        as [Hfar|Hnear]; [apply Qabs_self_small | exact Hnear].
  - unfold syncTimelineTrackToMain.
    destruct (Qeq_bool contentHeight 0); [reflexivity|].
    destruct (Qlt_le_dec 0 trackClientHeight); [|reflexivity].
    destruct (Qlt_le_dec (trackClientHeight + 1) contentHeight); [|reflexivity].
    destruct sliderDragging; [reflexivity|].
    destruct (scroll_ratio _ _ _ _) as [r| |]; try reflexivity.
    set (t := js_round (r * Qmax 0 (contentHeight - trackClientHeight))).
    destruct (Qlt_le_dec 1 (Qabs (trackScrollTop - t))) as [Hfar|Hnear].
    + destruct (Qlt_le_dec 1 (Qabs (t - t))) as [Hbad|]; [|reflexivity].
      pose proof (Qabs_self_small t). lra.
    + destruct (Qlt_le_dec 1 (Qabs (trackScrollTop - t))); [lra | reflexivity].
Qed.

Lemma X7_track_sync_witness :
  0 < 400 /\ 400 + 1 < 1000 /\ false = false /\
  exists r,
    scroll_ratio 500 800 100 2000 = Num r /\
    0 <= js_round (r * (1000 - 400)) <= 1000 - 400 + (1 # 2) /\
    Qabs (syncTimelineTrackToMain 1000 400 0 false 500 800 100 2000
          - js_round (r * (1000 - 400))) <= 1.
Proof.
  assert (H1 : 0 < 400) by (vm_compute; reflexivity).
  assert (H2 : 400 + 1 < 1000) by (vm_compute; reflexivity).
  split; [exact H1|]. split; [exact H2|]. split; [reflexivity|].
  apply (X7_track_sync 1000 400 0 false 500 800 100 2000);
    [exact H1 | exact H2 | reflexivity].
Defined.

Lemma scroll_ratio_value
    (scrollTop clientHeight firstUserTurnOffset contentSpanPx : Q) :
  scroll_ratio scrollTop clientHeight firstUserTurnOffset contentSpanPx
  = Num (Qmax 0 (Qmin 1 ((reference_line scrollTop clientHeight
                          - or_default firstUserTurnOffset 0)
                         / scroll_span contentSpanPx))).
Proof.
  unfold scroll_ratio. pose proof (scroll_span_ge_1 contentSpanPx).
  rewrite js_div_nonzero by lra. reflexivity.
Qed.

(** X8.  The scroll ratio of [syncTimelineTrackToMain] follows the main
    scroll position: it does not decrease when [scrollTop] grows, it is
    0 while the reference line is at or above the first turn, and it is
    1 once the reference line is a full span below it. *)
Theorem X8_scroll_ratio_monotone
    (clientHeight firstUserTurnOffset contentSpanPx : Q) :
  (forall scrollTop scrollTop', scrollTop <= scrollTop' ->
     exists r r',
       scroll_ratio scrollTop clientHeight firstUserTurnOffset contentSpanPx
         = Num r /\
       scroll_ratio scrollTop' clientHeight firstUserTurnOffset contentSpanPx
         = Num r' /\
       r <= r') /\
  (forall scrollTop,
     reference_line scrollTop clientHeight <= or_default firstUserTurnOffset 0 ->
     exists r,
       scroll_ratio scrollTop clientHeight firstUserTurnOffset contentSpanPx
         = Num r /\ r == 0) /\
  (forall scrollTop,
     or_default firstUserTurnOffset 0 + scroll_span contentSpanPx
       <= reference_line scrollTop clientHeight ->
     exists r,
       scroll_ratio scrollTop clientHeight firstUserTurnOffset contentSpanPx
         = Num r /\ r == 1).
Proof.
  pose proof (scroll_span_ge_1 contentSpanPx) as Hs.
  set (span := scroll_span contentSpanPx) in *.
  set (first := or_default firstUserTurnOffset 0).
  split; [|split].
  - intros st st' Hle. rewrite !scroll_ratio_value. fold span first.
    eexists. eexists. split; [reflexivity|]. split; [reflexivity|].
    assert (Hq : (reference_line st clientHeight - first) / span
                 <= (reference_line st' clientHeight - first) / span).
    { apply Qdiv_le_mono; [lra|]. unfold reference_line. lra. }
    revert Hq. generalize ((reference_line st clientHeight - first) / span)
                          ((reference_line st' clientHeight - first) / span).
    intros a b Hq. split_minmax; lra.
  - intros st Hle. rewrite scroll_ratio_value. fold span first.
    eexists. split; [reflexivity|].
    assert (Hq : (reference_line st clientHeight - first) / span <= 0).
    { apply Qle_shift_div_r; lra. }
    revert Hq. generalize ((reference_line st clientHeight - first) / span).
    intros a Hq. split_minmax; lra.
  - intros st Hle. rewrite scroll_ratio_value. fold span first.
    eexists. split; [reflexivity|].
    assert (Hq : 1 <= (reference_line st clientHeight - first) / span).
    { apply Qle_shift_div_l; lra. }
    revert Hq. generalize ((reference_line st clientHeight - first) / span).
    intros a Hq. split_minmax; lra.
Qed.

(** ** Active-marker selection and commits *)

Lemma scan_active_leading_run (ms : list Marker) (ref : Q) (sel : Marker) :
  scan_active ms ref sel
  = match leading_run ms ref with
    | O => sel
    | S k => nth k ms sel
    end.
Proof.
  revert sel. induction ms as [|m ms IH]; intros sel; [reflexivity|].
  cbn [scan_active leading_run].
  destruct (Qlt_le_dec ref (marker_top m)); [reflexivity|].
  rewrite IH. destruct (leading_run ms ref) as [|k] eqn:E; [reflexivity|].
  cbn [nth]. apply nth_indep.
  clear IH. revert k E. induction ms as [|m' ms IHm]; intros k E.
  - discriminate.
  - cbn [leading_run] in E. destruct (Qlt_le_dec ref (marker_top m'));
      [discriminate|]. injection E as E. destruct k as [|k]; [simpl; lia|].
    simpl. apply -> Nat.succ_lt_mono. now apply IHm.
Qed.

Lemma leading_run_le_length (ms : list Marker) (ref : Q) :
  (leading_run ms ref <= length ms)%nat.
Proof.
  induction ms as [|m ms IH]; [simpl; lia|]. cbn [leading_run].
  destruct (Qlt_le_dec ref (marker_top m)); simpl; lia.
Qed.

Lemma leading_run_mono (ms : list Marker) (ref ref' : Q) :
  ref <= ref' -> (leading_run ms ref <= leading_run ms ref')%nat.
Proof.
  intros Hle. induction ms as [|m ms IH]; [simpl; lia|]. cbn [leading_run].
  destruct (Qlt_le_dec ref (marker_top m)); [lia|].
  destruct (Qlt_le_dec ref' (marker_top m)); [lra | lia].
Qed.

(** X9.  For every marker list, ordered by offset or not, the marker
    that [computeActiveByScroll] selects is the one at index
    [max(0, k - 1)], where [k] is the number of leading markers at or
    above the reference line; so a larger reference line (scrolling
    down) never moves the selection to an earlier marker. *)
Theorem X9_selection_monotone (ms : list Marker) (ref ref' : Q) :
  ref <= ref' ->
  select_active ms ref = nth_error ms (Nat.pred (leading_run ms ref)) /\
  select_active ms ref' = nth_error ms (Nat.pred (leading_run ms ref')) /\
  (Nat.pred (leading_run ms ref) <= Nat.pred (leading_run ms ref'))%nat.
Proof.
  intros Hle.
  assert (Hsel : forall r,
            select_active ms r = nth_error ms (Nat.pred (leading_run ms r))).
  { intros r. destruct ms as [|m0 rest]; [reflexivity|].
    unfold select_active. rewrite scan_active_leading_run.
    pose proof (leading_run_le_length (m0 :: rest) r) as Hl.
    destruct (leading_run (m0 :: rest) r) as [|k]; [reflexivity|].
    cbn [Nat.pred]. symmetry. apply nth_error_nth'. lia. }
  split; [apply Hsel|]. split; [apply Hsel|].
  pose proof (leading_run_mono ms ref ref' Hle). lia.
Qed.

Lemma X9_selection_monotone_witness :
  100 <= 260 /\
  (Nat.pred (leading_run [mkMarker "t1" 0; mkMarker "t2" 300; mkMarker "t3" 250]
                         100)
   <= Nat.pred (leading_run
                  [mkMarker "t1" 0; mkMarker "t2" 300; mkMarker "t3" 250]
                  260))%nat.
Proof.
  assert (H : 100 <= 260) by (vm_compute; discriminate).
  split; [exact H|].
  apply (X9_selection_monotone
           [mkMarker "t1" 0; mkMarker "t2" 300; mkMarker "t3" 250] 100 260 H).
Defined.

(** X10.  The second half of [computeActiveByScroll] limits the rate of
    changes: it commits a candidate itself only when at least
    [minActiveChangeInterval] has passed since the last committed
    change, and then the candidate becomes the active id at once; when
    it schedules a timer instead, the timer is due exactly
    [minActiveChangeInterval] after the last committed change and the
    candidate is the pending id. *)
Theorem X10_rate_limit (now : Q) (c : string) (s : state) :
  (committed (consider_candidate now c s) <> committed s ->
   lastActiveChangeTime s + minActiveChangeInterval <= now /\
   committed (consider_candidate now c s) = committed s ++ [c] /\
   activeTurnId (consider_candidate now c s) = Some c /\
   lastActiveChangeTime (consider_candidate now c s) = now /\
   timers (consider_candidate now c s) = timers s) /\
  (timers (consider_candidate now c s) <> timers s ->
   exists h due,
     timers (consider_candidate now c s) = (h, due) :: timers s /\
     due == lastActiveChangeTime s + minActiveChangeInterval /\
     activeChangeTimer (consider_candidate now c s) = Some h /\
     pendingActiveId (consider_candidate now c s) = Some c /\
     committed (consider_candidate now c s) = committed s).
Proof.
  unfold consider_candidate.
  destruct (same_id (activeTurnId s) (Some c));
    [split; intros H; now contradiction H|].
  destruct (Qlt_le_dec (now - lastActiveChangeTime s) minActiveChangeInterval)
    as [Hlt|Hge].
  - destruct (truthy_handle (activeChangeTimer (set_pending (Some c) s)));
      cbn; (split; [intros H; now contradiction H|]);
      [intros H; now contradiction H|].
    intros _. eexists. eexists. split; [reflexivity|].
    split; [|repeat split; reflexivity].
    split_minmax; lra.
  - cbn. split; [|intros H; now contradiction H].
    intros _. split; [lra|]. repeat split; reflexivity.
Qed.

(** X11.  Teardown cancels the commit timer: after [destroy] in any
    reachable state no commit callback is scheduled, no marker and no
    active or pending id is left, and neither a late timer nor another
    scroll pass changes the state. *)
Theorem X11_nothing_after_destroy (es : list event) :
  timers (destroy (run initial_state es)) = [] /\
  activeChangeTimer (destroy (run initial_state es)) = None /\
  markers (destroy (run initial_state es)) = [] /\
  activeTurnId (destroy (run initial_state es)) = None /\
  pendingActiveId (destroy (run initial_state es)) = None /\
  (forall h now,
     fire_timer h now (destroy (run initial_state es))
     = destroy (run initial_state es)) /\
  (forall now scrollTop clientHeight,
     computeActiveByScroll now scrollTop clientHeight
       (destroy (run initial_state es))
     = destroy (run initial_state es)).
Proof.
  pose proof (run_consistent es) as [Hn Hc].
  set (s := run initial_state es) in *.
  assert (Ht : timers (destroy s) = [] /\ activeChangeTimer (destroy s) = None).
  { unfold destroy. cbn. destruct (activeChangeTimer s) as [h|].
    - destruct Hc as (Hh & due & Et). destruct h; [lia|]. cbn.
      rewrite Et. split; [apply remove_timer_self | reflexivity].
    - cbn. now split. }
  destruct Ht as [Ht Ha].
  split; [exact Ht|]. split; [exact Ha|].
  split; [reflexivity|]. split; [reflexivity|]. split; [reflexivity|].
  split.
  - intros h now. unfold fire_timer. now rewrite Ht.
  - intros now st ch. reflexivity.
Qed.

(** ** Tooltip box *)

Lemma floorQ_le (x : Q) : floorQ x <= x.
Proof. apply Qfloor_le. Qed.

Lemma floorQ_eq (a b : Q) : a == b -> floorQ a = floorQ b.
Proof. intros E. unfold floorQ. now rewrite (Qfloor_comp a b E). Qed.

Lemma floorQ_int (z : Z) : floorQ (inject_Z z) = inject_Z z.
Proof. unfold floorQ. now rewrite Qfloor_Z. Qed.

Lemma shrunk_width (room : Q) :
  floorQ (Qmax 120 room) <= room \/ floorQ (Qmax 120 room) == 120.
Proof.
  destruct (Qlt_le_dec room 120) as [Hlt|Hge].
  - right. assert (E : Qmax 120 room == 120) by (split_minmax; lra).
    rewrite (floorQ_eq _ _ E). change 120 with (inject_Z 120).
    now rewrite floorQ_int.
  - left. assert (E : Qmax 120 room == room) by (split_minmax; lra).
    rewrite (floorQ_eq _ _ E). apply floorQ_le.
Qed.

(** X12.  Wherever the anchor is, [placeTooltipAt] keeps the tooltip's
    top at or below the viewport padding, and its bottom above the lower
    padding when the window is high enough for it.  Horizontally the box
    never covers the anchor: either it ends left of the anchor (the gap
    away, up to rounding) and starts inside the left padding, or it
    starts right of the anchor, and then it ends inside the right
    padding unless its width is down to the floor of 120.  A box marked
    as placed right always starts right of the anchor. *)
Theorem X12_tooltip_box
    (css : css_env) (dot : rect) (vw vh : Q)
    (placement0 : side) (width0 height : Q) :
  viewportPad <= box_top (placeTooltipAt css dot vw vh placement0 width0 height) /\
  (2 * viewportPad + height <= vh ->
   box_top (placeTooltipAt css dot vw vh placement0 width0 height) + height
     <= vh - viewportPad) /\
  ((viewportPad
      <= box_left (placeTooltipAt css dot vw vh placement0 width0 height) /\
    box_left (placeTooltipAt css dot vw vh placement0 width0 height)
      + box_width (placeTooltipAt css dot vw vh placement0 width0 height)
      <= rect_left dot - tooltip_gap_of css + (1 # 2) /\
    box_placement (placeTooltipAt css dot vw vh placement0 width0 height)
      = SideLeft)
   \/
   (rect_right dot + tooltip_gap_of css - (1 # 2)
      <= box_left (placeTooltipAt css dot vw vh placement0 width0 height) /\
    (box_left (placeTooltipAt css dot vw vh placement0 width0 height)
       + box_width (placeTooltipAt css dot vw vh placement0 width0 height)
       <= vw - viewportPad
     \/ box_width (placeTooltipAt css dot vw vh placement0 width0 height)
        == 120))) /\
  (box_placement (placeTooltipAt css dot vw vh placement0 width0 height)
     = SideRight ->
   rect_right dot + tooltip_gap_of css - (1 # 2)
     <= box_left (placeTooltipAt css dot vw vh placement0 width0 height)).
Proof.
  unfold placeTooltipAt.
  set (gap := tooltip_gap_of css).
  pose proof (js_round_bounds (rect_left dot - gap - width0)) as HL.
  pose proof (js_round_bounds (rect_right dot + gap)) as HR.
  set (lft := js_round (rect_left dot - gap - width0)) in *.
  set (rgt := js_round (rect_right dot + gap)) in *.
  pose proof (floorQ_le width0) as Hfw.
  assert (Htop : forall t, viewportPad
                   <= Qmax viewportPad (Qmin (vh - height - viewportPad) t) /\
                 (2 * viewportPad + height <= vh ->
                  Qmax viewportPad (Qmin (vh - height - viewportPad) t) + height
                    <= vh - viewportPad)).
  { intros t. unfold viewportPad. split; [split_minmax; lra|].
    intros Hh. split_minmax; lra. }
  destruct placement0.
  - destruct (Qlt_le_dec lft viewportPad) as [Hlow|Hok].
    + destruct (Qle_bool (rgt + width0) (vw - viewportPad)) eqn:Efit.
      * apply Qle_bool_iff in Efit. cbn.
        split; [apply Htop|]. split; [apply Htop|].
        split; [right; split; [lra | left; lra] | intros _; lra].
      * cbn. split; [apply Htop|]. split; [apply Htop|].
        split; [|intros H; discriminate H].
        right. split; [lra|].
        destruct (shrunk_width (vw - viewportPad - rgt)) as [H|H];
          [left; lra | right; exact H].
    + cbn. split; [apply Htop|]. split; [apply Htop|].
      split; [left; repeat split; lra | intros H; discriminate H].
  - destruct (Qlt_le_dec (vw - viewportPad) (rgt + width0)) as [Hover|Hfit].
    + destruct (Qle_bool viewportPad lft) eqn:Ealt.
      * apply Qle_bool_iff in Ealt. cbn.
        split; [apply Htop|]. split; [apply Htop|].
        split; [left; repeat split; lra | intros H; discriminate H].
      * cbn. split; [apply Htop|]. split; [apply Htop|].
        split; [|intros _; lra].
        right. split; [lra|].
        destruct (shrunk_width (vw - viewportPad - rgt)) as [H|H];
          [left; lra | right; exact H].
    + cbn. split; [apply Htop|]. split; [apply Htop|].
      split; [right; split; [lra | left; lra] | intros _; lra].
Qed.


Lemma js_round_le_int (x : Q) (k : Z) : x <= inject_Z k -> js_round x <= inject_Z k.
Proof.
  intros Hx. unfold js_round. rewrite <- Zle_Qle.
  assert (H : (Qfloor (x + (1 # 2)) < k + 1)%Z).
  { rewrite Zlt_Qlt, inject_Z_plus. change (inject_Z 1) with 1.
    pose proof (Qfloor_le (x + (1 # 2))). lra. }
  lia.
Qed.

Lemma js_round_ge_int (x : Q) (k : Z) : inject_Z k <= x -> inject_Z k <= js_round x.
Proof.
  intros Hx. unfold js_round. rewrite <- Zle_Qle.
  rewrite <- (Qfloor_Z k). apply Qfloor_resp_le. lra.
Qed.

Lemma tiers_integer (t : Q) :
  In t tiers -> exists z, t = inject_Z z /\ (160 <= z <= 280)%Z.
Proof.
  unfold tiers. cbn [In]. intros H.
  repeat (destruct H as [<- | H]); try contradiction;
    [exists 280%Z | exists 240%Z | exists 200%Z | exists 160%Z];
    (split; [reflexivity | lia]).
Qed.

(** X14.  Placement and box agree when a tier fits: with a maximum
    width of at least 280 and a window whose width is a whole number of
    pixels, whenever the side chosen by [computePlacementInfo] has room
    for a tier ([avail >= 160]), [placeTooltipAt] keeps that side and
    that width, and the box lies inside the viewport padding on that
    side. *)
Theorem X14_placement_then_box
    (css : css_env) (dot : rect) (vw : Z) (vh height : Q) :
  280 <= tooltip_max css ->
  let p := computePlacementInfo css (rect_left dot) (rect_right dot)
             (inject_Z vw) in
  let avail :=
    match placement p with
    | SideRight => rightAvail (tooltip_gap_of css) (rect_right dot) (inject_Z vw)
    | SideLeft => leftAvail (tooltip_gap_of css) (rect_left dot)
    end in
  let b := placeTooltipAt css dot (inject_Z vw) vh (placement p) (width p)
             height in
  160 <= avail ->
  box_placement b = placement p /\
  box_width b == width p /\
  (placement p = SideLeft -> viewportPad <= box_left b) /\
  (placement p = SideRight ->
   box_left b + box_width b <= inject_Z vw - viewportPad).
Proof.
  intros HmaxW p avail b Havail.
  destruct (placement_with_unfold
              (getCSSVarNumber css "--timeline-tooltip-arrow-outside" 6)
              (getCSSVarNumber css "--timeline-tooltip-gap-visual" 12)
              (getCSSVarNumber css "--timeline-tooltip-gap-box" 8)
              (tooltip_max css) HmaxW (rect_left dot) (rect_right dot)
              (inject_Z vw)) as [Ep Ew].
  fold (tooltip_gap_of css) in Ep, Ew.
  fold (computePlacementInfo css (rect_left dot) (rect_right dot) (inject_Z vw))
    in Ep, Ew.
  fold p in Ep, Ew.
  set (gap := tooltip_gap_of css) in *.
  set (la := leftAvail gap (rect_left dot)) in *.
  set (ra := rightAvail gap (rect_right dot) (inject_Z vw)) in *.
  assert (Eavail : avail = match (if Qlt_bool la ra then SideRight else SideLeft)
                           with SideRight => ra | SideLeft => la end).
  { unfold avail. now rewrite Ep. }
  rewrite <- Eavail in Ew.
  destruct (largest_fitting_tier avail) as [t|] eqn:Ef;
    [|apply largest_fitting_tier_none in Ef; lra].
  apply largest_fitting_tier_some in Ef. destruct Ef as (Hin & Hfit & _).
  destruct (tiers_integer t Hin) as (tz & -> & Htz).
  assert (H160 : 160 <= inject_Z tz).
  { change 160 with (inject_Z 160). rewrite <- Zle_Qle. lia. }
  assert (Efl : floorQ (width p) = inject_Z tz).
  { rewrite (floorQ_eq _ _ Ew). apply floorQ_int. }
  assert (Hcase : (placement p = SideLeft /\ avail = la)
                  \/ (placement p = SideRight /\ avail = ra)).
  { rewrite Eavail, Ep. destruct (Qlt_bool la ra); [right | left]; now split. }
  unfold b, placeTooltipAt. fold gap.
  destruct Hcase as [[Es Ea] | [Es Ea]]; rewrite Es; rewrite Ea in Hfit.
  - (* left *)
    assert (Hroom : inject_Z 8 <= rect_left dot - gap - width p).
    { unfold la, leftAvail, viewportPad in Hfit.
      change (inject_Z 8) with 8. rewrite Ew.
      split_minmax; lra. }
    pose proof (js_round_ge_int _ _ Hroom) as Hr.
    change (inject_Z 8) with 8 in Hr.
    destruct (Qlt_le_dec (js_round (rect_left dot - gap - width p)) viewportPad)
      as [Hbad|Hok]; [unfold viewportPad in Hbad; lra|].
    cbn. split; [reflexivity|]. split; [rewrite Efl; symmetry; exact Ew|].
    split; [intros _; exact Hok | intros H; discriminate H].
  - (* right *)
    assert (Hroom : rect_right dot + gap <= inject_Z (vw - 8 - tz)).
    { unfold ra, rightAvail, viewportPad in Hfit.
      unfold Z.sub. rewrite !inject_Z_plus, !inject_Z_opp.
      change (inject_Z 8) with 8.
      split_minmax; lra. }
    pose proof (js_round_le_int _ _ Hroom) as Hr.
    unfold Z.sub in Hr. rewrite !inject_Z_plus, !inject_Z_opp in Hr.
    change (inject_Z 8) with 8 in Hr.
    destruct (Qlt_le_dec (inject_Z vw - viewportPad)
                (js_round (rect_right dot + gap) + width p)) as [Hbad|Hok];
      [unfold viewportPad in Hbad; lra|].
    cbn. split; [reflexivity|]. split; [rewrite Efl; symmetry; exact Ew|].
    split; [intros H; discriminate H|]. intros _. rewrite Efl.
    unfold viewportPad in *. lra.
Qed.

Lemma X14_placement_then_box_witness :
  280 <= tooltip_max no_stylesheet /\
  160 <= leftAvail (tooltip_gap_of no_stylesheet) 1200 /\
  box_placement
    (placeTooltipAt no_stylesheet (mkRect 1200 300 10 10) (inject_Z 1280) 720
       (placement (computePlacementInfo no_stylesheet
                     (rect_left (mkRect 1200 300 10 10))
                     (rect_right (mkRect 1200 300 10 10)) (inject_Z 1280)))
       (width (computePlacementInfo no_stylesheet
                 (rect_left (mkRect 1200 300 10 10))
                 (rect_right (mkRect 1200 300 10 10)) (inject_Z 1280)))
       76)
  = placement (computePlacementInfo no_stylesheet
                 (rect_left (mkRect 1200 300 10 10))
                 (rect_right (mkRect 1200 300 10 10)) (inject_Z 1280)).
Proof.
  assert (H1 : 280 <= tooltip_max no_stylesheet) by (vm_compute; discriminate).
  assert (H2 : 160 <= leftAvail (tooltip_gap_of no_stylesheet) 1200)
    by (vm_compute; discriminate).
  split; [exact H1|]. split; [exact H2|].
  pose proof (X14_placement_then_box no_stylesheet (mkRect 1200 300 10 10)
                1280 720 76 H1) as T.
  cbv zeta in T. apply T. exact H2.
Defined.

(** ** Truncation to three lines *)

Lemma shiftr1_bounds (lo hi : Z) :
  (0 <= lo)%Z -> (lo <= hi)%Z ->
  (lo <= Z.shiftr (lo + hi) 1 <= hi)%Z.
Proof.
  intros H0 Hle. rewrite Z.shiftr_div_pow2 by lia.
  change (2 ^ 1)%Z with 2%Z.
  split; [apply Z.div_le_lower_bound | apply Z.div_le_upper_bound]; lia.
Qed.

(** The search ends within the fuel it is given, at a length that fits
    (or at 0). *)
Lemma prefix_search_ends (fits : Z -> bool) (len : Z) (fuel : nat)
    (lo hi ans : Z) :
  (0 <= lo)%Z -> (hi <= len)%Z -> (hi - lo + 1 <= Z.of_nat fuel)%Z ->
  (0 <= ans <= len)%Z -> (ans = 0%Z \/ fits ans = true) ->
  exists r,
    prefix_search fuel fits lo hi ans = Some r /\
    (0 <= r <= len)%Z /\ (r = 0%Z \/ fits r = true).
Proof.
  revert lo hi ans. induction fuel as [|fuel IH]; intros lo hi ans Hlo Hhi Hf Ha Hfit.
  - cbn [prefix_search]. destruct (lo <=? hi)%Z eqn:E;
      [apply Z.leb_le in E; lia|]. eauto.
  - cbn [prefix_search]. destruct (lo <=? hi)%Z eqn:E; [|eauto].
    apply Z.leb_le in E. pose proof (shiftr1_bounds lo hi Hlo E) as Hm.
    set (mid := Z.shiftr (lo + hi) 1) in *.
    destruct (fits mid) eqn:Em.
    + apply IH; try lia. now right.
    + apply IH; try lia. exact Hfit.
Qed.

(** When shorter prefixes fit whenever longer ones do, the search ends
    at the longest prefix that fits. *)
Lemma prefix_search_longest (fits : Z -> bool) (len : Z) (fuel : nat)
    (lo hi ans : Z) :
  (forall j k, (0 <= j <= k)%Z -> (k <= len)%Z ->
               fits k = true -> fits j = true) ->
  (0 <= lo)%Z -> (hi <= len)%Z -> (hi - lo + 1 <= Z.of_nat fuel)%Z ->
  (forall k, (hi < k <= len)%Z -> fits k = false) ->
  ((ans = 0 /\ lo = 0)%Z \/ (ans = lo - 1)%Z) ->
  forall r, prefix_search fuel fits lo hi ans = Some r ->
  forall k, (r < k <= len)%Z -> fits k = false.
Proof.
  intros Hmono. revert lo hi ans.
  induction fuel as [|fuel IH]; intros lo hi ans Hlo Hhi Hf Hup Hans r Hr.
  - cbn [prefix_search] in Hr. destruct (lo <=? hi)%Z eqn:E; [discriminate|].
    apply Z.leb_gt in E. injection Hr as <-.
    intros k Hk. apply Hup. lia.
  - cbn [prefix_search] in Hr. destruct (lo <=? hi)%Z eqn:E.
    + apply Z.leb_le in E. pose proof (shiftr1_bounds lo hi Hlo E) as Hm.
      set (mid := Z.shiftr (lo + hi) 1) in *.
      destruct (fits mid) eqn:Em.
      * apply (IH (mid + 1)%Z hi mid); try lia; try assumption.
      * apply (IH lo (mid - 1)%Z ans); try lia; try assumption.
        intros k Hk. destruct (fits k) eqn:Ek; [|reflexivity].
        destruct (Z_le_gt_dec k hi) as [Hle|Hgt];
          [|rewrite Hup in Ek by lia; discriminate].
        assert (fits mid = true) by (apply (Hmono mid k); auto; lia).
        congruence.
    + apply Z.leb_gt in E. injection Hr as <-.
      intros k Hk. apply Hup. lia.
Qed.

(** X15.  [truncateToThreeLines] always returns, and the height it
    reports never exceeds the three-line budget.  If the whole
    (white-space normalized) text fits it is returned unchanged.
    Otherwise the text returned is the whole text or a trimmed prefix of
    some length [n] followed by the ellipsis, where that candidate fits
    unless [n = 0]; and if shorter candidates fit whenever longer ones
    do, no longer prefix fits: [n] is the longest. *)
Theorem X15_truncation_fits {char : Type}
    (is_space : char -> bool) (space ell : char)
    (offsetHeight : list char -> Q) (css : css_env) (text : list char) :
  exists res,
    truncateToThreeLines is_space space ell offsetHeight css text = Some res /\
    layout_height res <= three_line_budget css /\
    (offsetHeight (normalize_spaces is_space space text) <= three_line_budget css ->
     res = mkLayout (normalize_spaces is_space space text)
                    (offsetHeight (normalize_spaces is_space space text))) /\
    (three_line_budget css < offsetHeight (normalize_spaces is_space space text) ->
     exists n,
       (n <= length (normalize_spaces is_space space text))%nat /\
       layout_text res
       = (if (length (normalize_spaces is_space space text) <=? n)%nat
          then normalize_spaces is_space space text
          else ellipsized is_space ell (normalize_spaces is_space space text) n) /\
       (n = 0%nat \/
        offsetHeight
          (ellipsized is_space ell (normalize_spaces is_space space text) n)
          <= three_line_budget css) /\
       ((forall j k, (j <= k <= length (normalize_spaces is_space space text))%nat ->
           offsetHeight
             (ellipsized is_space ell (normalize_spaces is_space space text) k)
             <= three_line_budget css ->
           offsetHeight
             (ellipsized is_space ell (normalize_spaces is_space space text) j)
             <= three_line_budget css) ->
        forall k, (n < k <= length (normalize_spaces is_space space text))%nat ->
          three_line_budget css
          < offsetHeight
              (ellipsized is_space ell (normalize_spaces is_space space text) k))).
Proof.
  unfold truncateToThreeLines.
  set (maxH := three_line_budget css).
  set (raw := normalize_spaces is_space space text).
  destruct (Qle_bool (offsetHeight raw) maxH) eqn:Efast.
  - apply Qle_bool_iff in Efast. eexists. split; [reflexivity|].
    split; [exact Efast|]. split; [reflexivity|]. intros H. lra.
  - set (fits := fun mid : Z =>
                   Qle_bool (offsetHeight (ellipsized is_space ell raw
                                             (Z.to_nat mid))) maxH).
    set (len := Z.of_nat (length raw)).
    destruct (prefix_search_ends fits len (S (length raw)) 0 len 0)
      as (r & Er & Hr & Hfit); try lia.
    rewrite Er. eexists. split; [reflexivity|].
    split; [cbn; split_minmax; lra|].
    assert (Hslow : ~ offsetHeight raw <= maxH).
    { intros H. apply Qle_bool_iff in H. congruence. }
    split; [intros H; contradiction|]. intros _.
    exists (Z.to_nat r). split; [lia|]. split; [|split].
    + cbn [layout_text].
      destruct (len <=? r)%Z eqn:E1, (length raw <=? Z.to_nat r)%nat eqn:E2;
        try reflexivity.
      * apply Z.leb_le in E1. apply Nat.leb_gt in E2. lia.
      * apply Z.leb_gt in E1. apply Nat.leb_le in E2. lia.
    + destruct Hfit as [-> | Hfit]; [now left|]. right.
      unfold fits in Hfit. now apply Qle_bool_iff in Hfit.
    + intros Hmono k Hk.
      assert (Hk' : fits (Z.of_nat k) = false).
      { refine (prefix_search_longest fits len (S (length raw)) 0 len 0
                  _ _ _ _ _ _ r Er (Z.of_nat k) _); try lia.
        intros j0 k0 Hj Hk0 Hf. unfold fits in *.
        apply Qle_bool_iff in Hf. apply Qle_bool_iff.
        apply (Hmono (Z.to_nat j0) (Z.to_nat k0)); [lia | exact Hf]. }
      unfold fits in Hk'. rewrite Nat2Z.id in Hk'.
      destruct (Qlt_le_dec maxH (offsetHeight (ellipsized is_space ell raw k)))
        as [Hlt|Hle]; [exact Hlt|].
      apply Qle_bool_iff in Hle. congruence.
Qed.

(** ** Binary searches *)

Lemma gapped_nth_le (l : list Q) (i j : nat) :
  gapped 0 l -> (i <= j)%nat -> (j < length l)%nat ->
  nth i l 0 <= nth j l 0.
Proof.
  intros Hg. induction j as [|j IH]; intros Hij Hj.
  - replace i with 0%nat by lia. apply Qle_refl.
  - destruct (Nat.eq_dec i (S j)) as [->|Hne]; [apply Qle_refl|].
    pose proof (gapped_nth 0 l j Hg Hj) as Hstep.
    assert (nth i l 0 <= nth j l 0) by (apply IH; lia).
    lra.
Qed.

Lemma shiftr1_nat_bounds (lo hi : nat) :
  (lo < hi)%nat -> (lo <= Nat.shiftr (lo + hi) 1 < hi)%nat.
Proof.
  intros H. rewrite Nat.shiftr_div_pow2. change (2 ^ 1)%nat with 2%nat.
  split.
  - apply Nat.div_le_lower_bound; lia.
  - apply Nat.Div0.div_lt_upper_bound; lia.
Qed.

(** The search ends within [hi - lo] iterations, between [lo] and [hi];
    when [below] holds on an initial segment of the array only, it ends
    at the end of that segment. *)
Lemma bound_search_spec (below : Q -> bool) (arr : list Q) (fuel lo hi : nat) :
  (lo <= hi)%nat -> (hi <= length arr)%nat -> (hi - lo <= fuel)%nat ->
  exists r,
    bound_search fuel below arr lo hi = Some r /\
    (lo <= r <= hi)%nat /\
    ((forall i j, (i <= j)%nat -> (j < length arr)%nat ->
        below (nth j arr 0) = true -> below (nth i arr 0) = true) ->
     (forall j, (j < lo)%nat -> below (nth j arr 0) = true) ->
     (forall j, (hi <= j < length arr)%nat -> below (nth j arr 0) = false) ->
     (forall j, (j < r)%nat -> below (nth j arr 0) = true) /\
     (forall j, (r <= j < length arr)%nat -> below (nth j arr 0) = false)).
Proof.
  revert lo hi. induction fuel as [|fuel IH]; intros lo hi Hle Hhi Hf.
  - cbn [bound_search]. destruct (lo <? hi)%nat eqn:E;
      [apply Nat.ltb_lt in E; lia|].
    exists lo. split; [reflexivity|]. split; [lia|].
    intros _ Hlo Hup. split; [exact Hlo|].
    intros j Hj. apply Hup. lia.
  - cbn [bound_search]. destruct (lo <? hi)%nat eqn:E.
    + apply Nat.ltb_lt in E. pose proof (shiftr1_nat_bounds lo hi E) as Hm.
      set (mid := Nat.shiftr (lo + hi) 1) in *.
      destruct (below (nth mid arr 0)) eqn:Em.
      * destruct (IH (S mid) hi) as (r & Er & Hr & Hpart); try lia.
        exists r. split; [exact Er|]. split; [lia|].
        intros Hmono Hlo Hup. apply Hpart; try assumption.
        intros j Hj. apply (Hmono j mid); [lia | lia | exact Em].
      * destruct (IH lo mid) as (r & Er & Hr & Hpart); try lia.
        exists r. split; [exact Er|]. split; [lia|].
        intros Hmono Hlo Hup. apply Hpart; try assumption.
        intros j Hj. destruct (below (nth j arr 0)) eqn:Ej; [|reflexivity].
        rewrite (Hmono mid j) in Em; [discriminate | lia | lia | exact Ej].
    + apply Nat.ltb_ge in E.
      exists lo. split; [reflexivity|]. split; [lia|].
      intros _ Hlo Hup. split; [exact Hlo|].
      intros j Hj. apply Hup. lia.
Qed.

Lemma Qlt_bool_true (a b : Q) : Qlt_bool a b = true <-> a < b.
Proof.
  unfold Qlt_bool. destruct (Qlt_le_dec a b) as [Hlt|Hle]; split.
  - intros _. exact Hlt.
  - reflexivity.
  - discriminate.
  - intros H. lra.
Qed.

(** X16.  On positions in non-decreasing order both searches end, and
    they bracket a range: [lowerBound arr x] is at most the length,
    [upperBound arr y] is between [-1] and the last index, and an index
    lies between the two exactly when its position lies between [x] and
    [y]. *)
Theorem X16_bound_searches_bracket (arr : list Q) (x y : Q) :
  gapped 0 arr ->
  exists (first : nat) (last : Z),
    lowerBound arr x = Some first /\
    upperBound arr y = Some last /\
    (first <= length arr)%nat /\
    (-1 <= last < Z.of_nat (length arr))%Z /\
    forall j, (j < length arr)%nat ->
      ((Z.of_nat first <= Z.of_nat j <= last)%Z <-> x <= nth j arr 0 <= y).
Proof.
  intros Hg. unfold lowerBound, upperBound.
  destruct (bound_search_spec (fun v => Qlt_bool v x) arr
              (length arr) 0 (length arr))
    as (lo & Elo & Hlo & Plo); try lia.
  destruct (bound_search_spec (fun v => Qle_bool v y) arr
              (length arr) 0 (length arr))
    as (hi & Ehi & Hhi & Phi); try lia.
  rewrite Elo, Ehi. exists lo, (Z.of_nat hi - 1)%Z.
  split; [reflexivity|]. split; [reflexivity|]. split; [lia|].
  destruct Plo as [Plo1 Plo2].
  { intros i j Hij Hj H. apply Qlt_bool_true in H. apply Qlt_bool_true.
    pose proof (gapped_nth_le arr i j Hg Hij Hj). lra. }
  { intros j Hj. lia. }
  { intros j Hj. lia. }
  destruct Phi as [Phi1 Phi2].
  { intros i j Hij Hj H. apply Qle_bool_iff in H. apply Qle_bool_iff.
    pose proof (gapped_nth_le arr i j Hg Hij Hj). lra. }
  { intros j Hj. lia. }
  { intros j Hj. lia. }
  split; [lia|].
  intros j Hj. split.
  - intros [H1 H2]. split.
    + specialize (Plo2 j ltac:(lia)). cbv beta in Plo2.
      destruct (Qlt_le_dec (nth j arr 0) x) as [Hlt|Hle]; [|exact Hle].
      apply Qlt_bool_true in Hlt. congruence.
    + specialize (Phi1 j ltac:(lia)). cbv beta in Phi1.
      now apply Qle_bool_iff in Phi1.
  - intros [H1 H2].
    destruct (Nat.lt_ge_cases j lo) as [Hjlo|Hjlo].
    { specialize (Plo1 j Hjlo). cbv beta in Plo1.
      apply Qlt_bool_true in Plo1. lra. }
    destruct (Nat.lt_ge_cases j hi) as [Hjhi|Hjhi]; [lia|].
    specialize (Phi2 j ltac:(lia)). cbv beta in Phi2.
    apply Qle_bool_iff in H2. congruence.
Qed.

Lemma X16_bound_searches_bracket_witness :
  gapped 0 [1; 3; 5] /\
  exists (first : nat) (last : Z),
    lowerBound [1; 3; 5] 2 = Some first /\
    upperBound [1; 3; 5] 5 = Some last /\
    (first <= length [1; 3; 5])%nat /\
    (-1 <= last < Z.of_nat (length [1; 3; 5]))%Z /\
    forall j, (j < length [1; 3; 5])%nat ->
      ((Z.of_nat first <= Z.of_nat j <= last)%Z
       <-> 2 <= nth j [1; 3; 5] 0 <= 5).
Proof.
  assert (H : gapped 0 [1; 3; 5]).
  { cbn. split; [vm_compute; discriminate|]. split; [vm_compute; discriminate|exact I]. }
  split; [exact H|].
  exact (X16_bound_searches_bracket [1; 3; 5] 2 5 H).
Defined.

(** ** Smooth scrolling *)

(** The eased time [t / (d / 2)] runs from 0 to 2 over the duration. *)
Lemma eased_time (t d : Q) : 0 < d -> (t / (d / 2)) * d == 2 * t.
Proof. intros Hd. field. lra. Qed.

Lemma eased_time_le (t t' d : Q) :
  0 < d -> t <= t' -> t / (d / 2) <= t' / (d / 2).
Proof.
  intros Hd Hle. apply (Qmult_le_r _ _ d Hd).
  rewrite !eased_time by exact Hd. lra.
Qed.

Lemma eased_time_0 (d : Q) : 0 < d -> 0 / (d / 2) == 0.
Proof. intros Hd. field. lra. Qed.

Lemma eased_time_d (d : Q) : 0 < d -> d / (d / 2) == 2.
Proof. intros Hd. field. lra. Qed.

Lemma easeInOutQuad_total (t b c d : Q) :
  0 < d -> exists r, easeInOutQuad t b c d = Some r.
Proof.
  intros Hd. unfold easeInOutQuad.
  destruct (Qeq_bool d 0) eqn:E; [apply Qeq_bool_iff in E; lra|].
  destruct (Qlt_le_dec (t / (d / 2)) 1); eauto.
Qed.

(** The result is [b + c * f], for the fraction [f] that the same call
    gives from 0 to 1. *)
Lemma easeInOutQuad_linear (t b c d r f : Q) :
  easeInOutQuad t 0 1 d = Some f ->
  easeInOutQuad t b c d = Some r ->
  r == b + c * f.
Proof.
  unfold easeInOutQuad. destruct (Qeq_bool d 0); [discriminate|].
  set (u := t / (d / 2)). clearbody u.
  destruct (Qlt_le_dec u 1);
    intros Hf Hr; injection Hf as <-; injection Hr as <-;
    unfold Qdiv; ring.
Qed.

Lemma easeInOutQuad_fraction_mono (t t' d f f' : Q) :
  0 < d -> 0 <= t -> t <= t' -> t' <= d ->
  easeInOutQuad t 0 1 d = Some f ->
  easeInOutQuad t' 0 1 d = Some f' ->
  f <= f'.
Proof.
  intros Hd H0 Hle Hd' Hf Hf'.
  pose proof (eased_time_le 0 t d Hd H0) as Hu0.
  rewrite (eased_time_0 d Hd) in Hu0.
  pose proof (eased_time_le t t' d Hd Hle) as Huu.
  pose proof (eased_time_le t' d d Hd Hd') as Hu2.
  rewrite (eased_time_d d Hd) in Hu2.
  unfold easeInOutQuad in Hf, Hf'.
  destruct (Qeq_bool d 0); [discriminate|].
  set (u := t / (d / 2)) in *. set (u' := t' / (d / 2)) in *.
  clearbody u u'.
  destruct (Qlt_le_dec u 1), (Qlt_le_dec u' 1);
    injection Hf as <-; injection Hf' as <-.
  - assert (0 <= (u' - u) * (u' + u)) by (apply Qmult_le_0_compat; lra).
    match goal with |- ?a <= ?b =>
      assert (Ea : a == (1 # 2) * (u * u)) by field;
      assert (Eb : b == (1 # 2) * (u' * u')) by field
    end. lra.
  - assert (0 <= (1 - u) * (1 + u)) by (apply Qmult_le_0_compat; lra).
    assert (0 <= (u' - 1) * (3 - u')) by (apply Qmult_le_0_compat; lra).
    match goal with |- ?a <= ?b =>
      assert (Ea : a == (1 # 2) * (u * u)) by field;
      assert (Eb : b == (1 # 2) * (1 + (u' - 1) * (3 - u'))) by field
    end. lra.
  - lra.
  - assert (0 <= (u' - u) * (4 - u' - u)) by (apply Qmult_le_0_compat; lra).
    match goal with |- ?a <= ?b =>
      assert (Ea : a == (1 # 2) * (1 + (u - 1) * (3 - u))) by field;
      assert (Eb : b == (1 # 2) * (1 + (u' - 1) * (3 - u'))) by field
    end. lra.
Qed.

Lemma easeInOutQuad_fraction_ends (d : Q) :
  0 < d ->
  (exists f, easeInOutQuad 0 0 1 d = Some f /\ f == 0) /\
  (exists f, easeInOutQuad d 0 1 d = Some f /\ f == 1).
Proof.
  intros Hd. unfold easeInOutQuad.
  destruct (Qeq_bool d 0) eqn:E; [apply Qeq_bool_iff in E; lra|].
  pose proof (eased_time_0 d Hd) as H0. pose proof (eased_time_d d Hd) as H2.
  set (u := 0 / (d / 2)) in *. set (v := d / (d / 2)) in *. clearbody u v.
  split.
  - destruct (Qlt_le_dec u 1); [|lra].
    eexists; split; [reflexivity|]. rewrite H0. field.
  - destruct (Qlt_le_dec v 1); [lra|].
    eexists; split; [reflexivity|]. rewrite H2. field.
Qed.

(** A frame's position is [start + distance * f], where [f] is the eased
    fraction of the elapsed time, capped at the duration. *)
Lemma animation_frame_position (start target d e : Q) :
  0 < d -> 0 <= e ->
  exists p f more,
    animation_frame start target d e = (Some p, more) /\
    (more = true <-> e < d) /\
    p == start + (target - start) * f /\
    easeInOutQuad (if Qlt_le_dec e d then e else d) 0 1 d = Some f.
Proof.
  intros Hd He. unfold animation_frame.
  destruct (Qlt_le_dec e d) as [Hlt|Hge].
  - destruct (easeInOutQuad_total e start (target - start) d Hd) as [p Ep].
    destruct (easeInOutQuad_total e 0 1 d Hd) as [f Ef].
    exists p, f, true. rewrite Ep. split; [reflexivity|].
    split; [tauto|]. split; [|exact Ef].
    exact (easeInOutQuad_linear e start (target - start) d p f Ef Ep).
  - destruct (easeInOutQuad_fraction_ends d Hd) as [_ (f & Ef & Hf)].
    exists target, f, false. split; [reflexivity|].
    split; [split; [discriminate | lra]|]. split; [|exact Ef].
    rewrite Hf. ring.
Qed.

(** X17.  With a positive duration every frame of [smoothScrollTo] sets
    a finite scroll position between the start and the target, and asks
    for another frame exactly while the elapsed time is below the
    duration.  The first frame (no time elapsed) leaves the container at
    the start, a frame at or after the duration puts it exactly on the
    target, and a later frame never moves it back towards the start. *)
Theorem X17_smooth_scroll_frames (start target duration e1 e2 : Q) :
  0 < duration -> 0 <= e1 -> e1 <= e2 ->
  exists p1 p2 more1 more2,
    animation_frame start target duration e1 = (Some p1, more1) /\
    animation_frame start target duration e2 = (Some p2, more2) /\
    (more1 = true <-> e1 < duration) /\
    Qmin start target <= p1 <= Qmax start target /\
    (e1 == 0 -> p1 == start) /\
    (duration <= e1 -> p1 == target) /\
    0 <= (target - start) * (p2 - p1).
Proof.
  intros Hd H1 H12.
  destruct (animation_frame_position start target duration e1 Hd H1)
    as (p1 & f1 & m1 & E1 & Hm1 & Hp1 & Hf1).
  destruct (animation_frame_position start target duration e2 Hd)
    as (p2 & f2 & m2 & E2 & Hm2 & Hp2 & Hf2); [lra|].
  exists p1, p2, m1, m2.
  destruct (easeInOutQuad_fraction_ends duration Hd)
    as [(z & Ez & Hz) (o & Eo & Ho)].
  set (c1 := if Qlt_le_dec e1 duration then e1 else duration) in *.
  set (c2 := if Qlt_le_dec e2 duration then e2 else duration) in *.
  assert (Hc1 : 0 <= c1 /\ c1 <= duration)
    by (unfold c1; destruct (Qlt_le_dec e1 duration); lra).
  assert (Hc2 : c1 <= c2 /\ c2 <= duration)
    by (unfold c1, c2;
        destruct (Qlt_le_dec e1 duration), (Qlt_le_dec e2 duration); lra).
  assert (Hlo : z <= f1)
    by (apply (easeInOutQuad_fraction_mono 0 c1 duration); auto; lra).
  assert (Hhi : f1 <= o)
    by (apply (easeInOutQuad_fraction_mono c1 duration duration); auto; lra).
  assert (H12f : f1 <= f2)
    by (apply (easeInOutQuad_fraction_mono c1 c2 duration); auto; lra).
  set (dist := target - start) in *.
  split; [exact E1|]. split; [exact E2|]. split; [exact Hm1|].
  split; [|split; [|split]].
  - destruct (Qlt_le_dec dist 0) as [Hneg|Hpos].
    + assert (0 <= (- dist) * f1) by (apply Qmult_le_0_compat; lra).
      assert (0 <= (- dist) * (1 - f1)) by (apply Qmult_le_0_compat; lra).
      unfold dist in *. split_minmax; lra.
    + assert (0 <= dist * f1) by (apply Qmult_le_0_compat; lra).
      assert (0 <= dist * (1 - f1)) by (apply Qmult_le_0_compat; lra).
      unfold dist in *. split_minmax; lra.
  - intros He.
    assert (Hc0 : c1 <= 0)
      by (unfold c1; destruct (Qlt_le_dec e1 duration); lra).
    assert (f1 <= z)
      by (apply (easeInOutQuad_fraction_mono c1 0 duration); auto; lra).
    assert (Ef : f1 == 0) by lra.
    rewrite Hp1, Ef. ring.
  - intros He.
    assert (Hcd : duration <= c1)
      by (unfold c1; destruct (Qlt_le_dec e1 duration); lra).
    assert (o <= f1)
      by (apply (easeInOutQuad_fraction_mono duration c1 duration); auto; lra).
    assert (Ef : f1 == 1) by lra.
    rewrite Hp1, Ef. unfold dist. ring.
  - assert (Esq : dist * (p2 - p1) == (dist * dist) * (f2 - f1))
      by (rewrite Hp1, Hp2; ring).
    rewrite Esq. apply Qmult_le_0_compat; [|lra].
    destruct (Qlt_le_dec dist 0) as [Hneg|Hpos].
    + setoid_replace (dist * dist) with ((- dist) * (- dist)) by ring.
      apply Qmult_le_0_compat; lra.
    + apply Qmult_le_0_compat; lra.
Qed.

Lemma X17_smooth_scroll_frames_witness :
  0 < 600 /\ 0 <= 150 /\ 150 <= 300 /\
  exists p1 p2 more1 more2,
    animation_frame 100 500 600 150 = (Some p1, more1) /\
    animation_frame 100 500 600 300 = (Some p2, more2) /\
    (more1 = true <-> 150 < 600) /\
    Qmin 100 500 <= p1 <= Qmax 100 500 /\
    (150 == 0 -> p1 == 100) /\
    (600 <= 150 -> p1 == 500) /\
    0 <= (500 - 100) * (p2 - p1).
Proof.
  assert (Ha : 0 < 600) by reflexivity.
  assert (Hb : 0 <= 150) by (vm_compute; discriminate).
  assert (Hc : 150 <= 300) by (vm_compute; discriminate).
  split; [exact Ha|]. split; [exact Hb|]. split; [exact Hc|].
  exact (X17_smooth_scroll_frames 100 500 600 150 300 Ha Hb Hc).
Defined.

(** ** Text preview of the table of contents *)

(** X18.  [truncateText] returns a text of at most [maxLength] units
    unchanged.  A longer text is cut to its first [maxLength - 3] units
    followed by three full stops, so the result has exactly [maxLength]
    units when [maxLength >= 3]; for a smaller [maxLength] the result is
    the three full stops alone, longer than asked for. *)
Theorem X18_truncateText_length {char : Type} (dot : char)
    (text : list char) (maxLength : Z) :
  ((Z.of_nat (length text) <= maxLength)%Z ->
   truncateText dot text maxLength = text) /\
  ((maxLength < Z.of_nat (length text))%Z ->
   truncateText dot text maxLength
   = firstn (Z.to_nat (maxLength - 3)) text ++ [dot; dot; dot] /\
   Z.of_nat (length (truncateText dot text maxLength)) = Z.max maxLength 3 /\
   ((maxLength < 3)%Z -> truncateText dot text maxLength = [dot; dot; dot])).
Proof.
  unfold truncateText, substring0. split.
  - intros H. apply Z.leb_le in H. now rewrite H.
  - intros H. apply Z.leb_gt in H. rewrite H. apply Z.leb_gt in H.
    split; [reflexivity|]. split.
    + rewrite length_app, length_firstn. cbn [length]. lia.
    + intros Hs. replace (Z.to_nat (maxLength - 3)) with 0%nat by lia.
      reflexivity.
Qed.

(** ** Dragging the bar *)

(** Clamping after the bounce hides it: what is written is the clamped
    undamped position. *)
Lemma clamped_bounce (factor margin maxV v : Q) :
  0 <= factor ->
  Qmax margin (Qmin (bounce factor margin maxV v) maxV)
  == Qmax margin (Qmin v maxV).
Proof.
  intros Hf. unfold bounce.
  destruct (Qlt_le_dec v margin) as [Hlo|Hlo].
  - assert (0 <= (margin - v) * factor) by (apply Qmult_le_0_compat; lra).
    split_minmax; lra.
  - destruct (Qlt_le_dec maxV v) as [Hhi|Hhi]; [|reflexivity].
    assert (0 <= (v - maxV) * factor) by (apply Qmult_le_0_compat; lra).
    split_minmax; lra.
Qed.

(** Beyond a boundary the damped position is beyond it too. *)
Lemma bounce_outside (factor margin maxV v : Q) :
  0 < factor ->
  (v < margin -> bounce factor margin maxV v < margin) /\
  (margin <= v -> maxV < v -> maxV < bounce factor margin maxV v).
Proof.
  intros Hf. unfold bounce. split.
  - intros Hv. destruct (Qlt_le_dec v margin) as [Hlo|Hlo]; [|lra].
    assert (0 < (margin - v) * factor) by (apply Qmult_lt_0_compat; lra).
    lra.
  - intros Hm Hv. destruct (Qlt_le_dec v margin) as [Hlo|Hlo]; [lra|].
    destruct (Qlt_le_dec maxV v) as [Hhi|Hhi]; [|lra].
    assert (0 < (v - maxV) * factor) by (apply Qmult_lt_0_compat; lra).
    lra.
Qed.

Lemma updateDrag_style (bsx bsy dx dy bw bh W H : Q) :
  style_right (fst (updateDrag bsx bsy dx dy bw bh W H))
  == W - Qmax drag_margin (Qmin (bsx + dx) (W - bw - drag_margin)) - bw /\
  style_top (fst (updateDrag bsx bsy dx dy bw bh W H))
  == Qmax drag_margin (Qmin (bsy + dy) (H - bh - drag_margin)).
Proof.
  unfold updateDrag. cbn [fst style_right style_top]. split.
  - rewrite (clamped_bounce (3 # 10)); [reflexivity | discriminate].
  - rewrite (clamped_bounce (3 # 10)); [reflexivity | discriminate].
Qed.

(** X19.  The bounce of [updateDrag] never shows: the offsets written
    are those of the undamped pointer position clamped to the margins.
    The top offset is never below the margin and the right offset never
    above [W - width - 10]; in a window with room for the bar and both
    margins the bar stays inside the margins on all four sides.  The
    near-boundary class is set whenever the pointer position is beyond
    a boundary. *)
Theorem X19_drag_is_clamped (bsx bsy dx dy bw bh W H : Q) :
  style_right (fst (updateDrag bsx bsy dx dy bw bh W H))
  == W - Qmax 10 (Qmin (bsx + dx) (W - bw - 10)) - bw /\
  style_top (fst (updateDrag bsx bsy dx dy bw bh W H))
  == Qmax 10 (Qmin (bsy + dy) (H - bh - 10)) /\
  10 <= style_top (fst (updateDrag bsx bsy dx dy bw bh W H)) /\
  style_right (fst (updateDrag bsx bsy dx dy bw bh W H)) <= W - bw - 10 /\
  (bw + 20 <= W ->
   10 <= style_right (fst (updateDrag bsx bsy dx dy bw bh W H))) /\
  (bh + 20 <= H ->
   style_top (fst (updateDrag bsx bsy dx dy bw bh W H)) <= H - bh - 10) /\
  (bsx + dx < 10 \/ W - bw - 10 < bsx + dx \/
   bsy + dy < 10 \/ H - bh - 10 < bsy + dy ->
   snd (updateDrag bsx bsy dx dy bw bh W H) = true).
Proof.
  destruct (updateDrag_style bsx bsy dx dy bw bh W H) as [Hr Ht].
  unfold drag_margin in Hr, Ht.
  split; [exact Hr|]. split; [exact Ht|].
  split; [rewrite Ht; split_minmax; lra|].
  split; [rewrite Hr; split_minmax; lra|].
  split; [intros Hw; rewrite Hr; split_minmax; lra|].
  split; [intros Hh; rewrite Ht; split_minmax; lra|].
  intros Hout. unfold updateDrag, near_boundary, drag_margin. cbn [snd].
  assert (Hf : 0 < 3 # 10) by reflexivity.
  destruct (bounce_outside (3 # 10) 10 (W - bw - 10) (bsx + dx) Hf) as [Bx1 Bx2].
  destruct (bounce_outside (3 # 10) 10 (H - bh - 10) (bsy + dy) Hf) as [By1 By2].
  rewrite !orb_true_iff, !Qlt_bool_true.
  destruct (Qlt_le_dec (bsx + dx) 10) as [Hx|Hx].
  { specialize (Bx1 Hx). left. left. left. lra. }
  destruct (Qlt_le_dec (W - bw - 10) (bsx + dx)) as [Hx'|Hx'].
  { specialize (Bx2 Hx Hx'). left. left. right. lra. }
  destruct (Qlt_le_dec (bsy + dy) 10) as [Hy|Hy].
  { specialize (By1 Hy). left. right. lra. }
  destruct (Qlt_le_dec (H - bh - 10) (bsy + dy)) as [Hy'|Hy'].
  { specialize (By2 Hy Hy'). right. lra. }
  destruct Hout as [Ho|[Ho|[Ho|Ho]]]; lra.
Qed.

(** X20.  Dragging, saving and restoring agree: in a window with room
    for the bar and both margins, if the bar's rectangle [r] is where
    [updateDrag] put it when [savePosition] runs, then
    [restorePosition] in the same window writes the offsets that the
    drag wrote, wherever the bar sits when it runs: [barRect] is any
    rectangle of the bar's size. *)
Theorem X20_drag_save_restore (bsx bsy dx dy W H : Q) (r barRect : rect) :
  0 <= rect_width r -> 0 <= rect_height r ->
  rect_width r + 20 <= W -> rect_height r + 20 <= H ->
  W - rect_right r
  == style_right (fst (updateDrag bsx bsy dx dy
                         (rect_width r) (rect_height r) W H)) ->
  rect_top r
  == style_top (fst (updateDrag bsx bsy dx dy
                       (rect_width r) (rect_height r) W H)) ->
  rect_width barRect == rect_width r ->
  rect_height barRect == rect_height r ->
  exists st saved,
    restorePosition (Some (savePosition r W H)) barRect W H
    = Some (st, saved) /\
    style_right st
    == style_right (fst (updateDrag bsx bsy dx dy
                           (rect_width r) (rect_height r) W H)) /\
    style_top st
    == style_top (fst (updateDrag bsx bsy dx dy
                         (rect_width r) (rect_height r) W H)).
Proof.
  intros Hw Hh HW HH Er Et Ew Eh.
  destruct (updateDrag_style bsx bsy dx dy (rect_width r) (rect_height r) W H)
    as [Hr Ht].
  assert (Hin : in_margin_bounds r W H).
  { unfold in_margin_bounds. split; [exact Hw|]. split; [exact Hh|].
    rewrite Er, Et, Hr, Ht. unfold drag_margin.
    split; split; split_minmax; lra. }
  destruct (restore_after_save r barRect W H Hin Ew Eh)
    as (st & saved & E & Sr & St).
  exists st, saved. split; [exact E|].
  split; [rewrite Sr; exact Er | rewrite St; exact Et].
Qed.

Lemma X20_drag_save_restore_witness :
  0 <= rect_width (mkRect 890 150 24 400) /\
  0 <= rect_height (mkRect 890 150 24 400) /\
  rect_width (mkRect 890 150 24 400) + 20 <= 1000 /\
  rect_height (mkRect 890 150 24 400) + 20 <= 800 /\
  rect_width (mkRect 966 60 24 400) == rect_width (mkRect 890 150 24 400) /\
  rect_height (mkRect 966 60 24 400) == rect_height (mkRect 890 150 24 400) /\
  exists st saved,
    restorePosition (Some (savePosition (mkRect 890 150 24 400) 1000 800))
                    (mkRect 966 60 24 400) 1000 800 = Some (st, saved) /\
    style_right st
    == style_right (fst (updateDrag 990 100 (-100) 50 24 400 1000 800)) /\
    style_top st
    == style_top (fst (updateDrag 990 100 (-100) 50 24 400 1000 800)).
Proof.
  assert (Ha : 0 <= rect_width (mkRect 890 150 24 400))
    by (vm_compute; discriminate).
  assert (Hb : 0 <= rect_height (mkRect 890 150 24 400))
    by (vm_compute; discriminate).
  assert (Hc : rect_width (mkRect 890 150 24 400) + 20 <= 1000)
    by (vm_compute; discriminate).
  assert (Hd : rect_height (mkRect 890 150 24 400) + 20 <= 800)
    by (vm_compute; discriminate).
  assert (Ew : rect_width (mkRect 966 60 24 400)
               == rect_width (mkRect 890 150 24 400)) by reflexivity.
  assert (Eh : rect_height (mkRect 966 60 24 400)
               == rect_height (mkRect 890 150 24 400)) by reflexivity.
  split; [exact Ha|]. split; [exact Hb|]. split; [exact Hc|].
  split; [exact Hd|]. split; [exact Ew|]. split; [exact Eh|].
  refine (X20_drag_save_restore 990 100 (-100) 50 1000 800
            (mkRect 890 150 24 400) (mkRect 966 60 24 400)
            Ha Hb Hc Hd _ _ Ew Eh).
  - vm_compute. reflexivity.
  - vm_compute. reflexivity.
Defined.

(** X21.  [startDrag] records the bar's right edge, and [updateDrag]
    uses it as the new left edge: for a bar inside the margins, a drag
    step with no pointer movement keeps the top offset but reduces the
    right offset by the bar's width (down to the margin), so the bar
    jumps to the right by up to its own width. *)
Theorem X21_drag_without_movement_shifts_bar (r : rect) (W H : Q) :
  in_margin_bounds r W H ->
  style_top (fst (updateDrag (fst (startDrag r)) (snd (startDrag r)) 0 0
                    (rect_width r) (rect_height r) W H))
  == style_top (offsets_of r W) /\
  style_right (fst (updateDrag (fst (startDrag r)) (snd (startDrag r)) 0 0
                      (rect_width r) (rect_height r) W H))
  == Qmax 10 (style_right (offsets_of r W) - rect_width r).
Proof.
  intros (Hw & Hh & [Hr1 Hr2] & [Ht1 Ht2]). unfold drag_margin in *.
  destruct (updateDrag_style (fst (startDrag r)) (snd (startDrag r)) 0 0
              (rect_width r) (rect_height r) W H) as [Hr Ht].
  rewrite Hr, Ht. unfold startDrag, offsets_of, drag_margin.
  cbn [fst snd style_right style_top].
  split; split_minmax; lra.
Qed.

Lemma X21_drag_without_movement_shifts_bar_witness :
  in_margin_bounds (mkRect 890 150 24 400) 1000 800 /\
  style_top (fst (updateDrag (fst (startDrag (mkRect 890 150 24 400)))
                    (snd (startDrag (mkRect 890 150 24 400))) 0 0
                    (rect_width (mkRect 890 150 24 400))
                    (rect_height (mkRect 890 150 24 400)) 1000 800))
  == style_top (offsets_of (mkRect 890 150 24 400) 1000) /\
  style_right (fst (updateDrag (fst (startDrag (mkRect 890 150 24 400)))
                      (snd (startDrag (mkRect 890 150 24 400))) 0 0
                      (rect_width (mkRect 890 150 24 400))
                      (rect_height (mkRect 890 150 24 400)) 1000 800))
  == Qmax 10 (style_right (offsets_of (mkRect 890 150 24 400) 1000)
              - rect_width (mkRect 890 150 24 400)).
Proof.
  assert (Hin : in_margin_bounds (mkRect 890 150 24 400) 1000 800).
  { unfold in_margin_bounds.
    repeat split; vm_compute; discriminate. }
  split; [exact Hin|].
  exact (X21_drag_without_movement_shifts_bar (mkRect 890 150 24 400) 1000 800 Hin).
Defined.

(** ** Restoring the bar *)

(** X22.  Whatever was stored, [restorePosition] never puts the bar
    closer than the margin to the right or the top edge, and in a window
    with room for the bar and both margins it keeps it inside them on
    all sides.  A position saved in a window of another size is scaled
    with the window before clamping.  The value stored back carries the
    current window size, and restoring it again writes the same
    offsets. *)
Theorem X22_restore_within_margins
    (stored : SavedPosition) (barRect : rect) (W H : Q) :
  exists st saved,
    restorePosition (Some stored) barRect W H = Some (st, saved) /\
    10 <= style_right st /\ 10 <= style_top st /\
    (rect_width barRect + 20 <= W ->
     style_right st <= W - rect_width barRect - 10) /\
    (rect_height barRect + 20 <= H ->
     style_top st <= H - rect_height barRect - 10) /\
    (forall (r : rect) (W0 H0 : Q),
        0 < W0 -> 0 < H0 -> stored = savePosition r W0 H0 ->
        style_right st
        == Qmax 10 (Qmin ((W0 - rect_right r) * (W / W0))
                         (W - rect_width barRect - 10)) /\
        style_top st
        == Qmax 10 (Qmin (rect_top r * (H / H0))
                         (H - rect_height barRect - 10))) /\
    saved_windowWidth saved = W /\ saved_windowHeight saved = H /\
    restorePosition (Some saved) barRect W H = Some (st, saved).
Proof.
  unfold restorePosition. eexists. eexists. split; [reflexivity|].
  cbn [style_right style_top saved_right saved_top saved_width saved_height
       saved_windowWidth saved_windowHeight].
  unfold drag_margin.
  split; [split_minmax; lra|]. split; [split_minmax; lra|].
  split; [intros Hw; split_minmax; lra|].
  split; [intros Hh; split_minmax; lra|].
  split; [|split; [reflexivity|split; reflexivity]].
  intros r W0 H0 HW0 HH0 ->. unfold savePosition.
  cbn [saved_right saved_top].
  assert (E1 : (W0 - rect_right r) / W0 * 100 / 100 * W
               == (W0 - rect_right r) * (W / W0)) by (field; lra).
  assert (E2 : rect_top r / H0 * 100 / 100 * H == rect_top r * (H / H0))
    by (field; lra).
  rewrite E1, E2. split; reflexivity.
Qed.

(** ** Dragging and restoring the table of contents *)

(** X23.  [updateTOCDrag] does not clamp: inside the margins the table
    of contents follows the pointer exactly, and beyond a boundary it
    goes on past the margin by four tenths of the pointer's overshoot,
    so it lies strictly between the boundary and the pointer position.
    In each of these cases the near-boundary class is set. *)
Theorem X23_toc_drag_overshoots (sx sy dx dy cw ch W H : Q) :
  (10 <= sx + dx <= W - cw - 10 ->
   toc_left (fst (updateTOCDrag sx sy dx dy cw ch W H)) == sx + dx) /\
  (sx + dx < 10 ->
   toc_left (fst (updateTOCDrag sx sy dx dy cw ch W H))
   == 10 - (4 # 10) * (10 - (sx + dx)) /\
   sx + dx < toc_left (fst (updateTOCDrag sx sy dx dy cw ch W H)) < 10 /\
   snd (updateTOCDrag sx sy dx dy cw ch W H) = true) /\
  (10 <= sx + dx -> W - cw - 10 < sx + dx ->
   toc_left (fst (updateTOCDrag sx sy dx dy cw ch W H))
   == (W - cw - 10) + (4 # 10) * ((sx + dx) - (W - cw - 10)) /\
   W - cw - 10 < toc_left (fst (updateTOCDrag sx sy dx dy cw ch W H))
     < sx + dx /\
   snd (updateTOCDrag sx sy dx dy cw ch W H) = true) /\
  (10 <= sy + dy <= H - ch - 10 ->
   toc_top (fst (updateTOCDrag sx sy dx dy cw ch W H)) == sy + dy) /\
  (sy + dy < 10 ->
   toc_top (fst (updateTOCDrag sx sy dx dy cw ch W H))
   == 10 - (4 # 10) * (10 - (sy + dy)) /\
   sy + dy < toc_top (fst (updateTOCDrag sx sy dx dy cw ch W H)) < 10 /\
   snd (updateTOCDrag sx sy dx dy cw ch W H) = true) /\
  (10 <= sy + dy -> H - ch - 10 < sy + dy ->
   toc_top (fst (updateTOCDrag sx sy dx dy cw ch W H))
   == (H - ch - 10) + (4 # 10) * ((sy + dy) - (H - ch - 10)) /\
   H - ch - 10 < toc_top (fst (updateTOCDrag sx sy dx dy cw ch W H))
     < sy + dy /\
   snd (updateTOCDrag sx sy dx dy cw ch W H) = true).
Proof.
  unfold updateTOCDrag, near_boundary, drag_margin.
  cbn [fst snd toc_left toc_top].
  set (x := sx + dx). set (y := sy + dy).
  set (mx := W - cw - 10). set (my := H - ch - 10).
  assert (Bx : forall m v,
     (10 <= v <= m -> bounce (4 # 10) 10 m v == v) /\
     (v < 10 -> bounce (4 # 10) 10 m v == 10 - (4 # 10) * (10 - v) /\
                v < bounce (4 # 10) 10 m v < 10) /\
     (10 <= v -> m < v ->
        bounce (4 # 10) 10 m v == m + (4 # 10) * (v - m) /\
        m < bounce (4 # 10) 10 m v < v)).
  { intros m v. unfold bounce.
    destruct (Qlt_le_dec v 10) as [Hlo|Hlo];
      [|destruct (Qlt_le_dec m v) as [Hhi|Hhi]];
      repeat split; intros; try lra. }
  destruct (Bx mx x) as (Bx1 & Bx2 & Bx3).
  destruct (Bx my y) as (By1 & By2 & By3).
  clear Bx. clearbody x y mx my.
  set (nx := bounce (4 # 10) 10 mx x) in *.
  set (ny := bounce (4 # 10) 10 my y) in *.
  clearbody nx ny.
  repeat match goal with
         | |- _ /\ _ => split
         | |- _ -> _ => intro
         end;
    try (rewrite !orb_true_iff, !Qlt_bool_true);
    try match goal with
        | H : x < 10 |- _ => specialize (Bx2 H)
        end;
    try match goal with
        | H : 10 <= x, H' : mx < x |- _ => specialize (Bx3 H H')
        end;
    try match goal with
        | H : y < 10 |- _ => specialize (By2 H)
        end;
    try match goal with
        | H : 10 <= y, H' : my < y |- _ => specialize (By3 H H')
        end;
    try match goal with
        | H : 10 <= x <= mx |- _ => specialize (Bx1 H)
        end;
    try match goal with
        | H : 10 <= y <= my |- _ => specialize (By1 H)
        end;
    try lra;
    try (left; left; left; lra);
    try (left; left; right; lra);
    try (left; right; lra);
    try (right; lra).
Qed.

(** X24.  Saving the table of contents and restoring it in the same
    window puts it at its rectangle's position clamped to the margins
    (so exactly back when it was inside them), never closer than the
    margin to the left or the top edge.  After a drag this undoes the
    overshoot: the restored position is the pointer position clamped to
    the margins. *)
Theorem X24_toc_save_restore (r : rect) (W H sx sy dx dy : Q) :
  0 < W -> 0 < H ->
  exists st saved,
    restoreTOCPosition (Some (saveTOCPosition r W H)) W H = Some (st, saved) /\
    toc_left st == Qmax 10 (Qmin (rect_left r) (W - rect_width r - 10)) /\
    toc_top st == Qmax 10 (Qmin (rect_top r) (H - rect_height r - 10)) /\
    10 <= toc_left st /\ 10 <= toc_top st /\
    (rect_left r
     == toc_left (fst (updateTOCDrag sx sy dx dy
                         (rect_width r) (rect_height r) W H)) ->
     toc_left st == Qmax 10 (Qmin (sx + dx) (W - rect_width r - 10))) /\
    (rect_top r
     == toc_top (fst (updateTOCDrag sx sy dx dy
                        (rect_width r) (rect_height r) W H)) ->
     toc_top st == Qmax 10 (Qmin (sy + dy) (H - rect_height r - 10))).
Proof.
  intros HW HH. unfold restoreTOCPosition, saveTOCPosition.
  cbn [toc_saved_left toc_saved_top toc_saved_width toc_saved_height].
  eexists. eexists. split; [reflexivity|].
  cbn [toc_left toc_top]. unfold drag_margin.
  assert (E1 : rect_left r / W * 100 / 100 * W == rect_left r) by (field; lra).
  assert (E2 : rect_top r / H * 100 / 100 * H == rect_top r) by (field; lra).
  assert (E3 : rect_width r / W * 100 / 100 * W == rect_width r)
    by (field; lra).
  assert (E4 : rect_height r / H * 100 / 100 * H == rect_height r)
    by (field; lra).
  rewrite E1, E2, E3, E4.
  split; [reflexivity|]. split; [reflexivity|].
  split; [split_minmax; lra|]. split; [split_minmax; lra|].
  unfold updateTOCDrag, drag_margin. cbn [fst toc_left toc_top].
  split; intros ->; apply clamped_bounce; discriminate.
Qed.

Lemma X24_toc_save_restore_witness :
  0 < 1000 /\ 0 < 800 /\
  exists st saved,
    restoreTOCPosition
      (Some (saveTOCPosition (mkRect 6 100 200 300) 1000 800)) 1000 800
    = Some (st, saved) /\
    toc_left st
    == Qmax 10 (Qmin (rect_left (mkRect 6 100 200 300))
                     (1000 - rect_width (mkRect 6 100 200 300) - 10)) /\
    toc_top st
    == Qmax 10 (Qmin (rect_top (mkRect 6 100 200 300))
                     (800 - rect_height (mkRect 6 100 200 300) - 10)) /\
    10 <= toc_left st /\ 10 <= toc_top st /\
    (rect_left (mkRect 6 100 200 300)
     == toc_left (fst (updateTOCDrag 50 100 (-50) 0
                         (rect_width (mkRect 6 100 200 300))
                         (rect_height (mkRect 6 100 200 300)) 1000 800)) ->
     toc_left st
     == Qmax 10 (Qmin (50 + -50)
                      (1000 - rect_width (mkRect 6 100 200 300) - 10))) /\
    (rect_top (mkRect 6 100 200 300)
     == toc_top (fst (updateTOCDrag 50 100 (-50) 0
                        (rect_width (mkRect 6 100 200 300))
                        (rect_height (mkRect 6 100 200 300)) 1000 800)) ->
     toc_top st
     == Qmax 10 (Qmin (100 + 0)
                      (800 - rect_height (mkRect 6 100 200 300) - 10))).
Proof.
  assert (Ha : 0 < 1000) by reflexivity.
  assert (Hb : 0 < 800) by reflexivity.
  split; [exact Ha|]. split; [exact Hb|].
  exact (X24_toc_save_restore (mkRect 6 100 200 300) 1000 800
           50 100 (-50) 0 Ha Hb).
Defined.

(** ** Sites and supported paths *)

Lemma string_length_append (s t : string) :
  String.length (s ++ t) = (String.length s + String.length t)%nat.
Proof. induction s as [|c s IH]; cbn; [reflexivity | now rewrite IH]. Qed.

Lemma substring_append_skip (s t : string) (n m : nat) :
  substring (String.length s + n) m (s ++ t) = substring n m t.
Proof. induction s as [|c s IH]; cbn; [reflexivity | exact IH]. Qed.

(** A suffix no longer than [t] is looked for in [t] alone. *)
Lemma ends_with_append (s t u : string) :
  (String.length u <= String.length t)%nat ->
  ends_with (s ++ t) u = ends_with t u.
Proof.
  intros Hle. unfold ends_with. rewrite string_length_append.
  replace (String.length s + String.length t - String.length u)%nat
    with (String.length s + (String.length t - String.length u))%nat by lia.
  rewrite substring_append_skip.
  replace (String.length u <=? String.length s + String.length t)%nat
    with true by (symmetry; apply Nat.leb_le; lia).
  replace (String.length u <=? String.length t)%nat
    with true by (symmetry; apply Nat.leb_le; lia).
  reflexivity.
Qed.

Lemma eqb_append_longer (s t u : string) :
  (String.length u < String.length t)%nat ->
  String.eqb (s ++ t) u = false.
Proof.
  intros Hlt. apply String.eqb_neq. intros E.
  apply (f_equal String.length) in E. rewrite string_length_append in E. lia.
Qed.

Lemma prefix_append (a b p : string) :
  String.prefix (a ++ b) p = true -> String.prefix a p = true.
Proof.
  revert p. induction a as [|c a IH]; intros p H.
  - destruct p; reflexivity.
  - destruct p as [|d p]; cbn in *; [discriminate|].
    destruct (Ascii.ascii_dec c d); [now apply IH | discriminate].
Qed.

(** X25.  A path is supported exactly on a ChatGPT host when it starts
    with [/c/] or [/g/], and on a Gemini host when it starts with
    [/app] (the prefix [/app/] of the configuration adds nothing); on
    any other host nothing is supported.  Every subdomain of a
    configured host counts as that site. *)
Theorem X25_supported_paths (pathname hostname sub : string) :
  (isTimelineSupportedPath pathname hostname = true <->
   (getSiteType hostname = ChatGPT /\
    (String.prefix "/c/" pathname = true \/
     String.prefix "/g/" pathname = true)) \/
   (getSiteType hostname = Gemini /\ String.prefix "/app" pathname = true)) /\
  getSiteType (sub ++ ".chatgpt.com") = ChatGPT /\
  getSiteType (sub ++ ".chat.openai.com") = ChatGPT /\
  getSiteType (sub ++ ".gemini.google.com") = Gemini.
Proof.
  split; [|split; [|split]].
  - unfold isTimelineSupportedPath.
    destruct (getSiteType hostname); cbn [pathPrefixes existsb].
    + rewrite !orb_true_iff. split.
      * intros [H|[H|H]]; [left; split; auto .. | discriminate].
      * intros [[_ [H|H]]|[H _]]; [auto | auto | discriminate].
    + rewrite !orb_true_iff. split.
      * intros [H|[H|H]]; [| |discriminate]; right; split; auto.
        apply (prefix_append "/app" "/" pathname H).
      * intros [[H _]|[_ H]]; [discriminate | auto].
    + split; [discriminate|].
      intros [[H _]|[H _]]; discriminate.
  - unfold getSiteType. cbn [hostMatches existsb]. unfold host_matches.
    cbn [String.append].
    rewrite (ends_with_append sub ".chatgpt.com" ".chatgpt.com")
      by (cbn; lia).
    rewrite orb_true_r. reflexivity.
  - unfold getSiteType. cbn [hostMatches existsb]. unfold host_matches.
    cbn [String.append].
    rewrite (ends_with_append sub ".chat.openai.com" ".chat.openai.com")
      by (cbn; lia).
    rewrite !orb_true_r. reflexivity.
  - unfold getSiteType. cbn [hostMatches existsb]. unfold host_matches.
    cbn [String.append].
    rewrite (ends_with_append sub ".gemini.google.com" ".chatgpt.com")
      by (cbn; lia).
    rewrite (ends_with_append sub ".gemini.google.com" ".chat.openai.com")
      by (cbn; lia).
    rewrite (ends_with_append sub ".gemini.google.com" ".gemini.google.com")
      by (cbn; lia).
    rewrite (eqb_append_longer sub ".gemini.google.com" "chatgpt.com")
      by (cbn; lia).
    rewrite (eqb_append_longer sub ".gemini.google.com" "chat.openai.com")
      by (cbn; lia).
    replace (ends_with ".gemini.google.com" ".chatgpt.com")
      with false by reflexivity.
    replace (ends_with ".gemini.google.com" ".chat.openai.com")
      with false by reflexivity.
    replace (ends_with ".gemini.google.com" ".gemini.google.com")
      with true by reflexivity.
    cbn [orb]. rewrite orb_true_r. reflexivity.
Qed.

(** ** Turn ids *)

Lemma to_uint_nonnil (n : nat) : Nat.to_uint n <> Decimal.Nil.
Proof.
  pose proof (DecimalNat.Unsigned.to_of (Nat.to_uint n)) as H.
  rewrite DecimalNat.Unsigned.of_to in H. rewrite H.
  apply DecimalFacts.unorm_nonnil.
Qed.

Lemma decimal_inj (i j : nat) : decimal i = decimal j -> i = j.
Proof.
  unfold decimal. intros H.
  apply (f_equal DecimalString.NilZero.uint_of_string) in H.
  rewrite !DecimalString.NilZero.usu in H by apply to_uint_nonnil.
  injection H as H. now apply DecimalNat.Unsigned.to_uint_inj.
Qed.

Lemma or_string_nonempty (a : option string) (b : string) :
  b <> EmptyString -> or_string a b <> EmptyString.
Proof.
  intros Hb. unfold or_string. destruct a as [s|]; [|exact Hb].
  destruct (String.eqb s EmptyString) eqn:E; [exact Hb|].
  now apply String.eqb_neq.
Qed.

(** X26.  [getTurnId] never returns the empty string, so the id of a
    marker is always one that the active-marker logic can commit.  A
    non-empty [data-turn-id] (on Gemini: a non-empty container id) is
    the id; and elements that carry no id at all get ids that differ
    whenever their indices differ. *)
Theorem X26_turn_id_nonempty (s : site) (turnId containerId : option string)
    (elementId : string) (index j : nat) :
  truthy_id (Some (getTurnId s turnId containerId elementId index)) = true /\
  (forall id, id <> EmptyString -> s <> Gemini ->
     getTurnId s (Some id) containerId elementId index = id) /\
  (forall id, id <> EmptyString ->
     getTurnId Gemini turnId (Some id) elementId index = id) /\
  (getTurnId s None None EmptyString index = getTurnId s None None EmptyString j ->
   index = j).
Proof.
  split; [|split; [|split]].
  - cbn [truthy_id]. apply negb_true_iff, String.eqb_neq.
    unfold getTurnId.
    destruct s; apply or_string_nonempty, or_string_nonempty; discriminate.
  - intros id Hid Hs. apply String.eqb_neq in Hid.
    unfold getTurnId, or_string.
    destruct s; try congruence; now rewrite Hid.
  - intros id Hid. apply String.eqb_neq in Hid.
    unfold getTurnId, or_string. now rewrite Hid.
  - unfold getTurnId. destruct s; cbn; intros H;
      injection H as H; now apply decimal_inj.
Qed.

(** ** Debounced calls *)

Lemma clear_timeout_pending {A : Type} (d : debounced A) :
  one_pending d -> clear_timeout (deb_timeout d) (deb_timers d) = [].
Proof.
  intros [E | (h & a & E & Eh)]; rewrite E.
  - destruct (deb_timeout d); reflexivity.
  - rewrite Eh. cbn. now rewrite Nat.eqb_refl.
Qed.

Lemma debounce_call_pending {A : Type} (args : A) (d : debounced A) :
  one_pending d ->
  deb_timers (debounce_call args d) = [(deb_next d, args)] /\
  deb_timeout (debounce_call args d) = Some (deb_next d) /\
  deb_calls (debounce_call args d) = deb_calls d.
Proof.
  intros H. unfold debounce_call.
  cbn [deb_timers deb_timeout deb_calls].
  now rewrite (clear_timeout_pending d H).
Qed.

Lemma debounce_step_pending {A : Type} (d : debounced A)
    (e : debounce_event A) :
  one_pending d -> one_pending (debounce_step d e).
Proof.
  intros H. destruct e as [args| |h]; cbn [debounce_step].
  - destruct (debounce_call_pending args d H) as (E1 & E2 & _).
    right. eauto.
  - left. unfold debounce_cancel. cbn [deb_timers].
    exact (clear_timeout_pending d H).
  - unfold debounce_fire. destruct H as [E | (h0 & a & E & Eh)]; rewrite E.
    + cbn. now left.
    + cbn [find fst]. destruct (Nat.eqb h0 h) eqn:Eq.
      * left. cbn. now rewrite Eq.
      * right. exists h0, a. now split.
Qed.

Lemma debounce_steps_pending {A : Type} (es : list (debounce_event A))
    (d : debounced A) :
  one_pending d -> one_pending (fold_left debounce_step es d).
Proof.
  revert d. induction es as [|e es IH]; intros d H; [exact H|].
  cbn [fold_left]. apply IH. now apply debounce_step_pending.
Qed.

Lemma debounce_run_pending {A : Type} (es : list (debounce_event A)) :
  one_pending (debounce_run es).
Proof. apply debounce_steps_pending. now left. Qed.

(** After a burst of calls only the last one is scheduled. *)
Lemma debounce_burst {A : Type} (burst : list A) (args : A) (d : debounced A) :
  one_pending d ->
  exists h,
    deb_timers (fold_left debounce_step (map DebCall (burst ++ [args])) d)
    = [(h, args)] /\
    deb_timeout (fold_left debounce_step (map DebCall (burst ++ [args])) d)
    = Some h /\
    deb_calls (fold_left debounce_step (map DebCall (burst ++ [args])) d)
    = deb_calls d.
Proof.
  revert d. induction burst as [|a burst IH]; intros d H.
  - cbn. destruct (debounce_call_pending args d H) as (E1 & E2 & E3).
    exists (deb_next d). auto.
  - cbn [app map fold_left debounce_step].
    destruct (IH (debounce_call a d)) as (h & E1 & E2 & E3).
    { apply (debounce_step_pending d (DebCall a) H). }
    exists h. split; [exact E1|]. split; [exact E2|].
    rewrite E3. now destruct (debounce_call_pending a d H) as (_ & _ & ->).
Qed.

(** X27.  Through any sequence of calls, cancellations and timer
    firings a function made by [debounce] has at most one callback
    scheduled.  After a burst of calls (with no firing in between) that
    callback carries the arguments of the last call, the wrapped
    function has not been called during the burst, and when the callback
    fires it is called once, with those arguments, and nothing stays
    scheduled.  After [cancel] nothing is scheduled and no late timer
    calls the function. *)
Theorem X27_debounce_last_call_wins {A : Type}
    (es : list (debounce_event A)) (burst : list A) (args : A) :
  (deb_timers (debounce_run es) = [] \/
   exists h a, deb_timers (debounce_run es) = [(h, a)] /\
               deb_timeout (debounce_run es) = Some h) /\
  (exists h,
     deb_timers (debounce_run (es ++ map DebCall (burst ++ [args])))
     = [(h, args)] /\
     deb_calls (debounce_run (es ++ map DebCall (burst ++ [args])))
     = deb_calls (debounce_run es) /\
     deb_calls (debounce_run
                  (es ++ map DebCall (burst ++ [args]) ++ [DebFire h]))
     = deb_calls (debounce_run es) ++ [args] /\
     deb_timers (debounce_run
                   (es ++ map DebCall (burst ++ [args]) ++ [DebFire h]))
     = []) /\
  deb_timers (debounce_run (es ++ [DebCancel])) = [] /\
  (forall h,
     deb_calls (debounce_run (es ++ [DebCancel; DebFire h]))
     = deb_calls (debounce_run es)).
Proof.
  pose proof (debounce_run_pending es) as Hinv.
  split; [exact Hinv|]. split; [|split].
  - destruct (debounce_burst burst args (debounce_run es) Hinv)
      as (h & E1 & E2 & E3).
    exists h. unfold debounce_run in *.
    rewrite app_assoc, !fold_left_app.
    split; [exact E1|]. split; [exact E3|].
    cbn [fold_left debounce_step]. unfold debounce_fire.
    rewrite E1. cbn [find fst]. rewrite Nat.eqb_refl.
    cbn [deb_calls deb_timers filter fst]. rewrite Nat.eqb_refl, E3.
    split; reflexivity.
  - unfold debounce_run in *. rewrite fold_left_app.
    cbn [fold_left debounce_step]. unfold debounce_cancel.
    cbn [deb_timers]. exact (clear_timeout_pending _ Hinv).
  - intros h. unfold debounce_run in *. rewrite fold_left_app.
    cbn [fold_left debounce_step]. unfold debounce_fire, debounce_cancel.
    cbn [deb_timers]. rewrite (clear_timeout_pending _ Hinv). reflexivity.
Qed.

(** ** Throttled calls *)

Lemma throttle_run_snoc {A : Type} (es : list (throttle_event A))
    (e : throttle_event A) :
  throttle_run (es ++ [e]) = throttle_step (throttle_run es) e.
Proof. unfold throttle_run. now rewrite fold_left_app. Qed.

Lemma throttle_windows_snoc {A : Type} (es : list (throttle_event A))
    (e : throttle_event A) :
  throttle_windows (es ++ [e])
  = (throttle_windows es
     + match e with ThrTimer => 1 | _ => 0 end)%nat.
Proof.
  unfold throttle_windows. rewrite filter_app, length_app.
  destruct e; reflexivity.
Qed.

(** The flag is set exactly while one reset is scheduled, and each call
    of [func] but possibly the last has been followed by a reset. *)
Lemma throttle_run_invariant {A : Type} (es : list (throttle_event A)) :
  (thr_inThrottle (throttle_run es) = true
   <-> thr_pending (throttle_run es) = 1%nat) /\
  (thr_pending (throttle_run es) <= 1)%nat /\
  (length (thr_calls (throttle_run es))
   <= throttle_windows es
      + (if thr_inThrottle (throttle_run es) then 1 else 0))%nat /\
  (forall x, In x (thr_calls (throttle_run es)) -> In (ThrCall x) es).
Proof.
  induction es as [|e es IH] using rev_ind.
  - cbn. split; [split; discriminate|]. split; [lia|]. split; [lia|].
    intros x [].
  - rewrite throttle_run_snoc, throttle_windows_snoc.
    destruct IH as (Hflag & Hpend & Hlen & Hin).
    assert (Hin' : forall x, In x (thr_calls (throttle_run es)) ->
                             In (ThrCall x) (es ++ [e])).
    { intros x Hx. apply in_or_app. left. now apply Hin. }
    destruct e as [args|]; cbn [throttle_step].
    + unfold throttle_call.
      destruct (thr_inThrottle (throttle_run es)) eqn:Ef.
      * rewrite Ef. split; [exact Hflag|]. split; [exact Hpend|].
        split; [lia | exact Hin'].
      * cbn [thr_inThrottle thr_pending thr_calls].
        assert (Hp : thr_pending (throttle_run es) = 0%nat).
        { destruct (thr_pending (throttle_run es)) as [|[|n]]; [reflexivity| |lia].
          destruct Hflag as [_ Hflag]. specialize (Hflag eq_refl).
          discriminate. }
        rewrite Hp, length_app. cbn [length].
        split; [split; reflexivity|]. split; [lia|]. split; [lia|].
        intros x Hx. apply in_app_or in Hx.
        destruct Hx as [Hx|[<-|[]]]; [now apply Hin'|].
        apply in_or_app. right. now left.
    + unfold throttle_reset.
      destruct (thr_pending (throttle_run es)) as [|n] eqn:Ep.
      * rewrite Ep. split; [exact Hflag|]. split; [lia|].
        split; [|exact Hin'].
        destruct (thr_inThrottle (throttle_run es)); lia.
      * cbn [thr_inThrottle thr_pending thr_calls].
        split; [split; [discriminate | lia]|]. split; [lia|].
        split; [|exact Hin'].
        destruct (thr_inThrottle (throttle_run es)); lia.
Qed.

(** Calls of [func] are only ever added at the end. *)
Lemma throttle_steps_extend {A : Type} (es : list (throttle_event A))
    (t : throttled A) :
  exists rest,
    thr_calls (fold_left throttle_step es t) = thr_calls t ++ rest.
Proof.
  revert t. induction es as [|e es IH]; intros t.
  - exists []. cbn. now rewrite app_nil_r.
  - cbn [fold_left]. destruct (IH (throttle_step t e)) as [rest E].
    rewrite E. destruct e as [args|]; cbn [throttle_step].
    + unfold throttle_call. destruct (thr_inThrottle t); [eauto|].
      cbn [thr_calls]. exists ([args] ++ rest). now rewrite app_assoc.
    + unfold throttle_reset. destruct (thr_pending t); eauto.
Qed.

(** X28.  Through any sequence of calls and timer firings a function
    made by [throttle] has at most one reset scheduled, and its flag is
    set exactly while one is.  The wrapped function has run at most once
    more often than resets have fired, and only with arguments of calls
    that were made.  The first call of a history runs at once; a call
    while the flag is set is dropped, and the reset that follows does
    not replay it. *)
Theorem X28_throttle_once_per_window {A : Type}
    (es : list (throttle_event A)) (a : A) :
  (thr_inThrottle (throttle_run es) = true
   <-> thr_pending (throttle_run es) = 1%nat) /\
  (thr_pending (throttle_run es) <= 1)%nat /\
  (length (thr_calls (throttle_run es)) <= S (throttle_windows es))%nat /\
  (forall x, In x (thr_calls (throttle_run es)) -> In (ThrCall x) es) /\
  (exists rest, thr_calls (throttle_run (ThrCall a :: es)) = a :: rest) /\
  (thr_inThrottle (throttle_run es) = true ->
   thr_calls (throttle_run (es ++ [ThrCall a; ThrTimer]))
   = thr_calls (throttle_run es)) /\
  (thr_inThrottle (throttle_run es) = false ->
   thr_calls (throttle_run (es ++ [ThrCall a]))
   = thr_calls (throttle_run es) ++ [a]).
Proof.
  destruct (throttle_run_invariant es) as (Hflag & Hpend & Hlen & Hin).
  split; [exact Hflag|]. split; [exact Hpend|].
  split; [destruct (thr_inThrottle (throttle_run es)); lia|].
  split; [exact Hin|]. split; [|split].
  - unfold throttle_run. cbn [fold_left throttle_step].
    destruct (throttle_steps_extend es (throttle_call a throttle_new))
      as [rest E].
    exists rest. rewrite E. reflexivity.
  - intros Ef. unfold throttle_run in *. rewrite fold_left_app.
    cbn [fold_left throttle_step]. unfold throttle_call. rewrite Ef.
    unfold throttle_reset.
    destruct (thr_pending (fold_left throttle_step es throttle_new));
      reflexivity.
  - intros Ef. unfold throttle_run in *. rewrite fold_left_app.
    cbn [fold_left throttle_step]. unfold throttle_call. rewrite Ef.
    reflexivity.
Qed.
